(** * Interval tree and calendar layout of [fb.js]

    A shallow embedding of the red/black interval tree ([FB.data.Node],
    [FB.data.Tree]) and of the layout pass of [FB.ui.calendar.Calendar] /
    [FB.ui.calendar.Event], followed by the properties proved about them.

    JavaScript objects live in an arena: a node reference is an index into
    the list of allocated nodes, [null] is [None].  Loops and recursion take
    fuel; the public entry points supply a bound computed from the arena. *)

From Stdlib Require Import ZArith Lia String Floats.SpecFloat.
From stdpp Require Import base decidable option list sorting gmap.
Local Open Scope Z_scope.
Set Warnings "-clear-no-such-hyp".

(** ** Results of running JavaScript code *)

(** Exceptions the code can raise: the runtime [TypeError] of a method call
    on [null], and [throw new Error(msg)]. *)
Inductive Exn : Type :=
  | TypeError
  | Error (msg : string).

(** [Stuck] is not a JavaScript outcome: the model ran out of fuel, or it
    followed a handle that is not allocated. *)
Inductive Res (A : Type) : Type :=
  | Ok (a : A)
  | Throw (e : Exn)
  | Stuck.
Arguments Ok {A} a.
Arguments Throw {A} e.
Arguments Stuck {A}.

Definition bind {A B : Type} (m : Res A) (k : A → Res B) : Res B :=
  match m with
  | Ok a => k a
  | Throw e => Throw e
  | Stuck => Stuck
  end.

Notation "'let*' x := m 'in' k" := (bind m (fun x => k))
  (at level 10, x pattern, m at level 100, k at level 200).

(** ** Data model *)

(** The interval interface: [id], [start], [end]. *)
Record Event : Type := mkEvent { id : Z; start : Z; end_ : Z }.

(** [this.duration = this.end - this.start], fixed at construction. *)
Definition duration (e : Event) : Z := end_ e - start e.

#[global] Instance Event_eq_dec : EqDecision Event.
Proof. solve_decision. Defined.

(** [Node.BLACK = false], [Node.RED = true]. *)
Inductive Color : Type := RED | BLACK.

(** [Node.LEFT = 0], [Node.RIGHT = 1]. *)
Inductive Direction : Type := LEFT | RIGHT.

#[global] Instance Color_eq_dec : EqDecision Color.
Proof. solve_decision. Defined.
#[global] Instance Direction_eq_dec : EqDecision Direction.
Proof. solve_decision. Defined.

Abbreviation ref := nat.

(** [FB.data.Node]: [_max] is [null] until [setMax] is called. *)
Record Node : Type := mkNode {
  data : Event;
  _left : option ref;
  _right : option ref;
  _parent : option ref;
  _max : option Z;
  _color : Color
}.

(** [new Node(data)] *)
Definition newNode (d : Event) : Node := mkNode d None None None None RED.

Abbreviation Heap := (list Node).

(** [FB.data.Tree] together with the arena of its nodes. *)
Record Tree : Type := mkTree {
  heap : Heap;
  _root : option ref;
  _comparator : Event → Event → Direction;
  _size : nat
}.

(** [new Tree(comparator)] *)
Definition newTree (comparator : Event → Event → Direction) : Tree :=
  mkTree [] None comparator 0.

(** The value a call expression evaluates to: [undefined] or a node. *)
Inductive Value : Type :=
  | VUndefined
  | VNode (p : ref).

(** ** Node *)

(** Dereference for a method call: [null.m()] is a [TypeError]. *)
Definition getNode (h : Heap) (o : option ref) : Res Node :=
  match o with
  | None => Throw TypeError
  | Some p => match h !! p with Some n => Ok n | None => Stuck end
  end.

Definition isRed (n : Node) : bool := bool_decide (_color n = RED).
Definition isBlack (n : Node) : bool := bool_decide (_color n = BLACK).

Definition withColor (c : Color) (n : Node) : Node :=
  mkNode (data n) (_left n) (_right n) (_parent n) (_max n) c.
Definition withParent (q : option ref) (n : Node) : Node :=
  mkNode (data n) (_left n) (_right n) q (_max n) (_color n).
Definition withMax (m : Z) (n : Node) : Node :=
  mkNode (data n) (_left n) (_right n) (_parent n) (Some m) (_color n).
Definition withChild (q : option ref) (dir : Direction) (n : Node) : Node :=
  match dir with
  | RIGHT => mkNode (data n) (_left n) q (_parent n) (_max n) (_color n)
  | LEFT => mkNode (data n) q (_right n) (_parent n) (_max n) (_color n)
  end.

(** A setter called on the object [o]. *)
Definition update (h : Heap) (o : option ref) (f : Node → Node) : Res Heap :=
  match o with
  | None => Throw TypeError
  | Some p => match h !! p with Some _ => Ok (alter f p h) | None => Stuck end
  end.

Definition setColor (h : Heap) (o : option ref) (c : Color) : Res Heap :=
  update h o (withColor c).
Definition setParent (h : Heap) (o : option ref) (q : option ref) : Res Heap :=
  update h o (withParent q).
Definition setMax (h : Heap) (o : option ref) (m : Z) : Res Heap :=
  update h o (withMax m).
Definition setChild (h : Heap) (o : option ref) (q : option ref) (dir : Direction) : Res Heap :=
  update h o (withChild q dir).

Definition getParent (h : Heap) (o : option ref) : Res (option ref) :=
  let* n := getNode h o in Ok (_parent n).

(** [direction ? this._right : this._left] *)
Definition getChild (n : Node) (dir : Direction) : option ref :=
  match dir with RIGHT => _right n | LEFT => _left n end.

Definition getGrandfather (h : Heap) (o : option ref) : Res (option ref) :=
  let* p := getParent h o in
  match p with
  | Some _ => getParent h p
  | None => Ok None
  end.

(** [ToNumber] of a cached maximum: [null] counts as [0] in [Math.max] and
    in [>=]. *)
Definition toNumber (m : option Z) : Z := default 0 m.

(** ** Tree *)

Definition opposite (dir : Direction) : Direction :=
  match dir with LEFT => RIGHT | RIGHT => LEFT end.

(** [c != null ? c.getMax() : 0] *)
Definition maxOrZero (h : Heap) (c : option ref) : Res Z :=
  match c with
  | Some _ => let* n := getNode h c in Ok (toNumber (_max n))
  | None => Ok 0
  end.

(** [Tree.prototype._getMax] *)
Definition _getMax (h : Heap) (node : option ref) : Res Z :=
  let* n := getNode h node in
  let left := getChild n LEFT in
  let right := getChild n RIGHT in
  let* lm := maxOrZero h left in
  let* rm := maxOrZero h right in
  Ok (Z.max (end_ (data n)) (Z.max lm rm)).

(** [Tree.prototype._rotate] *)
Definition _rotate (t : Tree) (node : option ref) (direction : Direction) : Res Tree :=
  let h := heap t in
  let otherDirection := match direction with RIGHT => LEFT | LEFT => RIGHT end in
  let* n := getNode h node in
  let child := getChild n otherDirection in
  match child with
  | None => Throw (Error "Child is null")
  | Some _ =>
    let* cn := getNode h child in
    let* h := setChild h node (getChild cn direction) otherDirection in
    let* cn := getNode h child in
    let* h := match getChild cn direction with
              | Some _ => setParent h (getChild cn direction) node
              | None => Ok h
              end in
    let* n := getNode h node in
    let* h := setParent h child (_parent n) in
    let* n := getNode h node in
    let* hr :=
      match _parent n with
      | None => Ok (h, child)
      | Some _ =>
        let* pn := getNode h (_parent n) in
        if decide (node = getChild pn direction)
        then let* h := setChild h (_parent n) child direction in Ok (h, _root t)
        else let* h := setChild h (_parent n) child otherDirection in Ok (h, _root t)
      end in
    let '(h, root) := hr in
    let* h := setChild h child node direction in
    let* h := setParent h node child in
    let* m := _getMax h child in
    let* h := setMax h child m in
    let* m := _getMax h node in
    let* h := setMax h node m in
    Ok (mkTree h root (_comparator t) (_size t))
  end.

Definition _leftRotate (t : Tree) (node : option ref) : Res Tree := _rotate t node LEFT.
Definition _rightRotate (t : Tree) (node : option ref) : Res Tree := _rotate t node RIGHT.

(** The descent loop of [_insertNode]: returns the last visited node. *)
Fixpoint descend (fuel : nat) (t : Tree) (d : Event) (parent node : option ref)
  : Res (option ref) :=
  match node with
  | None => Ok parent
  | Some _ =>
    match fuel with
    | O => Stuck
    | S fuel =>
      let* n := getNode (heap t) node in
      descend fuel t d node (getChild n (_comparator t d (data n)))
    end
  end.

(** [Tree.prototype._insertNode]: the new node is allocated at the end of
    the arena. *)
Definition _insertNode (fuel : nat) (t : Tree) (d : Event) : Res (Tree * option ref) :=
  let newRef : option ref := Some (length (heap t)) in
  let h := heap t ++ [newNode d] in
  let* parent := descend fuel t d None (_root t) in
  let* h := setParent h newRef parent in
  let* hr :=
    match parent with
    | None => Ok (h, newRef)
    | Some _ =>
      let* pn := getNode h parent in
      let* h := setChild h parent newRef (_comparator t d (data pn)) in
      Ok (h, _root t)
    end in
  let '(h, root) := hr in
  Ok (mkTree h root (_comparator t) (S (_size t)), newRef).

Definition setHeap (t : Tree) (h : Heap) : Tree :=
  mkTree h (_root t) (_comparator t) (_size t).

(** [Tree.prototype._checkViolation] *)
Definition _checkViolation (t : Tree) (node : option ref) (direction : Direction)
  : Res (Tree * option ref) :=
  let h := heap t in
  let* gf := getGrandfather h node in
  let* gfn := getNode h gf in
  let uncle := getChild gfn direction in
  let* uncleRed := match uncle with
                   | Some _ => let* un := getNode h uncle in Ok (isRed un)
                   | None => Ok false
                   end in
  if uncleRed then
    let* p := getParent h node in
    let* h := setColor h p BLACK in
    let* h := setColor h uncle BLACK in
    let* gf := getGrandfather h node in
    let* h := setColor h gf RED in
    let* gf := getGrandfather h node in
    Ok (setHeap t h, gf)
  else
    let* p := getParent h node in
    let* pn := getNode h p in
    let* tn :=
      if decide (node = getChild pn direction) then
        let* node := getParent h node in
        let* t := match direction with
                  | RIGHT => _leftRotate t node
                  | LEFT => _rightRotate t node
                  end in
        Ok (t, node)
      else Ok (t, node) in
    let '(t, node) := tn in
    let* p := getParent (heap t) node in
    let* h := setColor (heap t) p BLACK in
    let* gf := getGrandfather h node in
    let* h := setColor h gf RED in
    let t := setHeap t h in
    let* gf := getGrandfather h node in
    let* t := match direction with
              | RIGHT => _rightRotate t gf
              | LEFT => _leftRotate t gf
              end in
    Ok (t, node).

(** The fix-up loop of [insert]. *)
Fixpoint fixup (fuel : nat) (t : Tree) (node : option ref) : Res Tree :=
  match fuel with
  | O => Stuck
  | S fuel =>
    if decide (node = _root t) then Ok t
    else
      let* p := getParent (heap t) node in
      let* pn := getNode (heap t) p in
      if isRed pn then
        let* gf := getGrandfather (heap t) node in
        let* gfn := getNode (heap t) gf in
        let direction :=
          if decide (p = getChild gfn LEFT) then RIGHT else LEFT in
        let* tn := _checkViolation t node direction in
        fixup fuel (fst tn) (snd tn)
      else Ok t
  end.

(** [Tree.prototype.insert] with explicit fuel.  The function has no
    [return] statement: a call evaluates to [undefined]. *)
Definition insert_fuel (fuel : nat) (t : Tree) (d : Event) : Res (Tree * Value) :=
  let* tn := _insertNode fuel t d in
  let '(t, node) := tn in
  let* m := _getMax (heap t) node in
  let* h := setMax (heap t) node m in
  let* t := fixup fuel (setHeap t h) node in
  let* h := setColor (heap t) (_root t) BLACK in
  Ok (setHeap t h, VUndefined).

(** Every loop on a well-formed tree ends within this many rounds. *)
Definition fuel_of (t : Tree) : nat := S (S (length (heap t))).

Definition insert (t : Tree) (d : Event) : Res (Tree * Value) :=
  insert_fuel (fuel_of t) t d.

(** [Tree.prototype.getSize] *)
Definition getSize (t : Tree) : nat := _size t.

(** [Tree.prototype.minimum]: [node = node || this._root], then follow the
    left children. *)
Fixpoint leftmost (fuel : nat) (h : Heap) (node : option ref) : Res (option ref) :=
  match fuel with
  | O => Stuck
  | S fuel =>
    let* n := getNode h node in
    match getChild n LEFT with
    | Some _ => leftmost fuel h (getChild n LEFT)
    | None => Ok node
    end
  end.

Definition orElse (node root : option ref) : option ref :=
  match node with Some _ => node | None => root end.

Definition minimum (t : Tree) (node : option ref) : Res (option ref) :=
  leftmost (fuel_of t) (heap t) (orElse node (_root t)).

(** [Tree.prototype.maximum] *)
Fixpoint rightmost (fuel : nat) (h : Heap) (node : option ref) : Res (option ref) :=
  match fuel with
  | O => Stuck
  | S fuel =>
    let* n := getNode h node in
    match getChild n RIGHT with
    | Some _ => rightmost fuel h (getChild n RIGHT)
    | None => Ok node
    end
  end.

Definition maximum (t : Tree) (node : option ref) : Res (option ref) :=
  rightmost (fuel_of t) (heap t) (orElse node (_root t)).

(** The loop of [successor] ([dir = RIGHT]) and of [predecessor]
    ([dir = LEFT]): climb while [node] is the [dir] child of [parent]. *)
Fixpoint climb (fuel : nat) (h : Heap) (dir : Direction) (node parent : option ref)
  : Res (option ref) :=
  match parent with
  | None => Ok parent
  | Some _ =>
    match fuel with
    | O => Stuck
    | S fuel =>
      let* pn := getNode h parent in
      if decide (node = getChild pn dir)
      then climb fuel h dir parent (_parent pn)
      else Ok parent
    end
  end.

(** [Tree.prototype.successor] *)
Definition successor (t : Tree) (node : option ref) : Res (option ref) :=
  let* n := getNode (heap t) node in
  match getChild n RIGHT with
  | Some _ => minimum t (getChild n RIGHT)
  | None => climb (fuel_of t) (heap t) RIGHT node (_parent n)
  end.

(** [Tree.prototype.predecessor] *)
Definition predecessor (t : Tree) (node : option ref) : Res (option ref) :=
  let* n := getNode (heap t) node in
  match getChild n LEFT with
  | Some _ => maximum t (getChild n LEFT)
  | None => climb (fuel_of t) (heap t) LEFT node (_parent n)
  end.

(** The [while (node != null)] loop shared by the three traversals: [next]
    is [successor] or [predecessor], [get] what is pushed. *)
Fixpoint walk {A : Type} (fuel : nat) (t : Tree)
    (next : Tree → option ref → Res (option ref)) (get : ref → Node → A)
    (node : option ref) (acc : list A) : Res (list A) :=
  match node with
  | None => Ok acc
  | Some p =>
    match fuel with
    | O => Stuck
    | S fuel =>
      let* n := getNode (heap t) node in
      let acc := acc ++ [get p n] in
      let* node := next t node in
      walk fuel t next get node acc
    end
  end.

(** [Tree.prototype.getOrderedData]: the argument is overwritten by
    [this.minimum()]. *)
Definition getOrderedData (t : Tree) (node : option ref) : Res (list Event) :=
  let node := orElse node (_root t) in
  let* node := minimum t None in
  walk (fuel_of t) t successor (fun _ n => data n) node [].

(** [Tree.prototype.getOrdered] *)
Definition getOrdered (t : Tree) (node : option ref) : Res (list ref) :=
  let node := orElse node (_root t) in
  let* node := minimum t None in
  walk (fuel_of t) t successor (fun p _ => p) node [].

(** [Tree.prototype.getReverseOrderedData] *)
Definition getReverseOrderedData (t : Tree) (node : option ref) : Res (list Event) :=
  let node := orElse node (_root t) in
  let* node := maximum t None in
  walk (fuel_of t) t predecessor (fun _ n => data n) node [].

(** [Event.comparator] *)
Definition comparator (event1 event2 : Event) : Direction :=
  if decide (start event1 < start event2) then LEFT else RIGHT.

(** [Event.isColliding] *)
Definition isColliding (event1 event2 : Event) : bool :=
  if (start event1 <=? end_ event2) && (end_ event1 >=? start event2)
  then true else false.

(** [Tree.prototype.searchInterval].  [result] is assigned without [var]:
    it is one global variable shared by all activations, threaded here as
    the second component of the outcome.  In [result.concat(rec(...))] the
    receiver is read before the recursive call resets the global, and the
    assignment then overwrites whatever the call left there. *)
Fixpoint searchInterval_fuel (fuel : nat) (t : Tree) (interval : Event)
    (node : option ref) : Res (list Event * list Event) :=
  match fuel with
  | O => Stuck
  | S fuel =>
    let node := orElse node (_root t) in
    let result : list Event := [] in
    let* n := getNode (heap t) node in
    let left := getChild n LEFT in
    let* goLeft := match left with
                   | Some _ =>
                     let* l := getNode (heap t) left in
                     Ok (bool_decide (toNumber (_max l) >= start interval))
                   | None => Ok false
                   end in
    let* result :=
      if goLeft then
        let receiver := result in
        let* r := searchInterval_fuel fuel t interval left in
        Ok (receiver ++ fst r)
      else Ok result in
    let result :=
      if isColliding (data n) interval then result ++ [data n] else result in
    let right := getChild n RIGHT in
    let* result :=
      match right with
      | Some _ =>
        if bool_decide (start (data n) <= end_ interval) then
          let receiver := result in
          let* r := searchInterval_fuel fuel t interval right in
          Ok (receiver ++ fst r)
        else Ok result
      | None => Ok result
      end in
    Ok (result, result)
  end.

Definition searchInterval (t : Tree) (interval : Event) (node : option ref)
  : Res (list Event) :=
  let* r := searchInterval_fuel (fuel_of t) t interval node in
  Ok (fst r).

(** [Tree.prototype.getBlackHeight] *)
Fixpoint blackHeight_loop (fuel : nat) (h : Heap) (node : option ref) (height : nat)
  : Res nat :=
  match node with
  | None => Ok height
  | Some _ =>
    match fuel with
    | O => Stuck
    | S fuel =>
      let* n := getNode h node in
      let node := getChild n LEFT in
      let* black := match node with
                    | None => Ok true
                    | Some _ => let* c := getNode h node in Ok (isBlack c)
                    end in
      blackHeight_loop fuel h node (if black then S height else height)
    end
  end.

Definition getBlackHeight (t : Tree) (node : option ref) : Res nat :=
  blackHeight_loop (fuel_of t) (heap t) (orElse node (_root t)) 0.

(** Inserting a list of intervals one after the other, as the callers do. *)
Fixpoint insertAll (t : Tree) (events : list Event) : Res Tree :=
  match events with
  | [] => Ok t
  | e :: events =>
    let* r := insert t e in
    insertAll (fst r) events
  end.

(** ** Calendar and Event *)

(** [Element.getInset]: border and padding of an event element, read from
    the page once. *)
Record Inset : Type := mkInset {
  borderLeft : Z; borderRight : Z; borderTop : Z; borderBottom : Z;
  paddingLeft : Z; paddingRight : Z; paddingTop : Z; paddingBottom : Z
}.

(** What the page supplies: [Browser.BORDER_BOX] and the element inset. *)
Record Env : Type := mkEnv { BORDER_BOX : bool; elementInset : Inset }.

(** JavaScript numbers are IEEE 754 binary64 values.  The times of the
    events, the options and the inset are integers and are kept in [Z];
    where [_renderEvents] divides and [Event.prototype.render] multiplies,
    adds and subtracts, the operands are converted and the operation is the
    one of the doubles, rounding to nearest, ties to even. *)
Definition Number : Type := spec_float.

#[global] Instance Number_eq_dec : EqDecision Number.
Proof. solve_decision. Defined.

Definition Number_of_Z (z : Z) : Number := binary_normalize 53 1024 z 0 false.
Definition Ndiv (x y : Number) : Number := SFdiv 53 1024 x y.
Definition Nmul (x y : Number) : Number := SFmul 53 1024 x y.
Definition Nadd (x y : Number) : Number := SFadd 53 1024 x y.
Definition Nsub (x y : Number) : Number := SFsub 53 1024 x y.

(** [Event.prototype._getElementWidth] *)
Definition _getElementWidth (env : Env) (width : Number) : Number :=
  if BORDER_BOX env then width
  else
    let inset := elementInset env in
    let width := Nsub width (Number_of_Z (borderLeft inset + borderRight inset)) in
    Nsub width (Number_of_Z (paddingLeft inset + paddingRight inset)).

(** [Event.prototype._getElementHeight] *)
Definition _getElementHeight (env : Env) (height : Z) : Z :=
  if BORDER_BOX env then height
  else
    let inset := elementInset env in
    let height := height - (borderTop inset + borderBottom inset) in
    height - (paddingTop inset + paddingBottom inset).

(** One call [event.render(width, level)]: the receiver, the two arguments,
    and the values it assigns to [this.top], [this.left], [this.width],
    [this.height], which are also the numbers in the returned markup.  The
    layout never reads these four fields back. *)
Record Rendered : Type := mkRendered {
  r_event : Event;
  r_columnWidth : Number;
  r_level : nat;
  r_top : Z;
  r_left : Number;
  r_width : Number;
  r_height : Z
}.

(** [Event.prototype.render] *)
Definition render_event (env : Env) (this : Event) (width : Number) (level : nat)
  : Rendered :=
  let w := _getElementWidth env width in
  let h := _getElementHeight env (duration this) in
  let l := Nadd (Nmul (Number_of_Z (Z.of_nat level)) width) (Number_of_Z 10) in
  let t := start this in
  mkRendered this width level t l w h.

(** A bin of [_addToBin]: [{max, events}]. *)
Record Bin : Type := mkBin { bin_max : Z; bin_events : list Event }.

(** [FB.ui.calendar.Calendar], without its DOM elements other than the
    content of the events container; [options_width] is
    [this._options.width]. *)
Record Calendar : Type := mkCalendar {
  _events : option (list Event);
  _renderedEvents : gset Z;
  _tree : option Tree;
  options_width : Z;
  innerHTML : list Rendered
}.

(** A method of the calendar: the calendar after the call, and the value or
    the exception the call ends with. *)
Definition Method (A : Type) : Type := Calendar * Res A.

Definition set_tree (c : Calendar) (t : Tree) : Calendar :=
  mkCalendar (_events c) (_renderedEvents c) (Some t) (options_width c) (innerHTML c).
Definition set_events (c : Calendar) (events : list Event) : Calendar :=
  mkCalendar (Some events) (_renderedEvents c) (_tree c) (options_width c) (innerHTML c).
Definition set_innerHTML (c : Calendar) (html : list Rendered) : Calendar :=
  mkCalendar (_events c) (_renderedEvents c) (_tree c) (options_width c) html.

(** [Calendar.prototype.setEvents]; [new Event(events[i])] keeps [id],
    [start], [end].  Were an insert to fail, the calendar is returned as it
    was (no insert fails, see [insert_ok]). *)
Definition setEvents (c : Calendar) (events : list Event) : Method (list Event) :=
  match insertAll (newTree comparator) events with
  | Ok tree =>
    let c := set_tree c tree in
    match getOrderedData tree None with
    | Ok ordered => (set_events c ordered, Ok ordered)
    | Throw e => (c, Throw e)
    | Stuck => (c, Stuck)
    end
  | Throw e => (c, Throw e)
  | Stuck => (c, Stuck)
  end.

(** [Calendar.prototype.clear] *)
Definition clear (c : Calendar) : Calendar :=
  mkCalendar (_events c) ∅ (_tree c) (options_width c) [].

(** [Calendar.prototype.isRendered] *)
Definition isRendered (c : Calendar) (event : Event) : bool :=
  bool_decide (id event ∈ _renderedEvents c).

(** [Calendar.prototype._setIsRendered] *)
Definition _setIsRendered (c : Calendar) (event : Event) : Calendar :=
  mkCalendar (_events c) ({[ id event ]} ∪ _renderedEvents c) (_tree c)
             (options_width c) (innerHTML c).

(** [Calendar.prototype.getCollisions] *)
Definition getCollisions (c : Calendar) (event : Event) : Res (list Event) :=
  match _tree c with
  | None => Throw TypeError
  | Some tree => searchInterval tree event None
  end.

(** [Calendar.prototype._addToBin]: first bin whose [max] the event's start
    has reached, else a new bin at the end. *)
Fixpoint _addToBin (event : Event) (bins : list Bin) : list Bin :=
  match bins with
  | [] => [mkBin (end_ event) [event]]
  | bin :: bins =>
    if bool_decide (start event >= bin_max bin)
    then mkBin (end_ event) (bin_events bin ++ [event]) :: bins
    else bin :: _addToBin event bins
  end.

(** The inner loop of [_renderEvents] over the events of one bin. *)
Definition render_bin (env : Env) (totalWidth : Z) (count level : nat) (bin : Bin)
  : list Rendered :=
  map (fun e => render_event env e
                 (Ndiv (Number_of_Z totalWidth) (Number_of_Z (Z.of_nat count))) level)
      (bin_events bin).

(** [Calendar.prototype._renderEvents] *)
Definition _renderEvents (env : Env) (totalWidth : Z) (bins : list Bin) : list Rendered :=
  concat (imap (fun level bin => render_bin env totalWidth (length bins) level bin) bins).

(** The [for] loop of [_render]; [rec] is the recursive call.  [binsByRef]
    is an array shared with the caller: its content after the loop is
    returned with the markup.  Without it every round starts from a new
    empty array.  ([collisions] is an array, so [if (collisions)] holds.) *)
Fixpoint _render_loop
    (rec : Calendar → list Event → option (list Bin)
           → Method (list Rendered * option (list Bin)))
    (env : Env) (events : list Event) (html : list Rendered)
    (binsByRef : option (list Bin)) (c : Calendar) {struct events}
  : Method (list Rendered * option (list Bin)) :=
  match events with
  | [] => (c, Ok (html, binsByRef))
  | event :: events =>
    let bins := default [] binsByRef in
    if negb (isRendered c event) then
      let c := _setIsRendered c event in
      let bins := _addToBin event bins in
      match getCollisions c event with
      | Ok collisions =>
        match rec c collisions (Some bins) with
        | (c, Ok (html', bins')) =>
          let bins := default bins bins' in
          let html := html ++ html' in
          let html := html ++ _renderEvents env (options_width c) bins in
          _render_loop rec env events html
            (match binsByRef with Some _ => Some bins | None => None end) c
        | (c, Throw e) => (c, Throw e)
        | (c, Stuck) => (c, Stuck)
        end
      | Throw e => (c, Throw e)
      | Stuck => (c, Stuck)
      end
    else _render_loop rec env events html binsByRef c
  end.

(** [Calendar.prototype._render] *)
Fixpoint _render (fuel : nat) (env : Env) (c : Calendar) (events : list Event)
    (binsByRef : option (list Bin)) : Method (list Rendered * option (list Bin)) :=
  match fuel with
  | O => (c, Stuck)
  | S fuel => _render_loop (_render fuel env) env events [] binsByRef c
  end.

(** [Calendar.prototype.render]: the nesting of [_render] is bounded by the
    number of events. *)
Definition render (env : Env) (c : Calendar) : Method unit :=
  match _events c with
  | None => (c, Throw (Error "No events set"))
  | Some events =>
    let c := clear c in
    match _render (S (length events)) env c events None with
    | (c, Ok (html, _)) => (set_innerHTML c html, Ok tt)
    | (c, Throw e) => (c, Throw e)
    | (c, Stuck) => (c, Stuck)
    end
  end.

(** [Calendar.prototype.layOutDay] *)
Definition layOutDay (env : Env) (c : Calendar) (events : list Event)
  : Method (list Event) :=
  match setEvents c events with
  | (c, Ok events) =>
    match render env c with
    | (c, Ok _) => (c, Ok events)
    | (c, Throw e) => (c, Throw e)
    | (c, Stuck) => (c, Stuck)
    end
  | (c, Throw e) => (c, Throw e)
  | (c, Stuck) => (c, Stuck)
  end.

(** ** Time, options and timeline *)

(** The object [Time.format] returns: [{hours, suffix}]. *)
Record TimeLabel : Type := mkTimeLabel { hours : Z; suffix : string }.

(** [Time.format], on whole hours. *)
Definition Time_format (hours : Z) : TimeLabel :=
  let suffix := "AM"%string in
  let '(suffix, hours) :=
    if bool_decide (hours >= 12) then ("PM"%string, hours - 12) else (suffix, hours) in
  let hours := if bool_decide (hours = 0) then 12 else hours in
  mkTimeLabel hours suffix.

(** An option value: the defaults are strings and numbers. *)
Inductive OptValue : Type :=
  | OStr (s : string)
  | ONum (n : Z).

(** An options object: its own properties. *)
Abbreviation Options := (gmap string OptValue).

(** [Calendar.getDefaultOptions] *)
Definition getDefaultOptions : Options :=
  <["timelineCssClass"%string := OStr "timeline"]>
  (<["eventsCssClass"%string := OStr "events"]>
  (<["height"%string := ONum 720]>
  (<["width"%string := ONum 600]>
  (<["from"%string := ONum 9]>
  (<["to"%string := ONum 21]> ∅))))).

(** [Calendar.mergeOptions]: [options != null] fails for [null] and
    [undefined], here [None]; the [for ... in] loop assigns every property
    of [options]. *)
Definition mergeOptions (options : option Options) : Options :=
  let mergedOptions := getDefaultOptions in
  match options with
  | Some options =>
    map_fold (fun key value mergedOptions => <[key := value]> mergedOptions)
             mergedOptions options
  | None => mergedOptions
  end.

(** A number as [Math.floor(a / b)] yields it for integers [a], [b]. *)
Inductive JsNum : Type :=
  | Num (z : Z)
  | PosInfinity
  | NegInfinity
  | NaN.

(** [Math.floor(a / b)]: division by zero gives an infinity, or [NaN] for
    [0 / 0]. *)
Definition floor_div (a b : Z) : JsNum :=
  if bool_decide (b = 0) then
    if bool_decide (a = 0) then NaN
    else if bool_decide (0 < a) then PosInfinity else NegInfinity
  else Num (a / b).

(** One [div] of the timeline: the row of a full hour, with the hour and
    [AM] or [PM], or the row of the half hour after it. *)
Inductive TimelineRow : Type :=
  | HourRow (height : JsNum) (time : TimeLabel)
  | HalfRow (height : JsNum) (hours : Z).

(** [Calendar.prototype._drawTimeline], as a function of
    [this._options.height], [from] and [to] (whole numbers); the result is
    what it assigns to the [innerHTML] of the timeline element. *)
Definition _drawTimeline (height from to : Z) : list TimelineRow :=
  let range := (to - from) * 2 in
  let height := floor_div height range in
  concat (map (fun i =>
                 let time := Time_format i in
                 HourRow height time
                 :: (if bool_decide (i < to) then [HalfRow height (hours time)] else []))
              (seqZ from (to - from + 1))).

(** ** The tree an arena represents *)

(** A binary tree whose nodes carry their handle, colour, interval and
    cached maximum: what the [_left] / [_right] links of an arena spell
    out. *)
Inductive tree : Type :=
  | Leaf
  | Br (p : ref) (c : Color) (l : tree) (d : Event) (m : option Z) (r : tree).

Definition ptr (t : tree) : option ref :=
  match t with Leaf => None | Br p _ _ _ _ _ => Some p end.

Definition color_of (t : tree) : Color :=
  match t with Leaf => BLACK | Br _ c _ _ _ _ => c end.

(** Cached maximum as [_getMax] reads it from a child. *)
Definition tmax (t : tree) : Z :=
  match t with Leaf => 0 | Br _ _ _ _ m _ => toNumber m end.

(** Handles and intervals in left-node-right order. *)
Fixpoint addrs (t : tree) : list ref :=
  match t with
  | Leaf => []
  | Br p _ l _ _ r => addrs l ++ p :: addrs r
  end.

Fixpoint elems (t : tree) : list Event :=
  match t with
  | Leaf => []
  | Br _ _ l d _ r => elems l ++ d :: elems r
  end.

Fixpoint height (t : tree) : nat :=
  match t with
  | Leaf => O
  | Br _ _ l _ _ r => S (Nat.max (height l) (height r))
  end.

(** [repr h par t]: the arena [h] holds the nodes of [t], linked as [t]
    says, the root of [t] having parent [par]. *)
Fixpoint repr (h : Heap) (par : option ref) (t : tree) : Prop :=
  match t with
  | Leaf => True
  | Br p c l d m r =>
    h !! p = Some (mkNode d (ptr l) (ptr r) par m c)
    ∧ repr h (Some p) l ∧ repr h (Some p) r
  end.

(** One step of a path from a node up to the root: the node's parent, the
    side the node hangs on, and the sibling subtree. *)
Record frame : Type := mkFrame {
  f_dir : Direction;
  f_p : ref;
  f_c : Color;
  f_d : Event;
  f_m : option Z;
  f_sib : tree
}.

(** A node with [sub] on side [dir] and [sib] on the other side. *)
Definition mk (dir : Direction) (p : ref) (c : Color) (sub : tree) (d : Event)
    (m : option Z) (sib : tree) : tree :=
  match dir with
  | LEFT => Br p c sub d m sib
  | RIGHT => Br p c sib d m sub
  end.

Definition fill (f : frame) (t : tree) : tree :=
  mk (f_dir f) (f_p f) (f_c f) t (f_d f) (f_m f) (f_sib f).

(** A context is the list of frames from a position up to the root. *)
Fixpoint plug (k : list frame) (t : tree) : tree :=
  match k with
  | [] => t
  | f :: k => plug k (fill f t)
  end.

Definition kptr (k : list frame) : option ref :=
  match k with [] => None | f :: _ => Some (f_p f) end.

Fixpoint kaddrs (k : list frame) : list ref :=
  match k with
  | [] => []
  | f :: k => f_p f :: addrs (f_sib f) ++ kaddrs k
  end.

Definition frame_node (f : frame) (hole par : option ref) : Node :=
  match f_dir f with
  | LEFT => mkNode (f_d f) hole (ptr (f_sib f)) par (f_m f) (f_c f)
  | RIGHT => mkNode (f_d f) (ptr (f_sib f)) hole par (f_m f) (f_c f)
  end.

(** The arena holds the frames of [k] around a hole whose root is [hole]. *)
Fixpoint krepr (h : Heap) (k : list frame) (hole : option ref) : Prop :=
  match k with
  | [] => True
  | f :: k =>
    h !! f_p f = Some (frame_node f hole (kptr k))
    ∧ repr h (Some (f_p f)) (f_sib f)
    ∧ krepr h k (Some (f_p f))
  end.

(** The arena of [T] is exactly the tree [t]. *)
Record Rep (T : Tree) (t : tree) : Prop := mkRep {
  rep_heap : repr (heap T) None t;
  rep_root : _root T = ptr t;
  rep_addrs : addrs t ≡ₚ seq 0 (length (heap T))
}.

(** *** Red/black shape *)

(** [rbt n t]: no red node of [t] has a red child and every path from the
    root of [t] down to a missing child passes [n] black nodes. *)
Inductive rbt : nat → tree → Prop :=
  | rbt_leaf : rbt 0 Leaf
  | rbt_red p l d m r n :
      color_of l = BLACK → color_of r = BLACK → rbt n l → rbt n r →
      rbt n (Br p RED l d m r)
  | rbt_black p l d m r n :
      rbt n l → rbt n r → rbt (S n) (Br p BLACK l d m r).

(** [kok red n k]: the context [k] completes every [rbt n] subtree, one
    with a red root allowed when [red] holds, to a red/black tree with a
    black root. *)
Inductive kok : bool → nat → list frame → Prop :=
  | kok_nil n : kok false n []
  | kok_black b n f k :
      f_c f = BLACK → rbt n (f_sib f) → kok false (S n) k → kok b n (f :: k)
  | kok_red n f k :
      f_c f = RED → color_of (f_sib f) = BLACK → rbt n (f_sib f) →
      kok true n k → kok false n (f :: k).

Definition RB (t : tree) : Prop := color_of t = BLACK ∧ ∃ n, rbt n t.

(** *** The steps of [insert] on trees *)

(** What [_getMax] computes at a node with children [l] and [r]. *)
Definition getMax_tree (d : Event) (l r : tree) : Z :=
  Z.max (end_ d) (Z.max (tmax l) (tmax r)).

(** [_rotate]: the child opposite to the direction comes up; its cached
    maximum is recomputed first, from the old maximum of the node. *)
Definition rot (dir : Direction) (t : tree) : option tree :=
  match dir, t with
  | LEFT, Br px cx a dx mx (Br py cy b dy my g) =>
    let my' := Z.max (end_ dy) (Z.max (toNumber mx) (tmax g)) in
    let mx' := getMax_tree dx a b in
    Some (Br py cy (Br px cx a dx (Some mx') b) dy (Some my') g)
  | RIGHT, Br px cx (Br py cy g dy my b) dx mx a =>
    let my' := Z.max (end_ dy) (Z.max (tmax g) (toNumber mx)) in
    let mx' := getMax_tree dx b a in
    Some (Br py cy g dy (Some my') (Br px cx b dx (Some mx') a))
  | _, _ => None
  end.

(** The context the descent of [_insertNode] reaches. *)
Fixpoint path (cmp : Event → Event → Direction) (d : Event) (t : tree)
    (k : list frame) : list frame :=
  match t with
  | Leaf => k
  | Br p c l e m r =>
    match cmp d e with
    | LEFT => path cmp d l (mkFrame LEFT p c e m r :: k)
    | RIGHT => path cmp d r (mkFrame RIGHT p c e m l :: k)
    end
  end.

(** Binary-search-tree insertion of the subtree [new] at the position the
    comparator leads to. *)
Fixpoint ins_tree (cmp : Event → Event → Direction) (d : Event) (new t : tree) : tree :=
  match t with
  | Leaf => new
  | Br p c l e m r =>
    match cmp d e with
    | LEFT => Br p c (ins_tree cmp d new l) e m r
    | RIGHT => Br p c l e m (ins_tree cmp d new r)
    end
  end.

(** Stable insertion into a list sorted by [start]: before the first
    element that starts strictly later. *)
Fixpoint sinsert (d : Event) (l : list Event) : list Event :=
  match l with
  | [] => [d]
  | x :: l' => if decide (start d < start x) then d :: l else x :: sinsert d l'
  end.

Definition ssort (l : list Event) : list Event :=
  foldl (fun acc d => sinsert d acc) [] l.

Definition le_start (a b : Event) : Prop := start a ≤ start b.

(** [searchInterval] on trees. *)
Fixpoint search_tree (q : Event) (t : tree) : list Event :=
  match t with
  | Leaf => []
  | Br _ _ l d _ r =>
    (match l with
     | Leaf => []
     | _ => if bool_decide (tmax l >= start q) then search_tree q l else []
     end)
    ++ (if isColliding d q then [d] else [])
    ++ (match r with
        | Leaf => []
        | _ => if bool_decide (start d <= end_ q) then search_tree q r else []
        end)
  end.

(** Handle of the leftmost node. *)
Fixpoint leftmost_ptr (t : tree) : option ref :=
  match t with
  | Leaf => None
  | Br p _ l _ _ _ => match l with Leaf => Some p | _ => leftmost_ptr l end
  end.

(** The node that follows the hole of [k] in left-node-right order: the
    nearest ancestor the hole is to the left of. *)
Fixpoint knext (k : list frame) : option ref :=
  match k with
  | [] => None
  | f :: k => match f_dir f with LEFT => Some (f_p f) | RIGHT => knext k end
  end.

(** Repainting a node, a frame, and replacing the sibling of a frame. *)
Definition paint (c : Color) (t : tree) : tree :=
  match t with Leaf => Leaf | Br p _ l d m r => Br p c l d m r end.

Definition f_paint (c : Color) (f : frame) : frame :=
  mkFrame (f_dir f) (f_p f) c (f_d f) (f_m f) (f_sib f).

Definition f_setsib (s : tree) (f : frame) : frame :=
  mkFrame (f_dir f) (f_p f) (f_c f) (f_d f) (f_m f) s.

(** The same node seen from its other child. *)
Definition f_swap (f : frame) (t : tree) : frame :=
  mkFrame (opposite (f_dir f)) (f_p f) (f_c f) (f_d f) (f_m f) t.

Definition child (dir : Direction) (t : tree) : tree :=
  match t, dir with
  | Leaf, _ => Leaf
  | Br _ _ l _ _ _, LEFT => l
  | Br _ _ _ _ _ r, RIGHT => r
  end.

(** *** The invariants, read off the arena *)

(** Invariant 1: the root, if present, is black. *)
Definition root_black (T : Tree) : Prop :=
  ∀ r n, _root T = Some r → heap T !! r = Some n → _color n = BLACK.

(** Invariant 2: a red node has no red child. *)
Definition no_red_red (T : Tree) : Prop :=
  ∀ p n dir q c,
    heap T !! p = Some n → _color n = RED →
    getChild n dir = Some q → heap T !! q = Some c → _color c = BLACK.

(** [black_path h o b]: some path from [o] down to a missing child passes
    [b] black nodes. *)
Inductive black_path (h : Heap) : option ref → nat → Prop :=
  | bp_null : black_path h None 0
  | bp_node p n dir b :
      h !! p = Some n → black_path h (getChild n dir) b →
      black_path h (Some p) (if isBlack n then S b else b).

(** Invariant 3: all such paths from the root pass the same number. *)
Definition black_balanced (T : Tree) : Prop :=
  ∀ a b, black_path (heap T) (_root T) a → black_path (heap T) (_root T) b → a = b.

(** [descendant h p q]: [q] is in the subtree of [p]. *)
Inductive descendant (h : Heap) : ref → ref → Prop :=
  | desc_refl p : descendant h p p
  | desc_child p n dir q r :
      h !! p = Some n → getChild n dir = Some q → descendant h q r →
      descendant h p r.

(** Invariant 4: the cached maximum of every node is the largest [end] in
    its subtree. *)
Definition augmented (T : Tree) : Prop :=
  ∀ p n, heap T !! p = Some n →
    ∃ m, _max n = Some m
      ∧ (∀ q c, descendant (heap T) p q → heap T !! q = Some c → end_ (data c) ≤ m)
      ∧ (∃ q c, descendant (heap T) p q ∧ heap T !! q = Some c ∧ end_ (data c) = m).

(** All stored intervals that collide with [interval], by scanning. *)
Definition bruteForce (T : Tree) (interval : Event) : list Event :=
  filter (λ e, isColliding e interval = true) (map data (heap T)).

(** Well-formed interval: [0 <= start < end]. *)
Definition wf_event (e : Event) : Prop := 0 ≤ start e ∧ start e < end_ e.

(** *** Columns *)

(** [a] ends no later than [b] starts. *)
Definition before (a b : Event) : Prop := end_ a ≤ start b.

(** The events of a bin follow one another without overlap, and none ends
    after the bin's [max]. *)
Definition bin_ok (bin : Bin) : Prop :=
  StronglySorted before (bin_events bin)
  ∧ Forall (λ a, end_ a ≤ bin_max bin) (bin_events bin).




(** ** Definitions used in the proofs *)

(** [agree L h h']: [h'] comes from [h] by writes to the nodes of [L]. *)
Record agree (L : list ref) (h h' : Heap) : Prop := mkAgree {
  ag_len : length h' = length h;
  ag_out : ∀ q, q ∉ L → h' !! q = h !! q
}.

(** A new node: red, without children. *)
Definition leaf_node (p : ref) (d : Event) (m : option Z) : tree := Br p RED Leaf d m Leaf.

(** The part of [_checkViolation] after the optional first rotation. *)
Definition cv_tail (t : Tree) (node : option ref) (direction : Direction)
  : Res (Tree * option ref) :=
  let* p := getParent (heap t) node in
  let* h := setColor (heap t) p BLACK in
  let* gf := getGrandfather h node in
  let* h := setColor h gf RED in
  let t := setHeap t h in
  let* gf := getGrandfather h node in
  let* t := match direction with
            | RIGHT => _rightRotate t gf
            | LEFT => _leftRotate t gf
            end in
  Ok (t, node).

(** A red node over two black subtrees of black height [n]: what the
    repair loop carries upwards. *)
Definition redtop (n : nat) (z : tree) : Prop :=
  ∃ p l d m r, z = Br p RED l d m r
    ∧ color_of l = BLACK ∧ color_of r = BLACK ∧ rbt n l ∧ rbt n r.

(** Left-node-right listing of [f handle interval]. *)
Fixpoint tlist {A : Type} (f : ref → Event → A) (t : tree) : list A :=
  match t with
  | Leaf => []
  | Br p _ l d _ r => tlist f l ++ f p d :: tlist f r
  end.

(** What follows the hole of [k] in left-node-right order. *)
Fixpoint kafter {A : Type} (f : ref → Event → A) (k : list frame) : list A :=
  match k with
  | [] => []
  | fr :: k =>
    match f_dir fr with
    | LEFT => f (f_p fr) (f_d fr) :: tlist f (f_sib fr) ++ kafter f k
    | RIGHT => kafter f k
    end
  end.

(** What precedes the hole of [k], nearest first. *)
Fixpoint kbefore {A : Type} (f : ref → Event → A) (k : list frame) : list A :=
  match k with
  | [] => []
  | fr :: k =>
    match f_dir fr with
    | RIGHT => f (f_p fr) (f_d fr) :: rev (tlist f (f_sib fr)) ++ kbefore f k
    | LEFT => kbefore f k
    end
  end.

(** Position of the leftmost node of [t] when [t] sits in context [k]. *)
Fixpoint lm_ctx (t : tree) (k : list frame) : list frame * tree :=
  match t with
  | Leaf => (k, Leaf)
  | Br p c l d m r =>
    match l with
    | Leaf => (k, t)
    | _ => lm_ctx l (mkFrame LEFT p c d m r :: k)
    end
  end.

(** Position of the rightmost node. *)
Fixpoint rm_ctx (t : tree) (k : list frame) : list frame * tree :=
  match t with
  | Leaf => (k, Leaf)
  | Br p c l d m r =>
    match r with
    | Leaf => (k, t)
    | _ => rm_ctx r (mkFrame RIGHT p c d m l :: k)
    end
  end.

(** Handle of the rightmost node. *)
Fixpoint rightmost_ptr (t : tree) : option ref :=
  match t with
  | Leaf => None
  | Br p _ _ _ _ r => match r with Leaf => Some p | _ => rightmost_ptr r end
  end.

(** The node that precedes the hole of [k]: the nearest ancestor the hole
    is to the right of. *)
Fixpoint kprev (k : list frame) : option ref :=
  match k with
  | [] => None
  | f :: k => match f_dir f with RIGHT => Some (f_p f) | LEFT => kprev k end
  end.


(** Events of the tree not yet marked as rendered. *)
Definition unrendered (t : tree) (c : Calendar) : list Event :=
  filter (λ e, id e ∉ _renderedEvents c) (elems t).

(** What a round of [_render] keeps and what it may change. *)
Definition render_ok (T : Tree) (c c' : Calendar) : Prop :=
  _tree c' = Some T ∧ _renderedEvents c ⊆ _renderedEvents c'
  ∧ _events c' = _events c ∧ options_width c' = options_width c.

(** ** Sample inputs *)

(** A page with border-box sizing and no inset, a calendar 600 wide on which
    no events were set. *)
Definition env0 : Env := mkEnv true (mkInset 0 0 0 0 0 0 0 0).
Definition cal0 : Calendar := mkCalendar None ∅ None 600 [].

(** The event of the unit tests. *)
Definition event1 : Event := mkEvent 1 20 100.

(** The tree after [insert(event1)]. *)
Definition single_tree : Tree :=
  mkTree [mkNode event1 None None None (Some 100) BLACK] (Some 0%nat) comparator 1.

(** The second insertion goes below the first and leaves its [_max]. *)
Definition stale_events : list Event := [mkEvent 1 50 60; mkEvent 2 70 80].

(** Four insertions without a rotation; the last interval reaches 100 below
    a node whose [_max] stays 30. *)
Definition missed_events : list Event :=
  [mkEvent 1 50 60; mkEvent 2 20 30; mkEvent 3 70 80; mkEvent 4 25 100].
Definition missed_query : Event := mkEvent 0 90 95.

(** Two events that touch at 10. *)
Definition touching_events : list Event := [mkEvent 1 0 10; mkEvent 2 10 20].

(** Six events of which [12, 19] and [11, 18] end in column 0 of two
    different rounds. *)
Definition split_events : list Event :=
  [mkEvent 1 12 19; mkEvent 2 12 13; mkEvent 3 5 7;
   mkEvent 4 11 18; mkEvent 5 3 9; mkEvent 6 8 16].

(** The tree after the insertions of [missed_events]: the root is node 0,
    node 3 holds [25, 100] and has no children. *)
Definition missed_tree : Tree :=
  mkTree [mkNode (mkEvent 1 50 60) (Some 1%nat) (Some 2%nat) None (Some 60) BLACK;
          mkNode (mkEvent 2 20 30) None (Some 3%nat) (Some 0%nat) (Some 30) BLACK;
          mkNode (mkEvent 3 70 80) None None (Some 0%nat) (Some 80) BLACK;
          mkNode (mkEvent 4 25 100) None None (Some 1%nat) (Some 100) RED]
         (Some 0%nat) comparator 4.



(** ** Definitions for the further properties *)

(** [down_path h o n]: some path from [o] down to a missing child passes
    [n] nodes. *)
Inductive down_path (h : Heap) : option ref → nat → Prop :=
  | dp_null : down_path h None 0
  | dp_node p n dir len :
      h !! p = Some n → down_path h (getChild n dir) len →
      down_path h (Some p) (S len).

(** What the loop of [getBlackHeight] adds below the root of [t]: the black
    nodes on the left spine, the missing child at its end included. *)
Fixpoint left_blacks (t : tree) : nat :=
  match t with
  | Leaf => 0
  | Br _ _ l _ _ _ =>
    (match color_of l with BLACK => 1 | RED => 0 end + left_blacks l)%nat
  end.

(** Every interval of the subtree ends no later than the cached maximum
    says, at every node. *)
Fixpoint max_ub (t : tree) : Prop :=
  match t with
  | Leaf => True
  | Br p c l d m r =>
    Forall (λ e, end_ e ≤ toNumber m) (elems l ++ d :: elems r)
    ∧ max_ub l ∧ max_ub r
  end.

(** No interval of [t] ends after the maximum cached at its root. *)
Definition top_ub (t : tree) : Prop := Forall (λ e, end_ e ≤ tmax t) (elems t).

(** [top_ub] at every left child: the nodes whose cached maximum
    [searchInterval] reads. *)
Fixpoint lub (t : tree) : Prop :=
  match t with
  | Leaf => True
  | Br _ _ l _ _ r => top_ub l ∧ lub l ∧ lub r
  end.

(** The cached maximum is the largest [end] of the subtree, at every
    node: [augmented], read on the tree. *)
Fixpoint exact_max (t : tree) : Prop :=
  match t with
  | Leaf => True
  | Br p c l d m r =>
    (∃ mx, m = Some mx
       ∧ Forall (λ e, end_ e ≤ mx) (elems l ++ d :: elems r)
       ∧ Exists (λ e, end_ e = mx) (elems l ++ d :: elems r))
    ∧ exact_max l ∧ exact_max r
  end.

(** Five insertions in descending order of start, with two rotations;
    every cached maximum is exact. *)
Definition descending_events : list Event :=
  [mkEvent 1 50 60; mkEvent 2 40 50; mkEvent 3 30 40; mkEvent 4 20 30; mkEvent 5 10 20].

Definition descending_tree : Tree :=
  mkTree [mkNode (mkEvent 1 50 60) None None (Some 1%nat) (Some 60) BLACK;
          mkNode (mkEvent 2 40 50) (Some 3%nat) (Some 0%nat) None (Some 60) BLACK;
          mkNode (mkEvent 3 30 40) None None (Some 3%nat) (Some 40) RED;
          mkNode (mkEvent 4 20 30) (Some 4%nat) (Some 2%nat) (Some 1%nat) (Some 40) BLACK;
          mkNode (mkEvent 5 10 20) None None (Some 3%nat) (Some 20) RED]
         (Some 1%nat) comparator 5.

(** The events of all bins, column after column. *)
Definition bin_evs (bins : list Bin) : list Event :=
  concat (map bin_events bins).

(** What a run of [_render] on events of the tree marks and emits. *)
Definition cover_post (S : list Event) (c c' : Calendar) (evs : list Event)
    (bref : option (list Bin)) (html : list Rendered) (b' : option (list Bin)) : Prop :=
  _renderedEvents c ⊆ _renderedEvents c'
  ∧ (∀ e, e ∈ evs → id e ∈ _renderedEvents c')
  ∧ (∀ x, x ∈ _renderedEvents c' →
       x ∈ _renderedEvents c ∨ ∃ r, r ∈ html ∧ id (r_event r) = x)
  ∧ (∀ b b2, bref = Some b → b' = Some b2 → ∀ e, e ∈ bin_evs b → e ∈ bin_evs b2)
  ∧ (∀ r, r ∈ html → r_event r ∈ S)
  ∧ (∀ b2, b' = Some b2 → ∀ e, e ∈ bin_evs b2 → e ∈ S)
  ∧ _tree c' = _tree c.

(** A context along the right spine, with [lub] on what hangs to the left. *)
Definition spine (k : list frame) : Prop :=
  Forall (λ f, f_dir f = RIGHT ∧ top_ub (f_sib f) ∧ lub (f_sib f)) k.

(** The height a timeline row is drawn with. *)
Definition row_height (r : TimelineRow) : JsNum :=
  match r with HourRow h _ => h | HalfRow h _ => h end.

(** [e] is in column [lvl] of [bins]. *)
Definition placed (bins : list Bin) (e : Event) (lvl : nat) : Prop :=
  ∃ bin, bins !! lvl = Some bin ∧ e ∈ bin_events bin.

(** One of the two ends no later than the other starts. *)
Definition apart (a b : Event) : Prop := end_ a ≤ start b ∨ end_ b ≤ start a.

(** Elements of the same column show events that are apart. *)
Definition columns_apart (html : list Rendered) : Prop :=
  ∀ r1 r2, r1 ∈ html → r2 ∈ html → r_level r1 = r_level r2 →
           r_event r1 ≠ r_event r2 → apart (r_event r1) (r_event r2).

(** Every interval of [S] that collides with one marked in [X] is marked
    in [R]. *)
Definition closed_under (S : list Event) (R X : gset Z) : Prop :=
  ∀ x y, x ∈ S → id x ∈ X → y ∈ S → isColliding y x = true → id y ∈ R.

(** What a run of [_render] on an array of bins guarantees. *)
Definition inner_post (S : list Event) (c c' : Calendar) (evs : list Event)
    (b : list Bin) (html : list Rendered) (b' : option (list Bin)) : Prop :=
  _renderedEvents c ⊆ _renderedEvents c'
  ∧ (∀ e, e ∈ evs → id e ∈ _renderedEvents c')
  ∧ closed_under S (_renderedEvents c') (_renderedEvents c' ∖ _renderedEvents c)
  ∧ _tree c' = _tree c
  ∧ ∃ b2, b' = Some b2
      ∧ (∀ e lvl, placed b e lvl → placed b2 e lvl)
      ∧ (∀ r, r ∈ html → placed b2 (r_event r) (r_level r))
      ∧ (∀ e, e ∈ bin_evs b2 →
           e ∈ bin_evs b ∨ (id e ∈ _renderedEvents c' ∧ id e ∉ _renderedEvents c))
      ∧ (∀ e, e ∈ bin_evs b2 → e ∈ S)
      ∧ Forall bin_ok b2.

(** What holds between the rounds of the outer run. *)
Definition top_inv (S : list Event) (R : gset Z) (html : list Rendered) : Prop :=
  columns_apart html
  ∧ (∀ r, r ∈ html → r_event r ∈ S ∧ id (r_event r) ∈ R)
  ∧ closed_under S R R.

(** * Proofs *)

(** ** Arena and tree: basic facts *)

Lemma ptr_fill f t : ptr (fill f t) = Some (f_p f).
Proof. unfold fill, mk. by destruct (f_dir f). Qed.

Lemma addrs_fill f t : addrs (fill f t) ≡ₚ addrs t ++ f_p f :: addrs (f_sib f).
Proof.
  unfold fill, mk. destruct (f_dir f); simpl; [done|].
  rewrite (Permutation_app_comm (addrs (f_sib f))). simpl.
  by rewrite Permutation_middle.
Qed.

Lemma addrs_plug k t : addrs (plug k t) ≡ₚ addrs t ++ kaddrs k.
Proof.
  revert t. induction k as [|f k IH]; intros t; simpl.
  - by rewrite app_nil_r.
  - by rewrite IH, addrs_fill, <- app_assoc.
Qed.

Lemma elems_fill_length f t : length (addrs (fill f t)) = S (length (addrs t) + length (addrs (f_sib f)))%nat.
Proof. rewrite addrs_fill, length_app. simpl. lia. Qed.

Lemma ptr_plug_cons f k t t' : ptr (plug (f :: k) t) = ptr (plug (f :: k) t').
Proof.
  revert f t t'. induction k as [|g k IH]; intros f t t'.
  - simpl. by rewrite !ptr_fill.
  - change (plug (f :: g :: k) t) with (plug (g :: k) (fill f t)).
    change (plug (f :: g :: k) t') with (plug (g :: k) (fill f t')).
    apply IH.
Qed.

Lemma ptr_plug k t t' : ptr t = ptr t' → ptr (plug k t) = ptr (plug k t').
Proof. destruct k; [done|]. intros _. apply ptr_plug_cons. Qed.

Lemma repr_ext h h' par t :
  (∀ q, q ∈ addrs t → h' !! q = h !! q) → repr h par t → repr h' par t.
Proof.
  revert par. induction t as [|p c l IHl d m r IHr]; intros par Hag; simpl; [done|].
  intros (Hp & Hl & Hr). split_and!.
  - rewrite Hag; [done|]. simpl. set_solver.
  - apply IHl; [|done]. intros q Hq. apply Hag. simpl. set_solver.
  - apply IHr; [|done]. intros q Hq. apply Hag. simpl. set_solver.
Qed.

Lemma krepr_ext h h' k hole :
  (∀ q, q ∈ kaddrs k → h' !! q = h !! q) → krepr h k hole → krepr h' k hole.
Proof.
  revert hole. induction k as [|f k IH]; intros hole Hag; simpl; [done|].
  intros (Hp & Hs & Hk). split_and!.
  - rewrite Hag; [done|]. set_solver.
  - eapply repr_ext; [|done]. intros q Hq. apply Hag. set_solver.
  - apply IH; [|done]. intros q Hq. apply Hag. set_solver.
Qed.

Lemma repr_fill h par f t :
  repr h par (fill f t) ↔
  h !! f_p f = Some (frame_node f (ptr t) par)
  ∧ repr h (Some (f_p f)) (f_sib f) ∧ repr h (Some (f_p f)) t.
Proof. unfold fill, mk, frame_node. destruct (f_dir f); simpl; tauto. Qed.

Lemma repr_plug h k t :
  repr h None (plug k t) ↔ repr h (kptr k) t ∧ krepr h k (ptr t).
Proof.
  revert t. induction k as [|f k IH]; intros t; simpl; [tauto|].
  rewrite IH, repr_fill, ptr_fill. tauto.
Qed.

Lemma repr_lt h par t q : repr h par t → q ∈ addrs t → (q < length h)%nat.
Proof.
  revert par. induction t as [|p c l IHl d m r IHr]; intros par; simpl.
  - intros _ Hq. by apply elem_of_nil in Hq.
  - intros (Hp & Hl & Hr) Hq.
    apply elem_of_app in Hq as [Hq|Hq]; [by eapply IHl|].
    apply elem_of_cons in Hq as [->|Hq]; [|by eapply IHr].
    by eapply lookup_lt_Some.
Qed.

Lemma height_le_addrs t : (height t ≤ length (addrs t))%nat.
Proof.
  induction t as [|p c l IHl d m r IHr]; simpl; [lia|].
  rewrite length_app. simpl. lia.
Qed.

Lemma length_kaddrs k : (length k ≤ length (kaddrs k))%nat.
Proof.
  induction k as [|f k IH]; simpl; [lia|]. rewrite length_app. lia.
Qed.

Lemma elems_length t : length (elems t) = length (addrs t).
Proof.
  induction t as [|p c l IHl d m r IHr]; simpl; [done|].
  rewrite !length_app. simpl. lia.
Qed.

(** *** Reading and writing single nodes *)

Lemma lookup_alter_eq (h : Heap) f p n :
  h !! p = Some n → alter f p h !! p = Some (f n).
Proof. intros H. by rewrite list_lookup_alter_eq, H. Qed.

Lemma lookup_alter_neq (h : Heap) f p q :
  p ≠ q → alter f p h !! q = h !! q.
Proof. intros H. by apply list_lookup_alter_ne. Qed.

Lemma Rep_NoDup T t : Rep T t → NoDup (addrs t).
Proof. intros [_ _ H]. rewrite H. apply NoDup_seq. Qed.

Lemma Rep_length T t : Rep T t → length (addrs t) = length (heap T).
Proof. intros [_ _ H]. by rewrite H, length_seq. Qed.

Lemma Rep_plug_inv T k t :
  Rep T (plug k t) →
  repr (heap T) (kptr k) t ∧ krepr (heap T) k (ptr t) ∧ NoDup (addrs t ++ kaddrs k).
Proof.
  intros H. pose proof (Rep_NoDup _ _ H) as Hnd. destruct H as [Hh _ _].
  apply repr_plug in Hh as [? ?]. rewrite addrs_plug in Hnd. done.
Qed.

Lemma Rep_lookup T k p c l d m r :
  Rep T (plug k (Br p c l d m r)) →
  heap T !! p = Some (mkNode d (ptr l) (ptr r) (kptr k) m c).
Proof. intros H. apply Rep_plug_inv in H as (H & _ & _). apply H. Qed.

Lemma Rep_fuel_height T k t : Rep T (plug k t) → (height t + length k ≤ length (heap T))%nat.
Proof.
  intros H. apply Rep_length in H. rewrite addrs_plug, length_app in H.
  pose proof (height_le_addrs t). pose proof (length_kaddrs k). lia.
Qed.

(** Splitting a [NoDup] over appended and consed lists: every handle that
    occurs as a cons cell is stated to lie outside the rest. *)
Ltac in_list :=
  first [ apply list_elem_of_here
        | apply list_elem_of_further; in_list
        | apply elem_of_app; first [ left; in_list | right; in_list ] ].

Ltac inst_left H l :=
  lazymatch l with
  | ?a ++ ?b => inst_left H a; inst_left H b
  | ?x :: ?l' =>
    let Hx := fresh "Hni" in
    assert (Hx := H x ltac:(in_list)); inst_left H l'
  | _ => idtac
  end.

Ltac inst_right H l k :=
  lazymatch k with
  | ?a ++ ?b => inst_right H l a; inst_right H l b
  | ?x :: ?k' =>
    let Hx := fresh "Hni" in
    assert (Hx : x ∉ l) by
      (let Hm := fresh in intros Hm; apply (H x Hm); in_list);
    inst_right H l k'
  | _ => idtac
  end.

Ltac nodup_split H :=
  lazymatch type of H with
  | NoDup (?l ++ ?k) =>
    let H1 := fresh "Hnd" in let H2 := fresh "Hdj" in
    apply NoDup_app in H as (H1 & H2 & H);
    inst_left H2 l; inst_right H2 l k; clear H2;
    nodup_split H1; nodup_split H
  | NoDup (?x :: ?l) =>
    let H1 := fresh "Hni" in
    apply NoDup_cons in H as (H1 & H); nodup_split H
  | _ => clear H
  end.

Lemma Rep_intro T T' k X X' :
  Rep T (plug k X) →
  length (heap T') = length (heap T) →
  repr (heap T') (kptr k) X' →
  krepr (heap T') k (ptr X') →
  addrs X' ≡ₚ addrs X →
  _root T' = ptr (plug k X') →
  Rep T' (plug k X').
Proof.
  intros [_ _ Ha] Hlen Hr Hk Hp Hroot. split; [|done|].
  - apply repr_plug. done.
  - rewrite Hlen, <- Ha, !addrs_plug. by rewrite Hp.
Qed.

(** Changing colour or cached maximum of one node. *)
Lemma update_node T k p c l d m r f c' m' :
  Rep T (plug k (Br p c l d m r)) →
  (∀ a b par, f (mkNode d a b par m c) = mkNode d a b par m' c') →
  update (heap T) (Some p) f = Ok (alter f p (heap T))
  ∧ Rep (setHeap T (alter f p (heap T))) (plug k (Br p c' l d m' r)).
Proof.
  intros HR Hf. pose proof (Rep_lookup _ _ _ _ _ _ _ _ HR) as Hp.
  split; [unfold update; by rewrite Hp|].
  pose proof (Rep_plug_inv _ _ _ HR) as (Hr & Hk & Hnd).
  simpl in Hr. destruct Hr as (_ & Hl & Hrr). simpl in Hnd.
  nodup_split Hnd.
  eapply Rep_intro; [exact HR|..]; simpl.
  - by rewrite length_alter.
  - split_and!.
    + erewrite lookup_alter_eq by done. by rewrite Hf.
    + eapply repr_ext; [|done]. intros q Hq. apply lookup_alter_neq. set_solver.
    + eapply repr_ext; [|done]. intros q Hq. apply lookup_alter_neq. set_solver.
  - eapply krepr_ext; [|done]. intros q Hq. apply lookup_alter_neq. set_solver.
  - done.
  - destruct HR as [_ -> _]. by apply ptr_plug.
Qed.

Lemma setColor_node T k p c l d m r c' :
  Rep T (plug k (Br p c l d m r)) →
  setColor (heap T) (Some p) c' = Ok (alter (withColor c') p (heap T))
  ∧ Rep (setHeap T (alter (withColor c') p (heap T))) (plug k (Br p c' l d m r)).
Proof. intros H. by eapply update_node. Qed.

Lemma setMax_node T k p c l d m r m' :
  Rep T (plug k (Br p c l d m r)) →
  setMax (heap T) (Some p) m' = Ok (alter (withMax m') p (heap T))
  ∧ Rep (setHeap T (alter (withMax m') p (heap T))) (plug k (Br p c l d (Some m') r)).
Proof. intros H. by eapply update_node. Qed.

(** *** Running the code against known nodes *)

Ltac ssolve := solve [set_solver].

#[local] Arguments getNode : simpl never.
#[local] Arguments update : simpl never.
#[local] Arguments maxOrZero : simpl never.

Lemma getNode_Some h p n : h !! p = Some n → getNode h (Some p) = Ok n.
Proof. intros H. unfold getNode. by rewrite H. Qed.

Lemma update_Some h p n f : h !! p = Some n → update h (Some p) f = Ok (alter f p h).
Proof. intros H. unfold update. by rewrite H. Qed.

Lemma agree_refl L h : agree L h h.
Proof. by split. Qed.

Lemma agree_alter L h h' f p : p ∈ L → agree L h h' → agree L h (alter f p h').
Proof.
  intros Hp [Hl Ho]. split; [by rewrite length_alter|].
  intros q Hq. rewrite lookup_alter_neq; [by apply Ho|]. ssolve.
Qed.

Lemma lookup_alter_neq' (h : Heap) f p q n :
  p ≠ q → h !! q = Some n → alter f p h !! q = Some n.
Proof. intros H <-. by apply lookup_alter_neq. Qed.

Lemma repr_agree L h h' par t :
  agree L h h' → (∀ q, q ∈ addrs t → q ∉ L) → repr h par t → repr h' par t.
Proof. intros [_ Ho] Hd. apply repr_ext. intros q Hq. apply Ho. by apply Hd. Qed.

Lemma krepr_agree L h h' k hole :
  agree L h h' → (∀ q, q ∈ kaddrs k → q ∉ L) → krepr h k hole → krepr h' k hole.
Proof. intros [_ Ho] Hd. apply krepr_ext. intros q Hq. apply Ho. by apply Hd. Qed.

Lemma ptr_addrs t p : ptr t = Some p → p ∈ addrs t.
Proof. destruct t; simpl; [done|]. intros [= ->]. ssolve. Qed.

Ltac solve_in :=
  repeat first [ apply list_elem_of_here | apply list_elem_of_further ].

Ltac solve_ne :=
  first
  [ done
  | congruence
  | match goal with
    | |- Some ?p ≠ ptr ?t =>
      let Heq := fresh in
      intros Heq; symmetry in Heq; apply ptr_addrs in Heq; ssolve
    end ].

Ltac assert_ne_all x l :=
  match l with
  | [] => idtac
  | ?y :: ?l' => assert (x ≠ y) by ssolve; assert_ne_all x l'
  end.

(** Pairwise distinctness of the handles in [l], from the hypotheses. *)
Ltac pairwise_ne l :=
  match l with
  | [] => idtac
  | ?x :: ?l' => assert_ne_all x l'; pairwise_ne l'
  end.

(** After a write [alter f p h], restate what is known about [h] for the
    new arena and forget how it was built. *)
Ltac advance h p f :=
  repeat match goal with
  | H : h !! p = Some ?n |- _ => apply (lookup_alter_eq h f p n) in H
  | H : h !! ?q = Some ?n |- _ =>
    apply (lookup_alter_neq' h f p q n ltac:(solve_ne)) in H
  | H : agree ?L ?h0 h |- _ =>
    apply (agree_alter L h0 h f p ltac:(solve_in)) in H
  end;
  let h' := fresh "h" in
  set (h' := alter f p h) in *; clearbody h'.

Ltac exec_get :=
  match goal with
  | |- context [getNode ?h (Some ?p)] =>
    match goal with
    | H : h !! p = Some ?n |- _ => rewrite (getNode_Some h p n H)
    end
  end.

Ltac exec_upd :=
  lazymatch goal with
  | |- context [decide (?a = ?b)] => fail
  | |- context [update ?h (Some ?p) ?f] =>
    match goal with
    | H : h !! p = Some ?n |- _ => rewrite (update_Some h p n f H)
    end;
    advance h p f
  end.

Ltac exec_dec :=
  match goal with
  | |- context [decide (?a = ?b)] =>
    first [ rewrite (decide_True (P := a = b)) by done
          | rewrite (decide_False (P := a = b)) by solve_ne ]
  end.

Lemma maxOrZero_repr L h0 h par t :
  agree L h0 h → (∀ q, q ∈ addrs t → q ∉ L) → repr h0 par t →
  maxOrZero h (ptr t) = Ok (tmax t).
Proof.
  intros Hag Hd Hr. eapply repr_agree in Hr; [|done..].
  destruct t as [|p c l d m r]; simpl in *; [done|].
  destruct Hr as (Hp & _). unfold maxOrZero. by rewrite (getNode_Some _ _ _ Hp).
Qed.

Lemma maxOrZero_Some h p n :
  h !! p = Some n → maxOrZero h (Some p) = Ok (toNumber (_max n)).
Proof. intros H. unfold maxOrZero. by rewrite (getNode_Some _ _ _ H). Qed.

Ltac exec_max :=
  match goal with
  | |- context [maxOrZero ?h (Some ?p)] =>
    match goal with
    | H : h !! p = Some ?n |- _ => rewrite (maxOrZero_Some h p n H)
    end
  | |- context [maxOrZero ?h (ptr ?t)] =>
    match goal with
    | Hag : agree ?L ?h0 h, Hr : repr ?h0 ?par t |- _ =>
      rewrite (maxOrZero_repr L h0 h par t Hag ltac:(ssolve) Hr)
    end
  | |- context [maxOrZero ?h None] =>
    change (maxOrZero h None) with (@Ok Z 0)
  end.

Ltac exec_simpl :=
  try unfold withParent in * |-; try unfold withMax in * |-;
  try unfold withColor in * |-;
  cbn [bind getChild _left _right _parent _max _color data toNumber default
       withChild withParent withMax withColor fst snd ptr kptr
       frame_node f_dir f_p f_c f_d f_m f_sib] in *.

Ltac exec :=
  unfold _getMax, getParent, getGrandfather, setChild, setParent, setMax, setColor;
  exec_simpl;
  repeat (first [ exec_dec | exec_max | exec_get | exec_upd ]; exec_simpl).

Lemma rot_addrs d X X' : rot d X = Some X' → addrs X' ≡ₚ addrs X.
Proof.
  destruct d, X as [|px cx l dx mx r]; simpl; try done.
  - destruct r as [|py cy b dy my g]; [done|]. intros [= <-]. simpl.
    by rewrite <- !app_assoc.
  - destruct l as [|py cy g dy my b]; [done|]. intros [= <-]. simpl.
    by rewrite <- !app_assoc.
Qed.

Lemma rot_elems d X X' : rot d X = Some X' → elems X' = elems X.
Proof.
  destruct d, X as [|px cx l dx mx r]; simpl; try done.
  - destruct r as [|py cy b dy my g]; [done|]. intros [= <-]. simpl.
    by rewrite <- !app_assoc.
  - destruct l as [|py cy g dy my b]; [done|]. intros [= <-]. simpl.
    by rewrite <- !app_assoc.
Qed.

Ltac rotate_finish HR Hag Hperm :=
  eexists; split; [reflexivity|]; split; [|done];
  eapply Rep_intro; [exact HR|..];
  [ simpl; subst; apply (ag_len _ _ _ Hag)
  | simpl; split_and!;
    first [ done | assumption
          | eapply repr_agree; [exact Hag| |eassumption]; ssolve ]
  | simpl; unfold frame_node; simpl; split_and?;
    first [ done | assumption
          | eapply repr_agree; [exact Hag| |eassumption]; ssolve
          | eapply krepr_agree; [exact Hag| |eassumption]; ssolve ]
  | exact Hperm
  | first [ done | rewrite (rep_root _ _ HR); apply ptr_plug_cons ] ].

(** The nodes the code reads are pairwise distinct. *)
Ltac ne_lookups :=
  repeat match goal with
  | H1 : ?h !! ?p = Some _, H2 : ?h !! ?q = Some _ |- _ =>
    lazymatch p with q => fail | _ => idtac end;
    lazymatch goal with
    | _ : p ≠ q |- _ => fail
    | _ : q ≠ p |- _ => fail
    | _ => idtac
    end;
    assert (p ≠ q) by ssolve
  end.

Ltac rotate_case b k HR Hr Hk Hnd Hag Hperm :=
  destruct b as [|?pb ?cb ?bl ?db ?mb ?br];
  destruct k as [|[[] ?fp ?fc ?fd ?fm ?fs] k];
  simpl in Hr, Hk, Hnd, Hag;
  destruct_and?;
  nodup_split Hnd;
  ne_lookups;
  exec;
  rotate_finish HR Hag Hperm.

Lemma rotate_ok T k d X X' :
  Rep T (plug k X) → rot d X = Some X' →
  ∃ T', _rotate T (ptr X) d = Ok T' ∧ Rep T' (plug k X')
        ∧ _comparator T' = _comparator T ∧ _size T' = _size T.
Proof.
  intros HR Hrot.
  pose proof (Rep_plug_inv _ _ _ HR) as (Hr & Hk & Hnd).
  pose proof (rot_addrs _ _ _ Hrot) as Hperm.
  destruct d, X as [|px cx l dx mx r]; simpl in Hrot; try done.
  - destruct r as [|py cy b dy my g]; [done|]. injection Hrot as <-.
    pose proof (agree_refl (px :: py :: from_option (λ x, [x]) [] (ptr b)
                              ++ from_option (λ x, [x]) [] (kptr k)) (heap T)) as Hag.
    unfold _rotate. remember (heap T) as h eqn:Hh.
    rotate_case b k HR Hr Hk Hnd Hag Hperm.
  - destruct l as [|py cy g dy my b]; [done|]. injection Hrot as <-.
    pose proof (agree_refl (px :: py :: from_option (λ x, [x]) [] (ptr b)
                              ++ from_option (λ x, [x]) [] (kptr k)) (heap T)) as Hag.
    unfold _rotate. remember (heap T) as h eqn:Hh.
    rotate_case b k HR Hr Hk Hnd Hag Hperm.
Qed.

(** ** [_insertNode] *)

Lemma path_plug cmp d t k : plug (path cmp d t k) Leaf = plug k t.
Proof.
  revert k. induction t as [|p c l IHl e m r IHr]; intros k; simpl; [done|].
  destruct (cmp d e); [rewrite IHl | rewrite IHr]; done.
Qed.

Lemma path_ins cmp d new t k :
  plug (path cmp d t k) new = plug k (ins_tree cmp d new t).
Proof.
  revert k. induction t as [|p c l IHl e m r IHr]; intros k; simpl; [done|].
  destruct (cmp d e); [rewrite IHl | rewrite IHr]; done.
Qed.

Lemma path_dirs cmp d t k :
  Forall (λ f, f_dir f = cmp d (f_d f)) k →
  Forall (λ f, f_dir f = cmp d (f_d f)) (path cmp d t k).
Proof.
  revert k. induction t as [|p c l IHl e m r IHr]; intros k Hk; simpl; [done|].
  destruct (cmp d e) eqn:He; [apply IHl | apply IHr]; by constructor.
Qed.

Lemma descend_ok T d t k fuel :
  repr (heap T) (kptr k) t → (height t ≤ fuel)%nat →
  descend fuel T d (kptr k) (ptr t) = Ok (kptr (path (_comparator T) d t k)).
Proof.
  revert k fuel. induction t as [|p c l IHl e m r IHr]; intros k fuel Hr Hf; simpl.
  - by destruct fuel.
  - destruct fuel as [|fuel]; [simpl in Hf; lia|].
    simpl in Hr. destruct Hr as (Hp & Hl & Hrr). simpl in Hf.
    simpl. rewrite (getNode_Some _ _ _ Hp). simpl.
    destruct (_comparator T d e); simpl.
    + apply (IHl (mkFrame LEFT p c e m r :: k)); [done|lia].
    + apply (IHr (mkFrame RIGHT p c e m l :: k)); [done|lia].
Qed.

Lemma ptr_plug_kaddrs f k t : ∃ p, ptr (plug (f :: k) t) = Some p ∧ p ∈ kaddrs (f :: k).
Proof.
  revert f t. induction k as [|g k IH]; intros f t.
  - exists (f_p f). simpl. rewrite ptr_fill. split; [done|]. set_solver.
  - destruct (IH g (fill f t)) as (p & Hp & Hin). exists p. split; [done|].
    simpl in *. set_solver.
Qed.

Lemma seq_snoc_perm n : n :: seq 0 n ≡ₚ seq 0 (S n).
Proof. rewrite seq_S. simpl. by rewrite Permutation_cons_append. Qed.

Lemma insertNode_ok T t d fuel :
  Rep T t → (length (heap T) ≤ fuel)%nat →
  let K := path (_comparator T) d t [] in
  let n := length (heap T) in
  ∃ T', _insertNode fuel T d = Ok (T', Some n)
        ∧ Rep T' (plug K (leaf_node n d None))
        ∧ _comparator T' = _comparator T ∧ _size T' = S (_size T)
        ∧ length (heap T') = S (length (heap T)).
Proof.
  intros HR Hfuel K n.
  assert (HRK : Rep T (plug K Leaf)) by (unfold K; by rewrite path_plug).
  pose proof (Rep_plug_inv _ _ _ HRK) as (_ & Hk & Hnd).
  pose proof (rep_addrs _ _ HRK) as Haddrs. rewrite addrs_plug in Haddrs. simpl in Haddrs.
  assert (Hlt : ∀ q, q ∈ kaddrs K → (q < n)%nat).
  { intros q Hq. rewrite Haddrs in Hq. apply elem_of_seq in Hq. unfold n. lia. }
  unfold _insertNode.
  pose proof (descend_ok T d t [] fuel) as Hd. simpl in Hd.
  rewrite (rep_root _ _ HR), Hd; [|apply HR|].
  2:{ pose proof (Rep_fuel_height T [] t HR). simpl in *. lia. }
  fold K. fold n. cbn [bind].
  set (h0 := heap T ++ [newNode d]).
  assert (H0n : h0 !! n = Some (newNode d)).
  { unfold h0, n. by rewrite list_lookup_middle. }
  assert (H0lt : ∀ q, (q < n)%nat → h0 !! q = heap T !! q).
  { intros q Hq. unfold h0. by rewrite lookup_app_l. }
  assert (Hk0 : krepr h0 K None).
  { eapply krepr_ext; [|exact Hk]. intros q Hq. apply H0lt. by apply Hlt. }
  assert (Hlen0 : length h0 = S n).
  { unfold h0. rewrite length_app. simpl. unfold n. lia. }
  pose proof (agree_refl (n :: from_option (λ x, [x]) [] (kptr K)) h0) as Hag.
  assert (Hperm : addrs (plug K (leaf_node n d None)) ≡ₚ seq 0 (S n)).
  { rewrite addrs_plug. simpl. rewrite Haddrs. apply seq_snoc_perm. }
  assert (Hdirs : Forall (λ f, f_dir f = _comparator T d (f_d f)) K).
  { apply path_dirs. constructor. }
  assert (Hroot : ∀ f K', K = f :: K' → ptr t = ptr (plug K (leaf_node n d None))).
  { intros f K' HK.
    change t with (plug [] t) at 1.
    rewrite <- (path_plug (_comparator T) d t []). fold K.
    rewrite HK. apply ptr_plug_cons. }
  clearbody h0 K. clear Hd HRK Hk Hnd.
  destruct K as [|[fd fp fc fe fm fs] K']; simpl in Hag, Hk0.
  - exec. eexists. split; [reflexivity|]. split_and!; simpl; try done.
    + split; simpl; [|done|].
      * split_and!; done.
      * rewrite (ag_len _ _ _ Hag), Hlen0. exact Hperm.
    + rewrite (ag_len _ _ _ Hag). done.
  - destruct Hk0 as (Hf & Hfs & Hk').
    assert (fp ≠ n).
    { intros ->. specialize (Hlt n). simpl in Hlt. 
      assert (n < n)%nat; [apply Hlt; set_solver|lia]. }
    apply Forall_cons in Hdirs as [Hdir _]. simpl in Hdir.
    assert (Hnd : NoDup (fp :: addrs fs ++ kaddrs K')).
    { simpl in Haddrs. rewrite Haddrs. apply NoDup_seq. }
    nodup_split Hnd.
    assert (Hnfs : n ∉ addrs fs ++ kaddrs K').
    { intros Hin. specialize (Hlt n). simpl in Hlt.
      assert (n < n)%nat; [apply Hlt; set_solver|lia]. }
    unfold frame_node in Hf.
    destruct fd; cbn [f_dir f_p f_c f_d f_m f_sib] in *; exec;
      rewrite <- Hdir in *; exec_simpl.
    all: eexists; (split; [reflexivity|]); split_and!; simpl; try done;
      [|by rewrite (ag_len _ _ _ Hag)].
    all: split; simpl;
      [ apply (repr_plug _ (_ :: K')); simpl; unfold frame_node; simpl; split_and!;
        first [ done | assumption
              | eapply repr_agree; [exact Hag| |eassumption]; ssolve
              | eapply krepr_agree; [exact Hag| |eassumption]; ssolve ]
      | by eapply Hroot
      | rewrite (ag_len _ _ _ Hag), Hlen0; exact Hperm ].
Qed.

(** ** Red/black shape of trees in contexts *)

Lemma kok_plug b n k t :
  kok b n k → rbt n t → (b = false → color_of t = BLACK) → RB (plug k t).
Proof.
  intros Hk. revert t. induction Hk as [n|b n f k Hc Hs Hk IH|n f k Hc Hcs Hs Hk IH];
    intros t Ht Hb; simpl.
  - split; [by apply Hb|by exists n].
  - apply IH; [|intros _; unfold fill, mk; by destruct (f_dir f)].
    unfold fill, mk. rewrite Hc. destruct (f_dir f); by constructor.
  - apply IH; [|done].
    unfold fill, mk. rewrite Hc. destruct (f_dir f); constructor; auto.
Qed.

Lemma rb_plug_inv k t :
  RB (plug k t) → ∃ n, rbt n t ∧ kok (bool_decide (color_of t = RED)) n k.
Proof.
  revert t. induction k as [|f k IH]; intros t; simpl.
  - intros [Hc [n Hn]]. exists n. split; [done|].
    rewrite bool_decide_eq_false_2 by (rewrite Hc; done). constructor.
  - intros H. apply IH in H as (n' & Hn' & Hk).
    unfold fill, mk in *. destruct f as [fd fp fc fe fm fs]; simpl in *.
    destruct fd, fc; simpl in Hk;
      try first [ rewrite bool_decide_eq_true_2 in Hk by done
                | rewrite bool_decide_eq_false_2 in Hk by done ];
      inversion Hn'; subst.
    1,3: exists n'; (split; [done|]);
         (rewrite bool_decide_eq_false_2 by congruence); by apply kok_red.
    all: eexists; (split; [eassumption|]); by apply kok_black.
Qed.

Lemma kok_true_inv n k :
  kok true n k → ∃ g k', k = g :: k' ∧ f_c g = BLACK ∧ rbt n (f_sib g) ∧ kok false (S n) k'.
Proof. inversion 1; subst. by repeat eexists. Qed.

Lemma rbt_paint_black n t : rbt n t → ∃ m, rbt m (paint BLACK t).
Proof.
  destruct 1; simpl.
  - exists 0%nat. constructor.
  - exists (S n). by constructor.
  - exists (S n). by constructor.
Qed.

Lemma paint_black_id t : color_of t = BLACK → paint BLACK t = t.
Proof. destruct t; simpl; [done|]. by intros ->. Qed.

Lemma color_paint c t : t ≠ Leaf → color_of (paint c t) = c.
Proof. by destruct t. Qed.

(** *** In-order contents of plugged trees *)

Lemma elems_plug_ext k t t' : elems t = elems t' → elems (plug k t) = elems (plug k t').
Proof.
  revert t t'. induction k as [|f k IH]; intros t t' H; simpl; [done|].
  apply IH. unfold fill, mk. destruct (f_dir f); simpl; by rewrite H.
Qed.

Lemma elems_paint c t : elems (paint c t) = elems t.
Proof. by destruct t. Qed.

(** *** Reading around a position *)

Lemma fill_swap f t : fill f t = fill (f_swap f t) (f_sib f).
Proof. unfold fill, mk, f_swap. by destruct (f_dir f). Qed.

Lemma paint_fill c f t : paint c (fill f t) = fill (f_paint c f) t.
Proof. unfold fill, mk, f_paint. by destruct (f_dir f). Qed.

Lemma Rep_frame T f k t :
  Rep T (plug (f :: k) t) →
  heap T !! f_p f = Some (frame_node f (ptr t) (kptr k)).
Proof. intros H. apply Rep_plug_inv in H as (_ & H & _). apply H. Qed.

Lemma getParent_Rep T k t :
  Rep T (plug k t) → t ≠ Leaf → getParent (heap T) (ptr t) = Ok (kptr k).
Proof.
  intros H Ht. destruct t as [|p c l d m r]; [done|].
  unfold getParent. simpl. by rewrite (getNode_Some _ _ _ (Rep_lookup _ _ _ _ _ _ _ _ H)).
Qed.

Lemma getNode_frame T f k t :
  Rep T (plug (f :: k) t) →
  getNode (heap T) (Some (f_p f)) = Ok (frame_node f (ptr t) (kptr k)).
Proof. intros H. by rewrite (getNode_Some _ _ _ (Rep_frame _ _ _ _ H)). Qed.

Lemma parent_frame_node f hole par : _parent (frame_node f hole par) = par.
Proof. unfold frame_node. by destruct (f_dir f). Qed.

Lemma color_frame_node f hole par : _color (frame_node f hole par) = f_c f.
Proof. unfold frame_node. by destruct (f_dir f). Qed.

Lemma getChild_frame_node f hole par dir :
  getChild (frame_node f hole par) dir
  = if decide (dir = f_dir f) then hole else ptr (f_sib f).
Proof. unfold frame_node. by destruct (f_dir f), dir. Qed.

Lemma getGrandfather_Rep T f k t :
  Rep T (plug (f :: k) t) → t ≠ Leaf →
  getGrandfather (heap T) (ptr t) = Ok (kptr k).
Proof.
  intros H Ht. unfold getGrandfather.
  rewrite (getParent_Rep _ _ _ H Ht). simpl.
  unfold getParent. rewrite (getNode_frame _ _ _ _ H). simpl.
  by rewrite parent_frame_node.
Qed.

Lemma ptr_not_sib T f k t :
  Rep T (plug (f :: k) t) → t ≠ Leaf → ptr t ≠ ptr (f_sib f).
Proof.
  intros H Ht Heq. apply Rep_plug_inv in H as (_ & _ & Hnd).
  destruct t as [|p c l d m r]; [done|]. simpl in Heq.
  symmetry in Heq. apply ptr_addrs in Heq.
  simpl in Hnd. apply NoDup_app in Hnd as (_ & Hd & _).
  apply (Hd p); set_solver.
Qed.

Lemma ptr_not_root T f k t :
  Rep T (plug (f :: k) t) → t ≠ Leaf → ptr t ≠ _root T.
Proof.
  intros H Ht Heq. rewrite (rep_root _ _ H) in Heq.
  apply Rep_plug_inv in H as (_ & _ & Hnd).
  destruct (ptr_plug_kaddrs f k t) as (q & Hq & Hin). rewrite Hq in Heq.
  destruct t as [|p c l d m r]; [done|]. simpl in Heq. injection Heq as ->.
  simpl in Hnd. apply NoDup_app in Hnd as (_ & Hd & _).
  apply (Hd q); [set_solver|done].
Qed.

(** *** Repainting around a position *)

Lemma setColor_tree T k t c :
  Rep T (plug k t) → t ≠ Leaf →
  ∃ h', setColor (heap T) (ptr t) c = Ok h'
        ∧ Rep (setHeap T h') (plug k (paint c t)).
Proof.
  intros H Ht. destruct t as [|p c0 l d m r]; [done|].
  eexists. by apply (setColor_node _ _ _ c0).
Qed.

Lemma setColor_frame T f k t c :
  Rep T (plug (f :: k) t) →
  ∃ h', setColor (heap T) (Some (f_p f)) c = Ok h'
        ∧ Rep (setHeap T h') (plug (f_paint c f :: k) t).
Proof.
  intros H. change (plug (f :: k) t) with (plug k (fill f t)) in H.
  apply (setColor_tree _ _ _ c) in H as (h' & Hs & H).
  - exists h'. rewrite ptr_fill in Hs. split; [done|].
    by rewrite paint_fill in H.
  - unfold fill, mk. by destruct (f_dir f).
Qed.

Lemma setColor_sib T f k t c :
  Rep T (plug (f :: k) t) → f_sib f ≠ Leaf →
  ∃ h', setColor (heap T) (ptr (f_sib f)) c = Ok h'
        ∧ Rep (setHeap T h') (plug (f_setsib (paint c (f_sib f)) f :: k) t).
Proof.
  intros H Hs. change (plug (f :: k) t) with (plug k (fill f t)) in H.
  rewrite fill_swap in H.
  change (plug k (fill (f_swap f t) (f_sib f)))
    with (plug (f_swap f t :: k) (f_sib f)) in H.
  apply (setColor_tree _ _ _ c) in H as (h' & Hc & H); [|done].
  exists h'. split; [done|].
  change (plug (f_setsib (paint c (f_sib f)) f :: k) t)
    with (plug k (fill (f_setsib (paint c (f_sib f)) f) t)).
  rewrite fill_swap. exact H.
Qed.

Lemma isRed_sib T f k t :
  Rep T (plug (f :: k) t) →
  match ptr (f_sib f) with
  | Some _ => let* un := getNode (heap T) (ptr (f_sib f)) in Ok (isRed un)
  | None => Ok false
  end = Ok (bool_decide (color_of (f_sib f) = RED)).
Proof.
  intros H. apply Rep_plug_inv in H as (_ & (_ & H & _) & _).
  destruct (f_sib f) as [|p c l d m r]; simpl in *; [done|].
  destruct H as (H & _). by rewrite (getNode_Some _ _ _ H).
Qed.

Ltac norm_app :=
  repeat first [ rewrite <- app_assoc | rewrite <- app_comm_cons ]; try done.

(** ** [_checkViolation] *)

Lemma rotate_dir T node dir :
  match dir with RIGHT => _rightRotate T node | LEFT => _leftRotate T node end
  = _rotate T node dir.
Proof. by destruct dir. Qed.

Lemma rotate_opp T node dir :
  match dir with RIGHT => _leftRotate T node | LEFT => _rightRotate T node end
  = _rotate T node (opposite dir).
Proof. by destruct dir. Qed.

Lemma rot_outer f g z :
  f_dir f = f_dir g →
  ∃ m1 m2, rot (opposite (f_dir g)) (fill g (fill f z))
           = Some (fill (mkFrame (f_dir g) (f_p f) (f_c f) (f_d f) m1
                           (mk (f_dir g) (f_p g) (f_c g) (f_sib f) (f_d g) m2 (f_sib g))) z).
Proof.
  destruct f as [fd fp fc fe fm fs], g as [gd gp gc ge gm gs]; simpl.
  intros ->. destruct gd; simpl; by do 2 eexists.
Qed.

Lemma rot_inner f pz cz zl zd zm zr :
  let z := Br pz cz zl zd zm zr in
  ∃ m1 m2, rot (opposite (f_dir f)) (fill f z)
           = Some (fill (mkFrame (opposite (f_dir f)) pz cz zd m1 (child (f_dir f) z))
                        (mk (f_dir f) (f_p f) (f_c f) (child (opposite (f_dir f)) z)
                            (f_d f) m2 (f_sib f))).
Proof.
  destruct f as [fd fp fc fe fm fs]; simpl.
  destruct fd; simpl; by do 2 eexists.
Qed.

Lemma cv_tail_ok T f g k z :
  Rep T (plug (f :: g :: k) z) → z ≠ Leaf → f_dir f = f_dir g →
  ∃ T' m1 m2,
    cv_tail T (ptr z) (opposite (f_dir g)) = Ok (T', ptr z)
    ∧ Rep T' (plug (mkFrame (f_dir g) (f_p f) BLACK (f_d f) m1
                      (mk (f_dir g) (f_p g) RED (f_sib f) (f_d g) m2 (f_sib g)) :: k) z)
    ∧ _comparator T' = _comparator T ∧ _size T' = _size T.
Proof.
  intros H Hz Hd. unfold cv_tail.
  rewrite (getParent_Rep _ _ _ H Hz). cbn [bind kptr].
  destruct (setColor_frame T f (g :: k) z BLACK H) as (h1 & Hs1 & H1).
  rewrite Hs1. cbn [bind].
  change h1 with (heap (setHeap T h1)) at 1 2.
  rewrite (getGrandfather_Rep _ _ _ _ H1 Hz). cbn [bind kptr].
  change (plug (f_paint BLACK f :: g :: k) z)
    with (plug (g :: k) (fill (f_paint BLACK f) z)) in H1.
  destruct (setColor_frame _ g k _ RED H1) as (h2 & Hs2 & H2).
  rewrite Hs2. cbn [bind].
  change (setHeap (setHeap T h1) h2) with (setHeap T h2) in H2.
  change (plug (f_paint RED g :: k) (fill (f_paint BLACK f) z))
    with (plug (f_paint BLACK f :: f_paint RED g :: k) z) in H2.
  change h2 with (heap (setHeap T h2)) at 1.
  rewrite (getGrandfather_Rep _ _ _ _ H2 Hz). cbn [bind kptr].
  rewrite rotate_dir.
  destruct (rot_outer (f_paint BLACK f) (f_paint RED g) z Hd) as (m1 & m2 & Hrot).
  change (plug (f_paint BLACK f :: f_paint RED g :: k) z)
    with (plug k (fill (f_paint RED g) (fill (f_paint BLACK f) z))) in H2.
  destruct (rotate_ok _ _ _ _ _ H2 Hrot) as (T' & Hr & HR' & Hc & Hsz).
  rewrite ptr_fill in Hr. cbn [f_paint f_p f_dir] in Hr. cbn [f_paint f_p f_dir].
  rewrite Hr. cbn [bind].
  exists T', m1, m2. split; [done|]. split; [exact HR'|]. by rewrite Hc, Hsz.
Qed.

Lemma redtop_rbt n z : redtop n z → rbt n z.
Proof. intros (p & l & d & m & r & -> & ? & ? & ? & ?). by constructor. Qed.

Lemma redtop_nonleaf n z : redtop n z → z ≠ Leaf.
Proof. by intros (p & l & d & m & r & -> & _). Qed.

Lemma elems_fill f t :
  elems (fill f t)
  = match f_dir f with
    | LEFT => elems t ++ f_d f :: elems (f_sib f)
    | RIGHT => elems (f_sib f) ++ f_d f :: elems t
    end.
Proof. unfold fill, mk. by destruct (f_dir f). Qed.

(** One round of the fix-up loop below a red parent: the violation moves
    two levels up or disappears. *)
Lemma checkViolation_ok T f g k z n :
  Rep T (plug (f :: g :: k) z) →
  redtop n z →
  f_c f = RED → color_of (f_sib f) = BLACK → rbt n (f_sib f) →
  f_c g = BLACK → rbt n (f_sib g) → kok false (S n) k →
  ∃ T' k' z' n',
    _checkViolation T (ptr z) (opposite (f_dir g)) = Ok (T', ptr z')
    ∧ Rep T' (plug k' z') ∧ redtop n' z' ∧ kok false n' k'
    ∧ (length k' < length (f :: g :: k))%nat
    ∧ elems (plug k' z') = elems (plug (f :: g :: k) z)
    ∧ _comparator T' = _comparator T ∧ _size T' = _size T.
Proof.
  intros H Hz Hfc Hfsc Hfs Hgc Hgs Hk.
  pose proof (redtop_nonleaf _ _ Hz) as Hzl.
  unfold _checkViolation.
  rewrite (getGrandfather_Rep _ _ _ _ H Hzl). cbn [bind kptr].
  change (plug (f :: g :: k) z) with (plug (g :: k) (fill f z)) in H.
  rewrite (getNode_frame _ _ _ _ H). cbn [bind].
  rewrite getChild_frame_node.
  rewrite decide_False by (by destruct (f_dir g)).
  rewrite (isRed_sib _ _ _ _ H). cbn [bind].
  change (plug (g :: k) (fill f z)) with (plug (f :: g :: k) z) in H.
  destruct (color_of (f_sib g)) eqn:Hu; simpl bool_decide; cbv iota.
  - (* red uncle *)
    rewrite (getParent_Rep _ _ _ H Hzl). cbn [bind kptr].
    destruct (setColor_frame T f (g :: k) z BLACK H) as (h1 & Hs1 & H1).
    rewrite Hs1. cbn [bind].
    change (plug (f_paint BLACK f :: g :: k) z)
      with (plug (g :: k) (fill (f_paint BLACK f) z)) in H1.
    assert (Hul : f_sib g ≠ Leaf) by (by destruct (f_sib g)).
    destruct (setColor_sib _ g k _ BLACK H1 Hul) as (h2 & Hs2 & H2).
    cbn [setHeap heap] in Hs2. rewrite Hs2. cbn [bind].
    change (setHeap (setHeap T h1) h2) with (setHeap T h2) in H2.
    set (g1 := f_setsib (paint BLACK (f_sib g)) g) in *.
    change (plug (g1 :: k) (fill (f_paint BLACK f) z))
      with (plug (f_paint BLACK f :: g1 :: k) z) in H2.
    change h2 with (heap (setHeap T h2)) at 1 2.
    rewrite (getGrandfather_Rep _ _ _ _ H2 Hzl). cbn [bind kptr].
    change (plug (f_paint BLACK f :: g1 :: k) z)
      with (plug (g1 :: k) (fill (f_paint BLACK f) z)) in H2.
    destruct (setColor_frame _ g1 k _ RED H2) as (h3 & Hs3 & H3).
    cbn [g1 f_setsib f_p] in Hs3. cbn [g1 f_setsib f_p].
    rewrite Hs3. cbn [bind].
    change (setHeap (setHeap T h2) h3) with (setHeap T h3) in H3.
    change (plug (f_paint RED g1 :: k) (fill (f_paint BLACK f) z))
      with (plug (f_paint BLACK f :: f_paint RED g1 :: k) z) in H3.
    change h3 with (heap (setHeap T h3)) at 1.
    rewrite (getGrandfather_Rep _ _ _ _ H3 Hzl). cbn [bind kptr].
    change (plug (f_paint BLACK f :: f_paint RED g1 :: k) z)
      with (plug k (fill (f_paint RED g1) (fill (f_paint BLACK f) z))) in H3.
    exists (setHeap T h3), k, (fill (f_paint RED g1) (fill (f_paint BLACK f) z)), (S n).
    rewrite ptr_fill. split; [done|]. split; [done|].
    split_and!; try done.
    + destruct Hz as (p & l & d & m & r & -> & ? & ? & ? & ?).
      destruct f as [fd fp fc fe fm fs], g as [gd gp gc ge gm gs].
      simpl in *. subst. inversion Hgs; subst; [done| |done].
      destruct fd, gd; simpl; repeat eexists; by repeat constructor.
    + simpl. lia.
    + change (plug (f :: g :: k) z) with (plug k (fill g (fill f z))).
      apply elems_plug_ext.
      destruct f as [fd fp fc fe fm fs], g as [gd gp gc ge gm gs].
      unfold fill, mk, g1, f_paint, f_setsib; simpl.
      destruct fd, gd; simpl; by rewrite elems_paint.
  - (* black uncle *)
    rewrite (getParent_Rep _ _ _ H Hzl). cbn [bind kptr].
    rewrite (getNode_frame _ _ _ _ H). cbn [bind].
    rewrite getChild_frame_node.
    destruct (decide (opposite (f_dir g) = f_dir f)) as [Hin|Hout].
    + (* inner grandchild: rotate the parent first *)
      rewrite decide_True by done. cbn [bind kptr].
      rewrite rotate_opp. 
      assert (Hopp : opposite (opposite (f_dir g)) = f_dir g) by (by destruct (f_dir g)).
      rewrite Hopp.
      destruct Hz as (pz & zl & zd & zm & zr & -> & Hzlc & Hzrc & Hzlr & Hzrr).
      destruct (rot_inner f pz RED zl zd zm zr) as (m1 & m2 & Hrot).
      assert (Hfd : opposite (f_dir f) = f_dir g) by (by rewrite <- Hin).
      rewrite Hfd in Hrot.
      change (plug (f :: g :: k) (Br pz RED zl zd zm zr))
        with (plug (g :: k) (fill f (Br pz RED zl zd zm zr))) in H.
      destruct (rotate_ok _ _ _ _ _ H Hrot) as (T1 & Hr & H1 & Hc1 & Hsz1).
      rewrite ptr_fill in Hr. rewrite Hr. cbn [bind].
      set (Z := mkFrame (f_dir g) pz RED zd m1 (child (f_dir f) (Br pz RED zl zd zm zr))) in *.
      set (N := mk (f_dir f) (f_p f) (f_c f)
                  (child (f_dir g) (Br pz RED zl zd zm zr)) (f_d f) m2 (f_sib f)) in *.
      change (plug (g :: k) (fill Z N)) with (plug (Z :: g :: k) N) in H1.
      assert (HN : N ≠ Leaf) by (unfold N, mk; by destruct (f_dir f)).
      assert (HpN : ptr N = Some (f_p f)) by (unfold N, mk; by destruct (f_dir f)).
      destruct (cv_tail_ok _ Z g k N H1 HN eq_refl) as (T2 & m3 & m4 & Ht & H2 & Hc2 & Hsz2).
      rewrite HpN in Ht. unfold cv_tail in Ht. rewrite Ht.
      eexists T2, _, N, n. rewrite HpN.
      split; [done|]. split; [exact H2|].
      split_and!.
      * unfold N, mk. rewrite Hfc. clear -Hin Hzlc Hzrc Hzlr Hzrr Hfsc Hfs.
        destruct (f_dir f), (f_dir g); simpl in *; try done;
          repeat eexists; done.
      * apply kok_black; simpl; [done| |done].
        unfold mk. destruct (f_dir g), (f_dir f); simpl in *; try done;
          by constructor.
      * simpl. lia.
      * change (plug (f :: g :: k) (Br pz RED zl zd zm zr))
          with (plug k (fill g (fill f (Br pz RED zl zd zm zr)))).
        change (plug (?F :: k) N) with (plug k (fill F N)).
        apply elems_plug_ext.
        destruct f as [fd fp fc fe fm fs], g as [gd gp gc ge gm gs].
        unfold fill, mk, N; simpl in *.
        destruct fd, gd; simpl in *; try done; norm_app.
      * by rewrite Hc2, Hc1.
      * by rewrite Hsz2, Hsz1.
    + (* outer grandchild *)
      cbv iota.
      rewrite decide_False by (by apply (ptr_not_sib T f (g :: k))).
      assert (Hd : f_dir f = f_dir g) by (by destruct (f_dir f), (f_dir g)).
      destruct (cv_tail_ok _ f g k z H Hzl Hd) as (T2 & m3 & m4 & Ht & H2 & Hc2 & Hsz2).
      unfold cv_tail in Ht. cbn [bind]. rewrite Ht.
      eexists T2, _, z, n.
      split; [done|]. split; [exact H2|].
      split_and!; try done.
      * apply kok_black; simpl; [done| |done].
        unfold mk. destruct (f_dir g); simpl; by constructor.
      * simpl. lia.
      * change (plug (f :: g :: k) z) with (plug k (fill g (fill f z))).
        change (plug (?F :: k) z) with (plug k (fill F z)).
        apply elems_plug_ext.
        destruct f as [fd fp fc fe fm fs], g as [gd gp gc ge gm gs].
        unfold fill, mk; simpl in *. subst.
        destruct gd; simpl in *; norm_app.
Qed.

(** ** The fix-up loop and [insert] *)

Lemma fixup_ok fuel : ∀ T k z n,
  Rep T (plug k z) → redtop n z → kok false n k → (length k < fuel)%nat →
  ∃ T' t', fixup fuel T (ptr z) = Ok T' ∧ Rep T' t' ∧ t' ≠ Leaf
           ∧ (∃ m, rbt m (paint BLACK t'))
           ∧ elems t' = elems (plug k z)
           ∧ _comparator T' = _comparator T ∧ _size T' = _size T.
Proof.
  induction fuel as [|fuel IH]; intros T k z n H Hz Hk Hfuel; [lia|].
  pose proof (redtop_nonleaf _ _ Hz) as Hzl.
  cbn [fixup].
  destruct k as [|f k1].
  - rewrite decide_True by (by rewrite (rep_root _ _ H)).
    exists T, z. split_and!; try done.
    apply redtop_rbt in Hz. by eapply rbt_paint_black.
  - rewrite decide_False by (by eapply ptr_not_root).
    rewrite (getParent_Rep _ _ _ H Hzl). cbn [bind kptr].
    rewrite (getNode_frame _ _ _ _ H). cbn [bind].
    unfold isRed. rewrite color_frame_node.
    inversion Hk as [|b n0 f0 k0 Hfc Hfs Hk1|n0 f0 k0 Hfc Hfsc Hfs Hk1]; subst.
    + rewrite bool_decide_eq_false_2 by (rewrite Hfc; done).
      exists T, (plug (f :: k1) z).
      assert (HRB : RB (plug (f :: k1) z)).
      { apply (kok_plug true n); [by apply kok_black|by apply redtop_rbt|done]. }
      destruct HRB as [Hc Hn].
      split_and!; try done.
      * intros Heq. destruct (ptr_plug_kaddrs f k1 z) as (q & Hq & _).
        by rewrite Heq in Hq.
      * by rewrite paint_black_id.
    + rewrite bool_decide_eq_true_2 by done.
      apply kok_true_inv in Hk1 as (g & k2 & -> & Hgc & Hgs & Hk2).
      rewrite (getGrandfather_Rep _ _ _ _ H Hzl). cbn [bind kptr].
      change (plug (f :: g :: k2) z) with (plug (g :: k2) (fill f z)) in H.
      rewrite (getNode_frame _ _ _ _ H). cbn [bind]. rewrite ptr_fill.
      rewrite getChild_frame_node.
      assert (Hdir : (if decide (Some (f_p f) =
                        (if decide (LEFT = f_dir g) then Some (f_p f) else ptr (f_sib g)))
                      then RIGHT else LEFT) = opposite (f_dir g)).
      { destruct (f_dir g) eqn:Hg; simpl.
        - by rewrite decide_True.
        - rewrite decide_False; [done|].
          rewrite <- (ptr_fill f z). apply (ptr_not_sib T g k2); [done|].
          unfold fill, mk. by destruct (f_dir f). }
      rewrite Hdir.
      change (plug (g :: k2) (fill f z)) with (plug (f :: g :: k2) z) in H.
      destruct (checkViolation_ok T f g k2 z n H Hz Hfc Hfsc Hfs Hgc Hgs Hk2)
        as (T1 & k' & z' & n' & Hcv & H1 & Hz' & Hk' & Hlen & Hel & Hc1 & Hs1).
      rewrite Hcv. cbn [bind fst snd].
      destruct (IH T1 k' z' n' H1 Hz' Hk') as (T' & t' & Hf & H' & Hne & Hrb & Hel' & Hc' & Hs').
      { simpl in *. lia. }
      exists T', t'. split_and!; try done; congruence.
Qed.

Lemma RB_heap_bound T t : Rep T t → (height t ≤ length (heap T))%nat.
Proof. intros H. pose proof (Rep_fuel_height T [] t H). simpl in *. lia. Qed.

Lemma insert_ok T t d :
  Rep T t → RB t →
  ∃ T' t', insert T d = Ok (T', VUndefined) ∧ Rep T' t' ∧ RB t'
    ∧ (∃ p m, elems t' = elems (ins_tree (_comparator T) d (leaf_node p d m) t))
    ∧ _comparator T' = _comparator T ∧ _size T' = S (_size T)
    ∧ length (heap T') = S (length (heap T)).
Proof.
  intros H HRB. unfold insert, insert_fuel.
  destruct (insertNode_ok T t d (fuel_of T) H) as (T1 & Hin & H1 & Hc1 & Hs1 & Hl1).
  { unfold fuel_of. lia. }
  rewrite Hin. cbn [bind].
  set (K := path (_comparator T) d t []) in *.
  set (n := length (heap T)) in *.
  unfold _getMax.
  rewrite (getNode_Some _ _ _ (Rep_lookup _ _ _ _ _ _ _ _ H1)).
  cbn [bind getChild _left _right ptr data]. unfold maxOrZero at 1 2. cbn [bind].
  destruct (setMax_node T1 K n RED Leaf d None Leaf (end_ d `max` (0 `max` 0)) H1)
    as (Hsm & H2).
  rewrite Hsm. cbn [bind].
  assert (Hkok : kok false 0 K).
  { assert (HRBK : RB (plug K Leaf)) by (unfold K; by rewrite path_plug).
    apply rb_plug_inv in HRBK as (n0 & Hn0 & HK). inversion Hn0; subst.
    exact HK. }
  assert (HlenK : (length K < fuel_of T)%nat).
  { assert (HRK : Rep T (plug K Leaf)) by (unfold K; by rewrite path_plug).
    pose proof (Rep_fuel_height _ _ _ HRK). unfold fuel_of. simpl in *. lia. }
  edestruct (fixup_ok (fuel_of T) _ K _ 0%nat H2) as (T3 & t3 & Hfx & H3 & Hne & (m & Hrb) & Hel & Hc3 & Hs3);
    [by repeat eexists; constructor|done|done|].
  cbn [ptr] in Hfx. rewrite Hfx. cbn [bind].
  rewrite (rep_root _ _ H3).
  change t3 with (plug [] t3) in H3.
  destruct (setColor_tree T3 [] t3 BLACK H3 Hne) as (h4 & Hsc & H4).
  rewrite Hsc. cbn [bind].
  exists (setHeap T3 h4), (paint BLACK t3). split; [done|]. split; [exact H4|].
  split_and!.
  - split; [by apply color_paint|by exists m].
  - exists n, (Some (end_ d `max` (0 `max` 0))).
    rewrite elems_paint, Hel. unfold K. by rewrite path_ins.
  - cbn. rewrite Hc3. cbn. done.
  - cbn. rewrite Hs3. cbn. done.
  - pose proof (Rep_length _ _ H4) as HL4. simpl in HL4.
    pose proof (Rep_length _ _ H2) as HL2.
    cbn [heap setHeap].
    rewrite <- HL4, <- elems_length, elems_paint, Hel, elems_length, HL2.
    cbn. by rewrite length_alter.
Qed.

Lemma Rep_empty cmp : Rep (newTree cmp) Leaf.
Proof. by split. Qed.

Lemma RB_Leaf : RB Leaf.
Proof. split; [done|]. exists 0%nat. constructor. Qed.

(** ** Stable insertion into a sorted list *)

#[local] Instance le_start_trans : Transitive le_start.
Proof. unfold le_start. intros a b c. lia. Qed.

Lemma sinsert_elem x d l : x ∈ sinsert d l ↔ x = d ∨ x ∈ l.
Proof.
  induction l as [|y l IH]; simpl; [set_solver|].
  case_decide; set_solver.
Qed.

Lemma sinsert_sorted d l :
  StronglySorted le_start l → StronglySorted le_start (sinsert d l).
Proof.
  induction 1 as [|x l Hs IH Hx]; simpl.
  - repeat constructor.
  - case_decide.
    + constructor; [by constructor|].
      constructor; [unfold le_start; lia|].
      eapply Forall_impl; [exact Hx|]. unfold le_start. intros; lia.
    + constructor; [done|].
      apply Forall_forall. intros y Hy. apply sinsert_elem in Hy as [->|Hy].
      * unfold le_start. lia.
      * by eapply Forall_forall in Hx.
Qed.

Lemma sinsert_app_lt d e l1 l2 :
  start d < start e → sinsert d (l1 ++ e :: l2) = sinsert d l1 ++ e :: l2.
Proof.
  intros Hlt. induction l1 as [|x l1 IH]; simpl.
  - by rewrite decide_True.
  - case_decide; [done|]. by rewrite IH.
Qed.

Lemma sinsert_app_ge d e l1 l2 :
  (∀ x, x ∈ l1 → start x ≤ start d) → start e ≤ start d →
  sinsert d (l1 ++ e :: l2) = l1 ++ e :: sinsert d l2.
Proof.
  intros Hl1 Hge. induction l1 as [|x l1 IH]; simpl.
  - rewrite decide_False by lia. done.
  - rewrite decide_False; [|assert (start x ≤ start d) by (apply Hl1; set_solver); lia].
    rewrite IH; [done|]. intros y Hy. apply Hl1. set_solver.
Qed.

Lemma elems_ins_tree d p m t :
  StronglySorted le_start (elems t) →
  elems (ins_tree comparator d (leaf_node p d m) t) = sinsert d (elems t).
Proof.
  induction t as [|q c l IHl e me r IHr]; simpl; [done|].
  intros Hs. unfold comparator at 1.
  pose proof (StronglySorted_app_1_l _ _ _ Hs) as Hsl.
  pose proof (StronglySorted_app_1_r _ _ _ Hs) as Hsr.
  apply StronglySorted_inv in Hsr as [Hsr _].
  case_decide; simpl.
  - rewrite IHl by done. by rewrite sinsert_app_lt.
  - rewrite IHr by done. rewrite sinsert_app_ge; [done| |lia].
    intros x Hx.
    assert (le_start x e); [|unfold le_start in *; lia].
    eapply StronglySorted_app_1_elem_of; [exact Hs|done|set_solver].
Qed.

Lemma filter_none {A} (P : A → Prop) `{∀ x, Decision (P x)} (l : list A) :
  Forall (λ z, ¬ P z) l → filter P l = [].
Proof.
  induction 1 as [|x l Hx _ IH]; [done|]. by rewrite filter_cons_False.
Qed.

Lemma sinsert_filter s d l :
  StronglySorted le_start l →
  filter (λ e, start e = s) (sinsert d l)
  = filter (λ e, start e = s) l ++ filter (λ e, start e = s) [d].
Proof.
  induction 1 as [|x l Hs IH Hx]; simpl; [done|].
  case_decide as Hlt.
  - destruct (decide (start d = s)) as [Hd|Hd].
    + rewrite !(filter_cons_True _ d) by done.
      rewrite (filter_none _ (x :: l)); [done|].
      constructor; [lia|].
      eapply Forall_impl; [exact Hx|]. unfold le_start. intros; lia.
    + rewrite !(filter_cons_False _ d) by done.
      rewrite filter_nil. by rewrite app_nil_r.
  - rewrite !(filter_cons _ x). case_decide; by rewrite IH.
Qed.

Lemma ssort_from acc l :
  StronglySorted le_start acc →
  StronglySorted le_start (foldl (λ acc d, sinsert d acc) acc l)
  ∧ ∀ s, filter (λ e, start e = s) (foldl (λ acc d, sinsert d acc) acc l)
         = filter (λ e, start e = s) acc ++ filter (λ e, start e = s) l.
Proof.
  revert acc. induction l as [|d l IH]; intros acc Hs; simpl.
  - split; [done|]. intros s. by rewrite app_nil_r.
  - destruct (IH (sinsert d acc) (sinsert_sorted d acc Hs)) as [H1 H2].
    split; [done|]. intros s. rewrite H2, sinsert_filter by done.
    rewrite <- app_assoc. f_equal.
    rewrite (filter_cons _ d l), (filter_cons _ d []), filter_nil. by case_decide.
Qed.

Lemma ssort_sorted l : StronglySorted le_start (ssort l).
Proof. apply ssort_from. constructor. Qed.

Lemma ssort_stable l s :
  filter (λ e, start e = s) (ssort l) = filter (λ e, start e = s) l.
Proof. unfold ssort. destruct (ssort_from [] l) as [_ H]; [constructor|]. by rewrite H. Qed.

Lemma sinsert_length d l : length (sinsert d l) = S (length l).
Proof. induction l as [|x l IH]; simpl; [done|]. case_decide; simpl; lia. Qed.

Lemma ssort_length l : length (ssort l) = length l.
Proof.
  unfold ssort. change (length l) with (length (@nil Event) + length l)%nat.
  generalize (@nil Event). induction l as [|d l IH]; intros acc; simpl; [lia|].
  rewrite IH, sinsert_length. lia.
Qed.

(** ** Any sequence of insertions *)

Lemma insertAll_ok evs : ∀ T t,
  Rep T t → RB t →
  ∃ T2 t2, insertAll T evs = Ok T2 ∧ Rep T2 t2 ∧ RB t2
    ∧ _comparator T2 = _comparator T
    ∧ _size T2 = (_size T + length evs)%nat
    ∧ length (heap T2) = (length (heap T) + length evs)%nat
    ∧ (_comparator T = comparator → StronglySorted le_start (elems t) →
       elems t2 = foldl (λ acc d, sinsert d acc) (elems t) evs).
Proof.
  induction evs as [|d evs IH]; intros T t H HRB; simpl.
  - exists T, t. split_and!; try done; lia.
  - destruct (insert_ok T t d H HRB)
      as (T1 & t1 & Hi & H1 & HRB1 & (p & m & Hel) & Hc1 & Hs1 & Hl1).
    rewrite Hi. cbn [bind fst].
    destruct (IH T1 t1 H1 HRB1) as (T2 & t2 & Hia & H2 & HRB2 & Hc2 & Hs2 & Hl2 & Hel2).
    exists T2, t2. split_and!; try done; try congruence; try lia.
    intros Hcmp Hsorted. rewrite Hcmp in Hel.
    rewrite elems_ins_tree in Hel by done.
    rewrite Hel2; [by rewrite Hel|congruence|].
    rewrite Hel. by apply sinsert_sorted.
Qed.

Lemma build_ok cmp evs :
  ∃ T t, insertAll (newTree cmp) evs = Ok T ∧ Rep T t ∧ RB t
    ∧ _comparator T = cmp ∧ _size T = length evs
    ∧ length (heap T) = length evs
    ∧ (cmp = comparator → elems t = ssort evs).
Proof.
  destruct (insertAll_ok evs (newTree cmp) Leaf (Rep_empty cmp) RB_Leaf)
    as (T & t & Hi & H & HRB & Hc & Hs & Hl & Hel).
  exists T, t. split_and!; try done.
  intros ->. apply Hel; [done|constructor].
Qed.

(** ** The invariants on the arena *)

Lemma root_black_Rep T t : Rep T t → RB t → root_black T.
Proof.
  intros H [Hc _] r n Hr Hn. rewrite (rep_root _ _ H) in Hr.
  destruct t as [|p c l d m e]; [done|]. simpl in *. injection Hr as ->.
  destruct H as [(Hp & _) _ _]. simpl in Hp. rewrite Hp in Hn. injection Hn as <-.
  done.
Qed.

Lemma repr_color h par t q c :
  repr h par t → ptr t = Some q → h !! q = Some c → _color c = color_of t.
Proof.
  destruct t as [|p c0 l d m r]; [done|]. simpl. intros (Hp & _) [= ->] Hq.
  rewrite Hp in Hq. by injection Hq as <-.
Qed.

Lemma no_red_red_repr h par t n0 p n dir q c :
  repr h par t → rbt n0 t → p ∈ addrs t →
  h !! p = Some n → _color n = RED →
  getChild n dir = Some q → h !! q = Some c → _color c = BLACK.
Proof.
  revert par n0. induction t as [|p0 c0 l IHl d m r IHr]; intros par n0; simpl.
  - intros _ _ Hin. by apply elem_of_nil in Hin.
  - intros (Hp & Hl & Hr) Hrb Hin Hn Hred Hch Hc.
    apply elem_of_app in Hin as [Hin|Hin].
    { inversion Hrb; subst; eapply IHl; eauto. }
    apply elem_of_cons in Hin as [->|Hin].
    2:{ inversion Hrb; subst; eapply IHr; eauto. }
    rewrite Hp in Hn. injection Hn as <-. simpl in Hred. subst c0.
    inversion Hrb; subst.
    destruct dir; simpl in Hch.
    + rewrite (repr_color _ _ _ _ _ Hl Hch Hc). done.
    + rewrite (repr_color _ _ _ _ _ Hr Hch Hc). done.
Qed.

Lemma no_red_red_Rep T t : Rep T t → RB t → no_red_red T.
Proof.
  intros H [_ [n0 Hrb]] p n dir q c Hn Hred Hch Hc.
  eapply (no_red_red_repr (heap T) None t n0 p n dir q c);
    [apply H|done| |done..].
  rewrite (rep_addrs _ _ H). apply elem_of_seq. apply lookup_lt_Some in Hn. lia.
Qed.

Lemma black_path_repr h par t n b :
  repr h par t → rbt n t → black_path h (ptr t) b → b = n.
Proof.
  revert par n b. induction t as [|p c l IHl d m r IHr]; intros par n b; simpl.
  - intros _ Hrb Hb. inversion Hrb. by inversion Hb.
  - intros (Hp & Hl & Hr) Hrb Hb.
    inversion Hb as [|p' n' dir b' Hn' Hb' Heq1]; subst.
    rewrite Hp in Hn'. injection Hn' as <-.
    assert (∃ n1, rbt n1 l ∧ rbt n1 r
                  ∧ n = if isBlack (mkNode d (ptr l) (ptr r) par m c) then S n1 else n1)
      as (n1 & Hl1 & Hr1 & ->).
    { inversion Hrb; subst; eexists; split_and!; eauto. }
    destruct dir; simpl in Hb'.
    + by rewrite (IHl _ _ _ Hl Hl1 Hb').
    + by rewrite (IHr _ _ _ Hr Hr1 Hb').
Qed.

Lemma black_balanced_Rep T t : Rep T t → RB t → black_balanced T.
Proof.
  intros H [_ [n Hrb]] a b Ha Hb. rewrite (rep_root _ _ H) in Ha, Hb.
  rewrite (black_path_repr _ _ _ _ _ (rep_heap _ _ H) Hrb Ha).
  by rewrite (black_path_repr _ _ _ _ _ (rep_heap _ _ H) Hrb Hb).
Qed.

(** ** Ordered traversal *)

Lemma tlist_elems t : tlist (λ _ d, d) t = elems t.
Proof. induction t as [|p c l IHl d m r IHr]; simpl; [done|]. by rewrite IHl, IHr. Qed.

Lemma tlist_addrs t : tlist (λ p _, p) t = addrs t.
Proof. induction t as [|p c l IHl d m r IHr]; simpl; [done|]. by rewrite IHl, IHr. Qed.

Lemma tlist_length {A} (f : ref → Event → A) t : length (tlist f t) = length (addrs t).
Proof.
  induction t as [|p c l IHl d m r IHr]; simpl; [done|].
  rewrite !length_app. simpl. by rewrite IHl, IHr.
Qed.

Lemma kafter_length {A} (f : ref → Event → A) k : (length (kafter f k) ≤ length (kaddrs k))%nat.
Proof.
  induction k as [|fr k IH]; simpl; [done|].
  rewrite length_app. destruct (f_dir fr); simpl; rewrite ?length_app, ?tlist_length; lia.
Qed.

Lemma kbefore_length {A} (f : ref → Event → A) k : (length (kbefore f k) ≤ length (kaddrs k))%nat.
Proof.
  induction k as [|fr k IH]; simpl; [done|].
  rewrite length_app.
  destruct (f_dir fr); simpl; rewrite ?length_app, ?length_rev, ?tlist_length; lia.
Qed.

Lemma lm_ctx_spec t : ∀ k,
  t ≠ Leaf →
  plug (lm_ctx t k).1 (lm_ctx t k).2 = plug k t
  ∧ ∃ p c d m r, (lm_ctx t k).2 = Br p c Leaf d m r
      ∧ leftmost_ptr t = Some p
      ∧ ∀ A (f : ref → Event → A),
          f p d :: tlist f r ++ kafter f (lm_ctx t k).1 = tlist f t ++ kafter f k.
Proof.
  induction t as [|p c l IHl d m r _]; intros k Ht; [done|].
  destruct l as [|pl cl ll dl ml rl].
  - simpl. split; [done|]. by repeat eexists.
  - destruct (IHl (mkFrame LEFT p c d m r :: k)) as (Hp & (p' & c' & d' & m' & r' & HX & Hlp & Hel)); [done|].
    change (lm_ctx (Br p c (Br pl cl ll dl ml rl) d m r) k)
      with (lm_ctx (Br pl cl ll dl ml rl) (mkFrame LEFT p c d m r :: k)).
    split; [exact Hp|].
    exists p', c', d', m', r'. split; [done|]. split; [done|].
    intros A f. rewrite Hel. simpl. by rewrite <- !app_assoc.
Qed.

Lemma rm_ctx_spec t : ∀ k,
  t ≠ Leaf →
  plug (rm_ctx t k).1 (rm_ctx t k).2 = plug k t
  ∧ ∃ p c l d m, (rm_ctx t k).2 = Br p c l d m Leaf
      ∧ rightmost_ptr t = Some p
      ∧ ∀ A (f : ref → Event → A),
          f p d :: rev (tlist f l) ++ kbefore f (rm_ctx t k).1
          = rev (tlist f t) ++ kbefore f k.
Proof.
  induction t as [|p c l _ d m r IHr]; intros k Ht; [done|].
  destruct r as [|pr cr lr dr mr rr].
  - simpl. split; [done|]. exists p, c, l, d, m. split; [done|]. split; [done|].
    intros A f. rewrite rev_app_distr. simpl. done.
  - destruct (IHr (mkFrame RIGHT p c d m l :: k)) as (Hp & (p' & c' & l' & d' & m' & HX & Hlp & Hel)); [done|].
    change (rm_ctx (Br p c l d m (Br pr cr lr dr mr rr)) k)
      with (rm_ctx (Br pr cr lr dr mr rr) (mkFrame RIGHT p c d m l :: k)).
    split; [exact Hp|].
    exists p', c', l', d', m'. split; [done|]. split; [done|].
    intros A f. rewrite Hel.
    change (tlist f (Br p c l d m (Br pr cr lr dr mr rr)))
      with (tlist f l ++ f p d :: tlist f (Br pr cr lr dr mr rr)).
    rewrite rev_app_distr. cbn [kbefore f_dir f_p f_d f_sib rev].
    by rewrite <- !app_assoc.
Qed.

Lemma knext_spec k : ∀ t,
  match knext k with
  | None => ∀ A (f : ref → Event → A), kafter f k = []
  | Some q => ∃ k' c l d m r,
      plug k' (Br q c l d m r) = plug k t
      ∧ ∀ A (f : ref → Event → A), f q d :: tlist f r ++ kafter f k' = kafter f k
  end.
Proof.
  induction k as [|[fd fp fc fe fm fs] k IH]; intros t; simpl; [done|].
  destruct fd; simpl.
  - exists k, fc, t, fe, fm, fs. done.
  - apply (IH (fill (mkFrame RIGHT fp fc fe fm fs) t)).
Qed.

Lemma kprev_spec k : ∀ t,
  match kprev k with
  | None => ∀ A (f : ref → Event → A), kbefore f k = []
  | Some q => ∃ k' c l d m r,
      plug k' (Br q c l d m r) = plug k t
      ∧ ∀ A (f : ref → Event → A), f q d :: rev (tlist f l) ++ kbefore f k' = kbefore f k
  end.
Proof.
  induction k as [|[fd fp fc fe fm fs] k IH]; intros t; simpl; [done|].
  destruct fd; simpl.
  - apply (IH (fill (mkFrame LEFT fp fc fe fm fs) t)).
  - exists k, fc, fs, fe, fm, t. done.
Qed.

Lemma leftmost_ok h par t fuel :
  repr h par t → t ≠ Leaf → (height t ≤ fuel)%nat →
  leftmost fuel h (ptr t) = Ok (leftmost_ptr t).
Proof.
  revert par fuel. induction t as [|p c l IHl d m r _]; intros par fuel Hr Ht Hf; [done|].
  destruct fuel as [|fuel]; [simpl in Hf; lia|].
  simpl in Hr. destruct Hr as (Hp & Hl & _).
  cbn [leftmost ptr]. rewrite (getNode_Some _ _ _ Hp). cbn [bind getChild _left].
  destruct l as [|pl cl ll dl ml rl]; [done|].
  change (leftmost_ptr (Br p c (Br pl cl ll dl ml rl) d m r))
    with (leftmost_ptr (Br pl cl ll dl ml rl)).
  cbn [ptr]. change (Some pl) with (ptr (Br pl cl ll dl ml rl)).
  apply (IHl (Some p) fuel); try done. simpl in *. lia.
Qed.

Lemma rightmost_ok h par t fuel :
  repr h par t → t ≠ Leaf → (height t ≤ fuel)%nat →
  rightmost fuel h (ptr t) = Ok (rightmost_ptr t).
Proof.
  revert par fuel. induction t as [|p c l _ d m r IHr]; intros par fuel Hr Ht Hf; [done|].
  destruct fuel as [|fuel]; [simpl in Hf; lia|].
  simpl in Hr. destruct Hr as (Hp & _ & Hrr).
  cbn [rightmost ptr]. rewrite (getNode_Some _ _ _ Hp). cbn [bind getChild _right].
  destruct r as [|pr cr lr dr mr rr]; [done|].
  change (rightmost_ptr (Br p c l d m (Br pr cr lr dr mr rr)))
    with (rightmost_ptr (Br pr cr lr dr mr rr)).
  cbn [ptr]. change (Some pr) with (ptr (Br pr cr lr dr mr rr)).
  apply (IHr (Some p) fuel); try done. simpl in *. lia.
Qed.

Lemma climb_ok T k : ∀ t fuel,
  Rep T (plug k t) → t ≠ Leaf → (length k ≤ fuel)%nat →
  climb fuel (heap T) RIGHT (ptr t) (kptr k) = Ok (knext k).
Proof.
  induction k as [|f k IH]; intros t fuel H Ht Hf.
  - by destruct fuel.
  - destruct fuel as [|fuel]; [simpl in Hf; lia|].
    cbn [climb kptr]. rewrite (getNode_frame _ _ _ _ H). cbn [bind].
    rewrite getChild_frame_node, parent_frame_node.
    simpl knext. destruct (f_dir f) eqn:Hd.
    + destruct (decide (RIGHT = LEFT)) as [|_]; [done|].
      rewrite decide_False by (by eapply ptr_not_sib). done.
    + destruct (decide (RIGHT = RIGHT)) as [_|]; [|done].
      rewrite decide_True by done.
      rewrite <- (ptr_fill f t). apply IH; [done| |simpl in Hf; lia].
      unfold fill, mk. by destruct (f_dir f).
Qed.

Lemma climb_left_ok T k : ∀ t fuel,
  Rep T (plug k t) → t ≠ Leaf → (length k ≤ fuel)%nat →
  climb fuel (heap T) LEFT (ptr t) (kptr k) = Ok (kprev k).
Proof.
  induction k as [|f k IH]; intros t fuel H Ht Hf.
  - by destruct fuel.
  - destruct fuel as [|fuel]; [simpl in Hf; lia|].
    cbn [climb kptr]. rewrite (getNode_frame _ _ _ _ H). cbn [bind].
    rewrite getChild_frame_node, parent_frame_node.
    simpl kprev. destruct (f_dir f) eqn:Hd.
    + destruct (decide (LEFT = LEFT)) as [_|]; [|done].
      rewrite decide_True by done.
      rewrite <- (ptr_fill f t). apply IH; [done| |simpl in Hf; lia].
      unfold fill, mk. by destruct (f_dir f).
    + destruct (decide (LEFT = RIGHT)) as [|_]; [done|].
      rewrite decide_False by (by eapply ptr_not_sib). done.
Qed.

Lemma successor_ok T k p c l d m r :
  Rep T (plug k (Br p c l d m r)) →
  successor T (Some p)
  = Ok (match r with Leaf => knext k | _ => leftmost_ptr r end).
Proof.
  intros H. unfold successor.
  rewrite (getNode_Some _ _ _ (Rep_lookup _ _ _ _ _ _ _ _ H)).
  cbn [bind getChild _right _parent].
  pose proof (Rep_fuel_height _ _ _ H) as Hh.
  destruct r as [|pr cr lr dr mr rr].
  - cbn [ptr]. change (Some p) with (ptr (Br p c l d m Leaf)).
    apply climb_ok; [done|done|]. unfold fuel_of. lia.
  - cbn [ptr]. unfold minimum, orElse.
    change (Some pr) with (ptr (Br pr cr lr dr mr rr)).
    apply Rep_plug_inv in H as ((_ & _ & Hr) & _).
    eapply leftmost_ok; [exact Hr|done|].
    unfold fuel_of. simpl in *. lia.
Qed.

Lemma predecessor_ok T k p c l d m r :
  Rep T (plug k (Br p c l d m r)) →
  predecessor T (Some p)
  = Ok (match l with Leaf => kprev k | _ => rightmost_ptr l end).
Proof.
  intros H. unfold predecessor.
  rewrite (getNode_Some _ _ _ (Rep_lookup _ _ _ _ _ _ _ _ H)).
  cbn [bind getChild _left _parent].
  pose proof (Rep_fuel_height _ _ _ H) as Hh.
  destruct l as [|pl cl ll dl ml rl].
  - cbn [ptr]. change (Some p) with (ptr (Br p c Leaf d m r)).
    apply climb_left_ok; [done|done|]. unfold fuel_of. lia.
  - cbn [ptr]. unfold maximum, orElse.
    change (Some pl) with (ptr (Br pl cl ll dl ml rl)).
    apply Rep_plug_inv in H as ((_ & Hl & _) & _).
    eapply rightmost_ok; [exact Hl|done|].
    unfold fuel_of. simpl in *. lia.
Qed.

Lemma walk_ok {A} (f : ref → Event → A) T fuel : ∀ k p c l d m r acc,
  Rep T (plug k (Br p c l d m r)) →
  (length (f p d :: tlist f r ++ kafter f k) ≤ fuel)%nat →
  walk fuel T successor (λ p n, f p (data n)) (Some p) acc
  = Ok (acc ++ f p d :: tlist f r ++ kafter f k).
Proof.
  induction fuel as [|fuel IH]; intros k p c l d m r acc H Hf; [simpl in Hf; lia|].
  cbn [walk].
  rewrite (getNode_Some _ _ _ (Rep_lookup _ _ _ _ _ _ _ _ H)).
  cbn [bind data]. rewrite (successor_ok _ _ _ _ _ _ _ _ H). cbn [bind].
  destruct r as [|pr cr lr dr mr rr].
  - pose proof (knext_spec k (Br p c l d m Leaf)) as Hn.
    destruct (knext k) as [q|].
    + destruct Hn as (k' & c' & l' & d' & m' & r' & Hp & Hel).
      rewrite <- Hp in H.
      rewrite (IH k' q c' l' d' m' r' _ H).
      * simpl. rewrite <- Hel. by rewrite <- app_assoc.
      * simpl in Hf. rewrite Hel. simpl. lia.
    + rewrite Hn. by destruct fuel.
  - set (R := Br pr cr lr dr mr rr) in *.
    destruct (lm_ctx_spec R (mkFrame RIGHT p c d m l :: k)) as (Hp & (p' & c' & d' & m' & r' & HX & Hlp & Hel)); [done|].
    rewrite Hlp.
    change (plug k (Br p c l d m R)) with (plug (mkFrame RIGHT p c d m l :: k) R) in H.
    rewrite <- Hp, HX in H.
    rewrite (IH _ p' c' Leaf d' m' r' _ H).
    + rewrite Hel. simpl. by rewrite <- !app_assoc.
    + rewrite Hel. simpl in *. lia.
Qed.

Lemma walk_back_ok {A} (f : ref → Event → A) T fuel : ∀ k p c l d m r acc,
  Rep T (plug k (Br p c l d m r)) →
  (length (f p d :: rev (tlist f l) ++ kbefore f k) ≤ fuel)%nat →
  walk fuel T predecessor (λ p n, f p (data n)) (Some p) acc
  = Ok (acc ++ f p d :: rev (tlist f l) ++ kbefore f k).
Proof.
  induction fuel as [|fuel IH]; intros k p c l d m r acc H Hf; [simpl in Hf; lia|].
  cbn [walk].
  rewrite (getNode_Some _ _ _ (Rep_lookup _ _ _ _ _ _ _ _ H)).
  cbn [bind data]. rewrite (predecessor_ok _ _ _ _ _ _ _ _ H). cbn [bind].
  destruct l as [|pl cl ll dl ml rl].
  - pose proof (kprev_spec k (Br p c Leaf d m r)) as Hn.
    destruct (kprev k) as [q|].
    + destruct Hn as (k' & c' & l' & d' & m' & r' & Hp & Hel).
      rewrite <- Hp in H.
      rewrite (IH k' q c' l' d' m' r' _ H).
      * simpl. rewrite <- Hel. by rewrite <- app_assoc.
      * simpl in Hf. rewrite Hel. simpl. lia.
    + rewrite Hn. by destruct fuel.
  - set (L := Br pl cl ll dl ml rl) in *.
    destruct (rm_ctx_spec L (mkFrame LEFT p c d m r :: k)) as (Hp & (p' & c' & l' & d' & m' & HX & Hlp & Hel)); [done|].
    rewrite Hlp.
    change (plug k (Br p c L d m r)) with (plug (mkFrame LEFT p c d m r :: k) L) in H.
    rewrite <- Hp, HX in H.
    rewrite (IH _ p' c' l' d' m' Leaf _ H).
    + rewrite Hel. simpl. by rewrite <- !app_assoc.
    + rewrite Hel. simpl in *. lia.
Qed.

(** The forward traversal from the minimum lists the whole tree. *)
Lemma walk_min_ok {A} (f : ref → Event → A) T t :
  Rep T t → t ≠ Leaf →
  (let* node := minimum T None in
   walk (fuel_of T) T successor (λ p n, f p (data n)) node [])
  = Ok (tlist f t).
Proof.
  intros H Ht. unfold minimum, orElse.
  rewrite (rep_root _ _ H).
  rewrite (leftmost_ok _ None t); [|apply H|done|].
  2:{ pose proof (RB_heap_bound _ _ H). unfold fuel_of. lia. }
  cbn [bind].
  destruct (lm_ctx_spec t [] Ht) as (Hp & (p' & c' & d' & m' & r' & HX & Hlp & Hel)).
  rewrite Hlp. simpl in Hp. rewrite <- Hp, HX in H.
  rewrite (walk_ok f _ _ _ _ _ _ _ _ _ _ H).
  - simpl. rewrite Hel. simpl. by rewrite app_nil_r.
  - rewrite Hel. simpl. rewrite app_nil_r, tlist_length.
    rewrite <- Hp, HX. rewrite (Rep_length _ _ H). unfold fuel_of. lia.
Qed.

(** The backward traversal from the maximum lists it in reverse. *)
Lemma walk_max_ok {A} (f : ref → Event → A) T t :
  Rep T t → t ≠ Leaf →
  (let* node := maximum T None in
   walk (fuel_of T) T predecessor (λ p n, f p (data n)) node [])
  = Ok (rev (tlist f t)).
Proof.
  intros H Ht. unfold maximum, orElse.
  rewrite (rep_root _ _ H).
  rewrite (rightmost_ok _ None t); [|apply H|done|].
  2:{ pose proof (RB_heap_bound _ _ H). unfold fuel_of. lia. }
  cbn [bind].
  destruct (rm_ctx_spec t [] Ht) as (Hp & (p' & c' & l' & d' & m' & HX & Hlp & Hel)).
  rewrite Hlp. simpl in Hp. rewrite <- Hp, HX in H.
  rewrite (walk_back_ok f _ _ _ _ _ _ _ _ _ _ H).
  - simpl. rewrite Hel. simpl. by rewrite app_nil_r.
  - rewrite Hel. simpl. rewrite app_nil_r, length_rev, tlist_length.
    rewrite <- Hp, HX. rewrite (Rep_length _ _ H). unfold fuel_of. lia.
Qed.

Lemma getOrderedData_ok T t node :
  Rep T t → t ≠ Leaf → getOrderedData T node = Ok (elems t).
Proof.
  intros H Ht. unfold getOrderedData.
  rewrite <- tlist_elems. apply (walk_min_ok (λ _ d, d) T t H Ht).
Qed.

Lemma getOrdered_ok T t node :
  Rep T t → t ≠ Leaf → getOrdered T node = Ok (addrs t).
Proof.
  intros H Ht. unfold getOrdered.
  rewrite <- tlist_addrs. apply (walk_min_ok (λ p _, p) T t H Ht).
Qed.

Lemma getReverseOrderedData_ok T t node :
  Rep T t → t ≠ Leaf → getReverseOrderedData T node = Ok (rev (elems t)).
Proof.
  intros H Ht. unfold getReverseOrderedData.
  rewrite <- tlist_elems. apply (walk_max_ok (λ _ d, d) T t H Ht).
Qed.

(** ** Overlap search *)

Lemma search_tree_sublist q t : search_tree q t `sublist_of` elems t.
Proof.
  induction t as [|p c l IHl d m r IHr]; simpl; [done|].
  apply sublist_app.
  - destruct l; [done|]. case_bool_decide; [done|apply sublist_nil_l].
  - destruct (isColliding d q); simpl.
    + apply sublist_skip. destruct r; [done|].
      case_bool_decide; [done|apply sublist_nil_l].
    + apply sublist_cons. destruct r; [done|].
      case_bool_decide; [done|apply sublist_nil_l].
Qed.

Lemma goLeft_read h par t x :
  repr h par t →
  match ptr t with
  | Some _ => let* l := getNode h (ptr t) in Ok (bool_decide (toNumber (_max l) >= x))
  | None => Ok false
  end = Ok (match t with Leaf => false | _ => bool_decide (tmax t >= x) end).
Proof.
  destruct t as [|p c l d m r]; [done|]. simpl. intros (Hp & _).
  by rewrite (getNode_Some _ _ _ Hp).
Qed.

Lemma search_ok T q t : ∀ par fuel,
  repr (heap T) par t → t ≠ Leaf → (height t ≤ fuel)%nat →
  searchInterval_fuel fuel T q (ptr t) = Ok (search_tree q t, search_tree q t).
Proof.
  induction t as [|p c l IHl d m r IHr]; intros par fuel Hr Ht Hf; [done|].
  destruct fuel as [|fuel]; [simpl in Hf; lia|].
  simpl in Hr. destruct Hr as (Hp & Hl & Hrr).
  cbn [searchInterval_fuel ptr orElse].
  rewrite (getNode_Some _ _ _ Hp). cbn [bind getChild _left _right data].
  assert (HL : l ≠ Leaf → searchInterval_fuel fuel T q (ptr l)
                          = Ok (search_tree q l, search_tree q l)).
  { intros Hne. apply (IHl (Some p)); [done|done|simpl in Hf; lia]. }
  assert (HR : r ≠ Leaf → searchInterval_fuel fuel T q (ptr r)
                          = Ok (search_tree q r, search_tree q r)).
  { intros Hne. apply (IHr (Some p)); [done|done|simpl in Hf; lia]. }
  rewrite (goLeft_read _ _ _ _ Hl). cbn [bind].
  set (SL := match l with
             | Leaf => []
             | _ => if bool_decide (tmax l >= start q) then search_tree q l else []
             end).
  set (SR := match r with
             | Leaf => []
             | _ => if bool_decide (start d <= end_ q) then search_tree q r else []
             end).
  assert (HLstep :
    (if match l with Leaf => false | _ => bool_decide (tmax l >= start q) end
     then let* r0 := searchInterval_fuel fuel T q (ptr l) in Ok ([] ++ r0.1)
     else Ok []) = Ok SL).
  { unfold SL. destruct l; [done|]. cbv iota.
    destruct (bool_decide _); [|done]. by rewrite HL. }
  assert (HRstep : ∀ res,
    match ptr r with
    | Some _ =>
      if bool_decide (start d <= end_ q)
      then let* r0 := searchInterval_fuel fuel T q (ptr r) in Ok (res ++ r0.1)
      else Ok res
    | None => Ok res
    end = Ok (res ++ SR)).
  { intros res. unfold SR. destruct r; [simpl; by rewrite app_nil_r|].
    rewrite HR by done. cbn [ptr bind fst]. cbv iota.
    destruct (bool_decide (start d ≤ end_ q)); [done|by rewrite app_nil_r]. }
  rewrite HLstep. cbn [bind]. rewrite HRstep. cbn [bind].
  change (search_tree q (Br p c l d m r))
    with (SL ++ (if isColliding d q then [d] else []) ++ SR).
  destruct (isColliding d q); by rewrite <- ?app_assoc.
Qed.

Lemma searchInterval_ok T t q :
  Rep T t → t ≠ Leaf → searchInterval T q None = Ok (search_tree q t).
Proof.
  intros H Ht. unfold searchInterval.
  destruct (fuel_of T) as [|fuel] eqn:Hfuel; [done|].
  assert (Hs : searchInterval_fuel (S fuel) T q (ptr t)
               = Ok (search_tree q t, search_tree q t)).
  { eapply search_ok; [apply H|done|].
    pose proof (RB_heap_bound _ _ H). unfold fuel_of in Hfuel. lia. }
  destruct t as [|p c l d m r]; [done|].
  cbn [searchInterval_fuel orElse ptr] in *. rewrite (rep_root _ _ H). cbn [ptr].
  rewrite Hs. done.
Qed.

Lemma sublist_StronglySorted {A} (R : relation A) (l k : list A) :
  l `sublist_of` k → StronglySorted R k → StronglySorted R l.
Proof.
  induction 1 as [|x l k Hs IH|x l k Hs IH]; intros Hk; [done| |].
  - apply StronglySorted_inv in Hk as [Hk Hx]. constructor; [by apply IH|].
    apply Forall_forall. intros y Hy.
    eapply Forall_forall in Hx; [done|]. by eapply elem_of_sublist.
  - apply StronglySorted_inv in Hk as [Hk _]. by apply IH.
Qed.

(** ** Layout *)

Lemma addToBin_ok e bins :
  wf_event e → Forall bin_ok bins → Forall bin_ok (_addToBin e bins).
Proof.
  intros [_ He]. induction 1 as [|bin bins [Hs Hm] Hbins IH]; simpl.
  - repeat constructor; simpl; lia.
  - case_bool_decide as Hge; [|by constructor].
    constructor; [|done]. split; simpl.
    + apply StronglySorted_app_2; [|done|repeat constructor].
      intros a b Ha Hb. apply list_elem_of_singleton in Hb as ->.
      eapply Forall_forall in Hm; [|done]. unfold before. lia.
    + apply Forall_app. split; [|repeat constructor; lia].
      eapply Forall_impl; [exact Hm|]. simpl. intros; lia.
Qed.









(** ** The layout pass ends *)

Lemma repr_data_in h par t p n :
  repr h par t → p ∈ addrs t → h !! p = Some n → data n ∈ elems t.
Proof.
  revert par. induction t as [|p0 c l IHl d m r IHr]; intros par; simpl.
  - intros _ Hin. by apply elem_of_nil in Hin.
  - intros (Hp & Hl & Hr) Hin Hn.
    apply elem_of_app in Hin as [Hin|Hin].
    { apply elem_of_app. left. by eapply IHl. }
    apply elem_of_app. right. apply elem_of_cons in Hin as [->|Hin].
    + rewrite Hp in Hn. injection Hn as <-. simpl. by left.
    + right. by eapply IHr.
Qed.

Lemma Rep_data_in T t n : Rep T t → n ∈ heap T → data n ∈ elems t.
Proof.
  intros H Hn. apply list_elem_of_lookup in Hn as [p Hp].
  eapply repr_data_in; [apply H| |exact Hp].
  rewrite (rep_addrs _ _ H). apply elem_of_seq. apply lookup_lt_Some in Hp. lia.
Qed.

Lemma elem_of_ssort x l : x ∈ ssort l ↔ x ∈ l.
Proof.
  unfold ssort. 
  assert (∀ acc, x ∈ foldl (λ acc d, sinsert d acc) acc l ↔ x ∈ acc ∨ x ∈ l) as H.
  { induction l as [|d l IH]; intros acc; simpl; [set_solver|].
    rewrite IH, sinsert_elem. set_solver. }
  rewrite H. set_solver.
Qed.

Lemma filter_length_mono {A} (P Q : A → Prop) `{∀ x, Decision (P x)} `{∀ x, Decision (Q x)}
    (l : list A) :
  (∀ x, x ∈ l → Q x → P x) → (length (filter Q l) ≤ length (filter P l))%nat.
Proof.
  induction l as [|x l IH]; intros Himp; [done|].
  rewrite !filter_cons.
  assert (length (filter Q l) ≤ length (filter P l))%nat.
  { apply IH. intros y Hy. apply Himp. by right. }
  destruct (decide (Q x)) as [Hq|Hq]; destruct (decide (P x)) as [Hp|Hp]; simpl; try lia.
  exfalso. apply Hp. apply Himp; [by left|done].
Qed.

Lemma filter_length_strict {A} (P Q : A → Prop) `{∀ x, Decision (P x)} `{∀ x, Decision (Q x)}
    (l : list A) e :
  (∀ x, x ∈ l → Q x → P x) → e ∈ l → P e → ¬ Q e →
  (length (filter Q l) < length (filter P l))%nat.
Proof.
  induction l as [|x l IH]; intros Himp He Hp Hq; [by apply elem_of_nil in He|].
  rewrite !filter_cons.
  assert (length (filter Q l) ≤ length (filter P l))%nat.
  { apply filter_length_mono. intros y Hy. apply Himp. by right. }
  apply elem_of_cons in He as [<-|He].
  - rewrite (decide_False (P := Q e)) by done.
    rewrite (decide_True (P := P e)) by done. simpl. lia.
  - assert (length (filter Q l) < length (filter P l))%nat.
    { apply IH; try done. intros y Hy. apply Himp. by right. }
    destruct (decide (Q x)) as [Hqx|Hqx]; destruct (decide (P x)) as [Hpx|Hpx];
      simpl; try lia.
    exfalso. apply Hpx. apply Himp; [by left|done].
Qed.

Section Total.
Context (env : Env) (T : Tree) (t : tree).
Hypothesis HRep : Rep T t.
Hypothesis Hne : t ≠ Leaf.

Lemma unrendered_mono c c' :
  _renderedEvents c ⊆ _renderedEvents c' →
  (length (unrendered t c') ≤ length (unrendered t c))%nat.
Proof. intros Hs. apply filter_length_mono. intros x _ Hx. set_solver. Qed.

Lemma unrendered_mark c e :
  e ∈ elems t → isRendered c e = false →
  (length (unrendered t (_setIsRendered c e)) < length (unrendered t c))%nat.
Proof.
  intros He Hr. unfold isRendered in Hr. apply bool_decide_eq_false in Hr.
  unfold unrendered. eapply filter_length_strict with (e := e); try done.
  - intros x _ Hx. simpl in Hx. set_solver.
  - simpl. set_solver.
Qed.

Lemma render_loop_total rec fuel :
  (∀ c evs b, _tree c = Some T → Forall (λ e, e ∈ elems t) evs →
     (length (unrendered t c) < fuel)%nat →
     ∃ c' html b', rec c evs (Some b) = (c', Ok (html, b')) ∧ render_ok T c c') →
  ∀ events html bref c,
    _tree c = Some T → Forall (λ e, e ∈ elems t) events →
    (length (unrendered t c) ≤ fuel)%nat →
    ∃ c' html' b', _render_loop rec env events html bref c = (c', Ok (html', b'))
                   ∧ render_ok T c c'.
Proof.
  intros Hrec. induction events as [|e events IH]; intros html bref c Hc Hev Hf; simpl.
  - exists c, html, bref. by split_and!.
  - apply Forall_cons in Hev as [He Hev].
    destruct (isRendered c e) eqn:Hr; simpl; [by apply IH|].
    set (c1 := _setIsRendered c e).
    pose proof (unrendered_mark c e He Hr) as Hlt. fold c1 in Hlt.
    unfold getCollisions. change (_tree c1) with (_tree c). rewrite Hc.
    rewrite (searchInterval_ok T t e HRep Hne).
    edestruct (Hrec c1 (search_tree e t)) as (c2 & h2 & b2 & Hr2 & Ht2 & Hs2 & He2 & Hw2);
      [done| |lia|].
    { apply Forall_forall. intros x Hx.
      eapply elem_of_sublist; [exact Hx|apply search_tree_sublist]. }
    rewrite Hr2.
    edestruct (IH ((html ++ h2) ++ _renderEvents env (options_width c2)
                     (default (_addToBin e (default [] bref)) b2))
                  (match bref with Some _ => Some (default (_addToBin e (default [] bref)) b2)
                                 | None => None end) c2)
      as (c3 & h3 & b3 & Hr3 & Ht3 & Hs3 & He3 & Hw3); [done|done| |].
    { pose proof (unrendered_mono c1 c2 Hs2). lia. }
    rewrite Hr3.
    exists c3, h3, b3. split; [done|]. split_and!; try done.
    + etrans; [|exact Hs3]. etrans; [|exact Hs2]. simpl. set_solver.
    + by rewrite He3, He2.
    + by rewrite Hw3, Hw2.
Qed.

Lemma render_total fuel : ∀ c evs bref,
  _tree c = Some T → Forall (λ e, e ∈ elems t) evs →
  (length (unrendered t c) < fuel)%nat →
  ∃ c' html b', _render fuel env c evs bref = (c', Ok (html, b')) ∧ render_ok T c c'.
Proof.
  induction fuel as [|fuel IH]; intros c evs bref Hc Hev Hf; [lia|].
  simpl. apply (render_loop_total _ fuel); try done; [|lia].
  intros c0 evs0 b0. apply IH.
Qed.
End Total.

Lemma unrendered_length t c : (length (unrendered t c) ≤ length (elems t))%nat.
Proof. unfold unrendered. apply length_filter. Qed.

Lemma setEvents_ok c events :
  events ≠ [] →
  ∃ T t, setEvents c events = (set_events (set_tree c T) (ssort events), Ok (ssort events))
         ∧ insertAll (newTree comparator) events = Ok T
         ∧ Rep T t ∧ RB t ∧ t ≠ Leaf ∧ elems t = ssort events.
Proof.
  intros Hne.
  destruct (build_ok comparator events) as (T & t & Hi & H & HRB & Hc & Hs & Hl & Hel).
  specialize (Hel eq_refl).
  assert (Ht : t ≠ Leaf).
  { intros ->. simpl in Hel. symmetry in Hel. apply (f_equal length) in Hel.
    rewrite ssort_length in Hel. by destruct events. }
  exists T, t. unfold setEvents. rewrite Hi.
  rewrite (getOrderedData_ok T t None H Ht), Hel. done.
Qed.

Lemma layOutDay_total env c events :
  events ≠ [] →
  ∃ c', layOutDay env c events = (c', Ok (ssort events))
        ∧ _events c' = Some (ssort events)
        ∧ options_width c' = options_width c.
Proof.
  intros Hne.
  destruct (setEvents_ok c events Hne) as (T & t & Hs & Hi & H & HRB & Ht & Hel).
  unfold layOutDay. rewrite Hs. unfold render. cbn [_events set_events].
  set (c1 := clear (set_events (set_tree c T) (ssort events))).
  destruct (render_total env T t H Ht (S (length (ssort events))) c1 (ssort events) None)
    as (c2 & html & b & Hr & Ht2 & Hs2 & He2 & Hw2).
  - done.
  - rewrite <- Hel. apply Forall_forall. auto.
  - pose proof (unrendered_length t c1). rewrite <- Hel, elems_length.
    rewrite <- elems_length. lia.
  - rewrite Hr. eexists. split; [done|]. simpl. split; [by rewrite He2|by rewrite Hw2].
Qed.


(** ** Auxiliary facts *)

Lemma black_path_exists h par t n :
  repr h par t → rbt n t → black_path h (ptr t) n.
Proof.
  revert par n. induction t as [|p c l IHl d m r _]; intros par n; simpl.
  - intros _ Hrb. inversion Hrb. constructor.
  - intros (Hp & Hl & Hr) Hrb.
    inversion Hrb as [|? ? ? ? ? n1 Hcl Hcr Hl1 Hr1|? ? ? ? ? n1 Hl1 Hr1]; subst.
    + pose proof (bp_node h p _ LEFT n Hp (IHl _ _ Hl Hl1)) as Hb. exact Hb.
    + pose proof (bp_node h p _ LEFT n1 Hp (IHl _ _ Hl Hl1)) as Hb. exact Hb.
Qed.

Lemma sinsert_perm d l : sinsert d l ≡ₚ d :: l.
Proof.
  induction l as [|x l IH]; simpl; [done|].
  case_decide; [done|]. rewrite IH. apply Permutation_swap.
Qed.

Lemma ssort_perm l : ssort l ≡ₚ l.
Proof.
  unfold ssort. change l with ([] ++ l) at 2. generalize (@nil Event).
  induction l as [|d l IH]; intros acc; simpl; [by rewrite app_nil_r|].
  rewrite IH, sinsert_perm. simpl. apply Permutation_middle.
Qed.

Lemma search_tree_colliding q t :
  Forall (λ e, isColliding e q = true) (search_tree q t).
Proof.
  induction t as [|p c l IHl d m r IHr]; simpl; [constructor|].
  apply Forall_app. split; [|apply Forall_app; split].
  - destruct l; [constructor|]. case_bool_decide; [done|constructor].
  - destruct (isColliding d q) eqn:Hc; repeat constructor. done.
  - destruct r; [constructor|]. case_bool_decide; [done|constructor].
Qed.

Lemma elem_of_concat {A} (x : A) (ls : list (list A)) :
  x ∈ concat ls ↔ ∃ l, l ∈ ls ∧ x ∈ l.
Proof.
  induction ls as [|l ls IH]; simpl.
  - split; [by intros ?%elem_of_nil|]. intros (l & Hl%elem_of_nil & _). done.
  - rewrite elem_of_app, IH. split.
    + intros [Hx|(l' & Hl' & Hx)]; [exists l; split; [by left|done]|].
      exists l'. split; [by right|done].
    + intros (l' & [->|Hl']%elem_of_cons & Hx); [by left|]. right. by exists l'.
Qed.

Lemma elem_of_renderEvents env w bins r :
  r ∈ _renderEvents env w bins ↔
  ∃ level bin e, bins !! level = Some bin ∧ e ∈ bin_events bin
    ∧ r = render_event env e
            (Ndiv (Number_of_Z w) (Number_of_Z (Z.of_nat (length bins)))) level.
Proof.
  unfold _renderEvents. rewrite elem_of_concat. split.
  - intros (l & Hl & Hr). apply elem_of_lookup_imap in Hl as (i & bin & -> & Hi).
    unfold render_bin in Hr. apply list_elem_of_fmap in Hr as (e & -> & He).
    by exists i, bin, e.
  - intros (i & bin & e & Hi & He & ->).
    exists (render_bin env w (length bins) i bin). split.
    + apply elem_of_lookup_imap. by exists i, bin.
    + unfold render_bin. apply list_elem_of_fmap. by exists e.
Qed.

Lemma StronglySorted_pair {A} (R : relation A) (l : list A) a b :
  StronglySorted R l → a ∈ l → b ∈ l → a ≠ b → R a b ∨ R b a.
Proof.
  induction 1 as [|x l Hs IH Hx]; intros Ha Hb Hne; [by apply elem_of_nil in Ha|].
  rewrite Forall_forall in Hx.
  apply elem_of_cons in Ha as [->|Ha]; apply elem_of_cons in Hb as [->|Hb].
  - done.
  - left. by apply Hx.
  - right. by apply Hx.
  - by apply IH.
Qed.

Lemma elem_of_ins_tree cmp d new t :
  d ∈ elems new → d ∈ elems (ins_tree cmp d new t).
Proof.
  intros Hn. induction t as [|p c l IHl e m r IHr]; simpl; [done|].
  destruct (cmp d e); simpl; set_solver.
Qed.

Lemma repr_addrs_elems h par t :
  repr h par t → Forall2 (λ p d, data <$> h !! p = Some d) (addrs t) (elems t).
Proof.
  revert par. induction t as [|p c l IHl d m r IHr]; intros par; simpl; [constructor|].
  intros (Hp & Hl & Hr). apply Forall2_app; [by eapply IHl|].
  constructor; [by rewrite Hp|by eapply IHr].
Qed.


(** ** The statements of the specification *)

(** C1: whatever intervals are inserted, one after the other, into an empty
    tree, every insertion succeeds and the tree then has a black root, no
    red node with a red child, and the same number of black nodes on every
    path from the root down to a missing child (such paths exist).  The
    list is arbitrary, so this holds after each insertion. *)
Theorem C1_red_black_after_inserts (cmp : Event → Event → Direction) (evs : list Event) :
  ∃ T, insertAll (newTree cmp) evs = Ok T
       ∧ root_black T ∧ no_red_red T ∧ black_balanced T
       ∧ ∃ b, black_path (heap T) (_root T) b.
Proof.
  destruct (build_ok cmp evs) as (T & t & Hi & H & HRB & _).
  exists T. split_and!; eauto using root_black_Rep, no_red_red_Rep, black_balanced_Rep.
  destruct HRB as [_ [n Hn]]. exists n. rewrite (rep_root _ _ H).
  eapply black_path_exists; [apply H|done].
Qed.

(** C2 fails in the code: [insert] sets [_max] of the new node only, and
    only a rotation recomputes it.  After inserting [50, 60] and then
    [70, 80] the root still caches 60 although 80 is in its subtree. *)
Theorem C2_max_not_maintained :
  Forall wf_event stale_events
  ∧ ∃ T, insertAll (newTree comparator) stale_events = Ok T ∧ ¬ augmented T.
Proof.
  split. { repeat constructor; vm_compute; done. }
  exists (mkTree [mkNode (mkEvent 1 50 60) None (Some 1%nat) None (Some 60) BLACK;
                  mkNode (mkEvent 2 70 80) None None (Some 0%nat) (Some 80) RED]
                 (Some 0%nat) comparator 2).
  split; [vm_compute; reflexivity|].
  intros Haug.
  destruct (Haug 0%nat _ eq_refl) as (m & Hm & Hle & _).
  simpl in Hm. injection Hm as <-.
  assert (Hd : descendant
    [mkNode (mkEvent 1 50 60) None (Some 1%nat) None (Some 60) BLACK;
     mkNode (mkEvent 2 70 80) None None (Some 0%nat) (Some 80) RED] 0 1).
  { eapply desc_child with (dir := RIGHT); [reflexivity|reflexivity|apply desc_refl]. }
  specialize (Hle 1%nat _ Hd eq_refl). simpl in Hle. lia.
Qed.

(** C3 fails in the code, for the same reason: the search prunes a left
    subtree by its cached [_max].  In the tree of [missed_events] the
    interval [25, 100] overlaps the query [90, 95] and is not returned. *)
Theorem C3_search_misses_overlap :
  Forall wf_event missed_events ∧ wf_event missed_query
  ∧ ∃ T, insertAll (newTree comparator) missed_events = Ok T
         ∧ searchInterval T missed_query None = Ok []
         ∧ bruteForce T missed_query = [mkEvent 4 25 100].
Proof.
  split. { repeat constructor; vm_compute; done. }
  split. { split; vm_compute; done. }
  eexists. split; [vm_compute; reflexivity|]. split; vm_compute; reflexivity.
Qed.

(** C4 fails in the code.  [_render] gathers the events of a round with
    [searchInterval], which misses overlaps (see [C3_search_misses_overlap]):
    on the tree of [split_events] the search for [12, 19] does not return
    [11, 18], although the two collide.  The layout call then emits both in
    column 0, at the same [left]: they overlap in more than a point and
    share a column. *)
Theorem C4_overlapping_events_share_column :
  Forall wf_event split_events ∧ NoDup (id <$> split_events)
  ∧ ∃ c' T r1 r2,
      layOutDay env0 cal0 split_events = (c', Ok (ssort split_events))
      ∧ r1 ∈ innerHTML c' ∧ r2 ∈ innerHTML c'
      ∧ r_event r1 = mkEvent 1 12 19 ∧ r_event r2 = mkEvent 4 11 18
      ∧ isColliding (r_event r1) (r_event r2) = true
      ∧ start (r_event r1) < end_ (r_event r2)
      ∧ start (r_event r2) < end_ (r_event r1)
      ∧ r_level r1 = r_level r2
      ∧ r_left r1 = r_left r2
      ∧ _tree c' = Some T
      ∧ getCollisions c' (mkEvent 1 12 19) = Ok [mkEvent 1 12 19; mkEvent 2 12 13]
      ∧ mkEvent 4 11 18 ∈ bruteForce T (mkEvent 1 12 19).
Proof.
  split. { repeat constructor; vm_compute; done. }
  split. { vm_compute. repeat (constructor; [set_solver|]). constructor. }
  eexists _, _,
    (render_event env0 (mkEvent 1 12 19) (Ndiv (Number_of_Z 600) (Number_of_Z 3)) 0),
    (render_event env0 (mkEvent 4 11 18) (Ndiv (Number_of_Z 600) (Number_of_Z 1)) 0).
  split; [vm_compute; reflexivity|].
  split; [vm_compute; repeat first [apply list_elem_of_here|apply list_elem_of_further]|].
  split; [vm_compute; repeat first [apply list_elem_of_here|apply list_elem_of_further]|].
  split; [reflexivity|]. split; [reflexivity|]. split; [reflexivity|].
  split; [reflexivity|]. split; [reflexivity|]. split; [reflexivity|].
  split; [vm_compute; reflexivity|]. split; [vm_compute; reflexivity|].
  split; [vm_compute; reflexivity|].
  vm_compute. repeat first [apply list_elem_of_here|apply list_elem_of_further].
Qed.

(** Two events that touch, [0, 10] and [10, 20], collide under the
    closed-interval test and are put in column 0 both: [_addToBin] takes an
    event whose start has reached the [max] of the bin. *)
Lemma touching_events_share_column :
  Forall wf_event touching_events
  ∧ ∃ c' r1 r2,
      layOutDay env0 cal0 touching_events = (c', Ok touching_events)
      ∧ r1 ∈ innerHTML c' ∧ r2 ∈ innerHTML c'
      ∧ id (r_event r1) ≠ id (r_event r2)
      ∧ r_level r1 = r_level r2
      ∧ isColliding (r_event r1) (r_event r2) = true.
Proof.
  split. { repeat constructor; vm_compute; done. }
  eexists _, (render_event env0 (mkEvent 1 0 10) (Ndiv (Number_of_Z 600) (Number_of_Z 1)) 0),
             (render_event env0 (mkEvent 2 10 20) (Ndiv (Number_of_Z 600) (Number_of_Z 1)) 0).
  split; [vm_compute; reflexivity|].
  split; [vm_compute; repeat first [apply list_elem_of_here|apply list_elem_of_further]|].
  split; [vm_compute; repeat first [apply list_elem_of_here|apply list_elem_of_further]|].
  split; [vm_compute; done|]. split; reflexivity.
Qed.

(** C5: the intervals of a non-empty list, inserted one after the other,
    come back from [getOrderedData] in non-decreasing order of [start], the
    same intervals as inserted, and those with the same [start] in the order
    of their insertion.  (On the empty tree the call throws, see
    [C8_queries_fail_unchanged].) *)
Theorem C5_ordered_and_stable (evs : list Event) :
  evs ≠ [] →
  ∃ T out,
    insertAll (newTree comparator) evs = Ok T
    ∧ getOrderedData T None = Ok out
    ∧ StronglySorted le_start out
    ∧ out ≡ₚ evs
    ∧ ∀ s, filter (λ e, start e = s) out = filter (λ e, start e = s) evs.
Proof.
  intros Hne.
  destruct (setEvents_ok cal0 evs Hne) as (T & t & _ & Hi & H & _ & Ht & Hel).
  exists T, (ssort evs). split; [done|].
  split; [by rewrite (getOrderedData_ok T t None H Ht), Hel|].
  split; [apply ssort_sorted|]. split; [apply ssort_perm|].
  intros s. apply ssort_stable.
Qed.

(** Three events, two of them with the same start. *)
Lemma C5_witness :
  ∃ T out,
    insertAll (newTree comparator) [mkEvent 1 20 100; mkEvent 2 20 100; mkEvent 3 10 15] = Ok T
    ∧ getOrderedData T None = Ok out
    ∧ StronglySorted le_start out
    ∧ out ≡ₚ [mkEvent 1 20 100; mkEvent 2 20 100; mkEvent 3 10 15]
    ∧ ∀ s, filter (λ e, start e = s) out
           = filter (λ e, start e = s) [mkEvent 1 20 100; mkEvent 2 20 100; mkEvent 3 10 15].
Proof.
  apply (C5_ordered_and_stable [mkEvent 1 20 100; mkEvent 2 20 100; mkEvent 3 10 15]).
  discriminate.
Defined.





(** C7, amended: on a tree built by insertions, [insert] always succeeds,
    also for an interval that is in the tree already; the call evaluates to
    [undefined], not to the node.  It is [_insertNode] that returns the new
    node, which holds the interval.  Afterwards the size is one more and
    the interval is among the ordered data. *)
Theorem C7_insert_succeeds_returns_undefined
    (cmp : Event → Event → Direction) (evs : list Event) (d : Event) :
  ∃ T T' T1 out,
    insertAll (newTree cmp) evs = Ok T
    ∧ insert T d = Ok (T', VUndefined)
    ∧ _insertNode (fuel_of T) T d = Ok (T1, Some (length (heap T)))
    ∧ data <$> heap T1 !! length (heap T) = Some d
    ∧ getSize T' = S (getSize T)
    ∧ getOrderedData T' None = Ok out
    ∧ d ∈ out ∧ length out = S (length evs).
Proof.
  destruct (build_ok cmp evs) as (T & t & Hi & H & HRB & _ & _ & Hlen & _).
  destruct (insert_ok T t d H HRB) as (T' & t' & Hins & H' & _ & (p & m & Hel) & _ & Hs & Hl').
  destruct (insertNode_ok T t d (fuel_of T) H) as (T1 & Hn & H1 & _).
  { unfold fuel_of. lia. }
  assert (Hd : d ∈ elems t').
  { rewrite Hel. apply elem_of_ins_tree. simpl. set_solver. }
  assert (Ht' : t' ≠ Leaf). { intros ->. simpl in Hd. by apply elem_of_nil in Hd. }
  exists T, T', T1, (elems t'). split_and!; try done.
  - by rewrite (Rep_lookup _ _ _ _ _ _ _ _ H1).
  - by apply getOrderedData_ok.
  - rewrite elems_length, (Rep_length _ _ H'). lia.
Qed.

(** C7 as worded fails: no call of [insert] evaluates to a node. *)
Lemma C7_counterexample :
  ¬ (∀ d, ∃ T' p, insert (newTree comparator) d = Ok (T', VNode p)).
Proof.
  intros H. destruct (H event1) as (T' & p & Heq). vm_compute in Heq. discriminate.
Qed.

(** C8: [render] on a calendar without events throws [Error("No events
    set")] and leaves the calendar as it is; on a tree without root
    [minimum], [maximum], the three ordered traversals and [searchInterval]
    throw a [TypeError] ([null] has no method).  These read the tree only,
    so it is the same tree after the call.  [layOutDay] of no events fails
    in the same way, after it has given the calendar a new, empty tree. *)
Theorem C8_queries_fail_unchanged
    (env : Env) (c : Calendar) (T : Tree) (node : option ref) (q : Event) :
  _events c = None → _root T = None →
  render env c = (c, Throw (Error "No events set"))
  ∧ minimum T None = Throw TypeError
  ∧ maximum T None = Throw TypeError
  ∧ getOrderedData T node = Throw TypeError
  ∧ getOrdered T node = Throw TypeError
  ∧ getReverseOrderedData T node = Throw TypeError
  ∧ searchInterval T q None = Throw TypeError
  ∧ layOutDay env c [] = (set_tree c (newTree comparator), Throw TypeError).
Proof.
  intros He Hr. split_and!.
  - unfold render. by rewrite He.
  - unfold minimum, fuel_of, orElse. by rewrite Hr.
  - unfold maximum, fuel_of, orElse. by rewrite Hr.
  - unfold getOrderedData, minimum, fuel_of, orElse. by rewrite Hr.
  - unfold getOrdered, minimum, fuel_of, orElse. by rewrite Hr.
  - unfold getReverseOrderedData, maximum, fuel_of, orElse. by rewrite Hr.
  - unfold searchInterval, fuel_of. cbn [searchInterval_fuel orElse]. by rewrite Hr.
  - reflexivity.
Qed.

(** The calendar before [setEvents] and the empty tree. *)
Lemma C8_witness :
  render env0 cal0 = (cal0, Throw (Error "No events set"))
  ∧ minimum (newTree comparator) None = Throw TypeError
  ∧ maximum (newTree comparator) None = Throw TypeError
  ∧ getOrderedData (newTree comparator) (Some 0%nat) = Throw TypeError
  ∧ getOrdered (newTree comparator) (Some 0%nat) = Throw TypeError
  ∧ getReverseOrderedData (newTree comparator) (Some 0%nat) = Throw TypeError
  ∧ searchInterval (newTree comparator) event1 None = Throw TypeError
  ∧ layOutDay env0 cal0 [] = (set_tree cal0 (newTree comparator), Throw TypeError).
Proof.
  apply (C8_queries_fail_unchanged env0 cal0 (newTree comparator) (Some 0%nat) event1);
    reflexivity.
Defined.

(** C9: the three ordered traversals overwrite their argument before they
    read it: whatever node is passed, the call is the call without
    argument.  On a tree built from a non-empty list with the event
    comparator it goes through the whole tree: all intervals in order, all
    nodes in order, all intervals in reverse order. *)
Theorem C9_start_node_ignored (T : Tree) (node : option ref) :
  getOrderedData T node = getOrderedData T None
  ∧ getOrdered T node = getOrdered T None
  ∧ getReverseOrderedData T node = getReverseOrderedData T None
  ∧ ∀ evs, evs ≠ [] → insertAll (newTree comparator) evs = Ok T →
      getOrderedData T node = Ok (ssort evs)
      ∧ getReverseOrderedData T node = Ok (rev (ssort evs))
      ∧ ∃ nodes, getOrdered T node = Ok nodes
          ∧ Forall2 (λ p d, data <$> heap T !! p = Some d) nodes (ssort evs).
Proof.
  split_and!; try reflexivity.
  intros evs Hne Hi.
  destruct (setEvents_ok cal0 evs Hne) as (T0 & t & _ & Hi0 & H & _ & Ht & Hel).
  rewrite Hi in Hi0. injection Hi0 as <-.
  split; [by rewrite (getOrderedData_ok T t node H Ht), Hel|].
  split; [by rewrite (getReverseOrderedData_ok T t node H Ht), Hel|].
  exists (addrs t). split; [by apply getOrdered_ok|].
  rewrite <- Hel. eapply repr_addrs_elems. apply H.
Qed.

(** The tree of [missed_events], called with node 3: not the root, and
    without children.  The call returns all four intervals. *)
Lemma C9_witness :
  _root missed_tree = Some 0%nat
  ∧ getOrderedData missed_tree (Some 3%nat) = getOrderedData missed_tree None
  ∧ getOrdered missed_tree (Some 3%nat) = getOrdered missed_tree None
  ∧ getReverseOrderedData missed_tree (Some 3%nat)
    = getReverseOrderedData missed_tree None
  ∧ getOrderedData missed_tree (Some 3%nat)
    = Ok [mkEvent 2 20 30; mkEvent 4 25 100; mkEvent 1 50 60; mkEvent 3 70 80]
  ∧ getReverseOrderedData missed_tree (Some 3%nat)
    = Ok [mkEvent 3 70 80; mkEvent 1 50 60; mkEvent 4 25 100; mkEvent 2 20 30]
  ∧ ∃ nodes,
      getOrdered missed_tree (Some 3%nat) = Ok nodes
      ∧ Forall2 (λ p d, data <$> heap missed_tree !! p = Some d) nodes
          [mkEvent 2 20 30; mkEvent 4 25 100; mkEvent 1 50 60; mkEvent 3 70 80].
Proof.
  destruct (C9_start_node_ignored missed_tree (Some 3%nat)) as (H1 & H2 & H3 & H4).
  destruct (H4 missed_events) as (H5 & H6 & H7).
  - discriminate.
  - vm_compute. reflexivity.
  - split; [reflexivity|]. split; [exact H1|]. split; [exact H2|]. split; [exact H3|].
    split; [exact H5|]. split; [exact H6|]. exact H7.
Defined.

(** C10: on a tree built from a non-empty list, [searchInterval] succeeds
    and returns intervals in non-decreasing order of [start]: a subsequence
    of the ordered data, each colliding with the query. *)
Theorem C10_search_sorted (evs : list Event) (q : Event) :
  evs ≠ [] →
  ∃ T out,
    insertAll (newTree comparator) evs = Ok T
    ∧ searchInterval T q None = Ok out
    ∧ StronglySorted le_start out
    ∧ out `sublist_of` ssort evs
    ∧ Forall (λ e, isColliding e q = true) out.
Proof.
  intros Hne.
  destruct (setEvents_ok cal0 evs Hne) as (T & t & _ & Hi & H & _ & Ht & Hel).
  exists T, (search_tree q t). split; [done|].
  split; [by apply searchInterval_ok|].
  pose proof (search_tree_sublist q t) as Hsub. rewrite Hel in Hsub.
  split; [|split; [done|apply search_tree_colliding]].
  eapply sublist_StronglySorted; [exact Hsub|apply ssort_sorted].
Qed.

(** The tree of [missed_events], searched for [10, 30]. *)
Lemma C10_witness :
  ∃ T out,
    insertAll (newTree comparator) missed_events = Ok T
    ∧ searchInterval T (mkEvent 0 10 30) None = Ok out
    ∧ StronglySorted le_start out
    ∧ out `sublist_of` ssort missed_events
    ∧ Forall (λ e, isColliding e (mkEvent 0 10 30) = true) out.
Proof.
  apply (C10_search_sorted missed_events (mkEvent 0 10 30)). discriminate.
Defined.

(** ** Further properties of the tree *)

(** *** Size *)

(** [getSize] counts the insertions, repeated intervals included; so many
    nodes are allocated. *)
Theorem getSize_counts_inserts (cmp : Event → Event → Direction) (evs : list Event) :
  ∃ T, insertAll (newTree cmp) evs = Ok T
       ∧ getSize T = length evs
       ∧ length (heap T) = length evs.
Proof.
  destruct (build_ok cmp evs) as (T & t & Hi & _ & _ & _ & Hs & Hl & _).
  by exists T.
Qed.

(** *** Minimum and maximum *)

Lemma minimum_ok T t :
  Rep T t → t ≠ Leaf →
  ∃ p n, minimum T None = Ok (Some p) ∧ heap T !! p = Some n
         ∧ head (elems t) = Some (data n).
Proof.
  intros H Ht. unfold minimum, orElse. rewrite (rep_root _ _ H).
  rewrite (leftmost_ok _ None t); [|apply H|done|].
  2:{ pose proof (RB_heap_bound _ _ H). unfold fuel_of. lia. }
  destruct (lm_ctx_spec t [] Ht) as (Hp & (p & c & d & m & r & HX & Hlp & Hel)).
  simpl in Hp. rewrite HX in Hp. rewrite <- Hp in H.
  eexists p, _. split; [by rewrite Hlp|].
  split; [exact (Rep_lookup _ _ _ _ _ _ _ _ H)|].
  specialize (Hel _ (λ _ d, d)). rewrite !tlist_elems in Hel.
  simpl in Hel. rewrite app_nil_r in Hel. by rewrite <- Hel.
Qed.

Lemma maximum_ok T t :
  Rep T t → t ≠ Leaf →
  ∃ p n, maximum T None = Ok (Some p) ∧ heap T !! p = Some n
         ∧ last (elems t) = Some (data n).
Proof.
  intros H Ht. unfold maximum, orElse. rewrite (rep_root _ _ H).
  rewrite (rightmost_ok _ None t); [|apply H|done|].
  2:{ pose proof (RB_heap_bound _ _ H). unfold fuel_of. lia. }
  destruct (rm_ctx_spec t [] Ht) as (Hp & (p & c & l & d & m & HX & Hlp & Hel)).
  simpl in Hp. rewrite HX in Hp. rewrite <- Hp in H.
  eexists p, _. split; [by rewrite Hlp|].
  split; [exact (Rep_lookup _ _ _ _ _ _ _ _ H)|].
  specialize (Hel _ (λ _ d, d)). rewrite !tlist_elems in Hel.
  simpl in Hel. rewrite app_nil_r in Hel.
  rewrite <- (rev_involutive (elems t)), <- Hel. simpl. by rewrite last_snoc.
Qed.

Lemma sorted_head_le l x :
  StronglySorted le_start l → head l = Some x → Forall (λ e, start x ≤ start e) l.
Proof.
  destruct 1 as [|y l Hs Hy]; [done|]. intros [= ->].
  constructor; [lia|]. exact Hy.
Qed.

Lemma sorted_last_ge l x :
  StronglySorted le_start l → last l = Some x → Forall (λ e, start e ≤ start x) l.
Proof.
  induction 1 as [|y l Hs IH Hy]; [done|]. intros Hl.
  destruct l as [|z l'].
  - injection Hl as ->. repeat constructor. lia.
  - change (last (y :: z :: l')) with (last (z :: l')) in Hl.
    constructor; [|by apply IH].
    assert (x ∈ z :: l') as Hx by (by apply last_Some_elem_of).
    rewrite Forall_forall in Hy. by apply Hy.
Qed.

(** On a tree built from a non-empty list, [minimum()] is the node of the
    first interval of the ordered data and [maximum()] the node of the
    last: no interval starts before the one, none after the other. *)
Theorem minimum_maximum_bounds (evs : list Event) :
  evs ≠ [] →
  ∃ T p q np nq,
    insertAll (newTree comparator) evs = Ok T
    ∧ minimum T None = Ok (Some p) ∧ heap T !! p = Some np
    ∧ maximum T None = Ok (Some q) ∧ heap T !! q = Some nq
    ∧ head (ssort evs) = Some (data np) ∧ last (ssort evs) = Some (data nq)
    ∧ data np ∈ evs ∧ data nq ∈ evs
    ∧ ∀ e, e ∈ evs → start (data np) ≤ start e ∧ start e ≤ start (data nq).
Proof.
  intros Hne.
  destruct (setEvents_ok cal0 evs Hne) as (T & t & _ & Hi & H & _ & Ht & Hel).
  destruct (minimum_ok T t H Ht) as (p & np & Hmin & Hp & Hhd).
  destruct (maximum_ok T t H Ht) as (q & nq & Hmax & Hq & Hla).
  rewrite Hel in Hhd, Hla.
  exists T, p, q, np, nq. split_and!; try done.
  - apply elem_of_ssort. by apply head_Some_elem_of.
  - apply elem_of_ssort. by apply last_Some_elem_of.
  - intros e He. apply elem_of_ssort in He.
    pose proof (sorted_head_le _ _ (ssort_sorted evs) Hhd) as H1.
    pose proof (sorted_last_ge _ _ (ssort_sorted evs) Hla) as H2.
    rewrite Forall_forall in H1, H2. split; [by apply H1|by apply H2].
Qed.

(** Four events, as an instance. *)
Lemma minimum_maximum_bounds_witness :
  ∃ T p q np nq,
    insertAll (newTree comparator) missed_events = Ok T
    ∧ minimum T None = Ok (Some p) ∧ heap T !! p = Some np
    ∧ maximum T None = Ok (Some q) ∧ heap T !! q = Some nq
    ∧ head (ssort missed_events) = Some (data np)
    ∧ last (ssort missed_events) = Some (data nq)
    ∧ data np ∈ missed_events ∧ data nq ∈ missed_events
    ∧ ∀ e, e ∈ missed_events → start (data np) ≤ start e ∧ start e ≤ start (data nq).
Proof. apply (minimum_maximum_bounds missed_events). discriminate. Defined.

(** *** Black height and depth *)

Lemma blackHeight_loop_ok h : ∀ t par fuel acc,
  repr h par t → (height t ≤ fuel)%nat →
  blackHeight_loop fuel h (ptr t) acc = Ok (acc + left_blacks t)%nat.
Proof.
  induction t as [|p c l IHl d m r _]; intros par fuel acc Hr Hf.
  - destruct fuel; simpl; f_equal; lia.
  - destruct fuel as [|fuel]; [simpl in Hf; lia|].
    simpl in Hr. destruct Hr as (Hp & Hl & _).
    cbn [blackHeight_loop ptr]. rewrite (getNode_Some _ _ _ Hp).
    cbn [bind getChild _left].
    destruct l as [|pl cl ll dl ml rl].
    + cbn [ptr bind]. destruct fuel; simpl; f_equal; lia.
    + cbn [ptr]. pose proof Hl as (Hpl & _).
      rewrite (getNode_Some _ _ _ Hpl). cbn [bind].
      change (Some pl) with (ptr (Br pl cl ll dl ml rl)).
      rewrite (IHl (Some p) fuel); [|done|simpl in *; lia].
      unfold isBlack. cbn [_color left_blacks color_of]. f_equal.
      destruct cl; simpl; lia.
Qed.

Lemma rbt_left_blacks n t :
  rbt n t → t ≠ Leaf →
  (left_blacks t + match color_of t with BLACK => 1 | RED => 0 end = n + 1)%nat.
Proof.
  induction 1 as [|p l d m r n Hcl Hcr Hl IHl Hr _|p l d m r n Hl IHl Hr _];
    intros Hne; [done| |].
  - cbn [left_blacks color_of]. rewrite Hcl.
    destruct l as [|pl cl ll dl ml rl]; [inversion Hl; simpl; lia|].
    specialize (IHl ltac:(done)). rewrite Hcl in IHl. lia.
  - cbn [left_blacks color_of].
    destruct l as [|pl cl ll dl ml rl]; [inversion Hl; simpl; lia|].
    specialize (IHl ltac:(done)). destruct (color_of (Br pl cl ll dl ml rl)); lia.
Qed.

Lemma getBlackHeight_Rep T t n :
  Rep T t → color_of t = BLACK → rbt n t → getBlackHeight T None = Ok n.
Proof.
  intros H Hc Hrb. unfold getBlackHeight, orElse. rewrite (rep_root _ _ H).
  rewrite (blackHeight_loop_ok _ t None); [|apply H|].
  2:{ pose proof (RB_heap_bound _ _ H). unfold fuel_of. lia. }
  f_equal. destruct t as [|p c l d m r]; [by inversion Hrb|].
  pose proof (rbt_left_blacks _ _ Hrb ltac:(done)) as Hlb.
  rewrite Hc in Hlb. lia.
Qed.

(** [getBlackHeight()] on a tree built by insertions returns the number of
    black nodes that every path from the root down to a missing child
    passes; on the empty tree it returns 0 and does not fail. *)
Theorem getBlackHeight_counts_black_nodes
    (cmp : Event → Event → Direction) (evs : list Event) :
  ∃ T b,
    insertAll (newTree cmp) evs = Ok T
    ∧ getBlackHeight T None = Ok b
    ∧ black_path (heap T) (_root T) b
    ∧ (∀ b', black_path (heap T) (_root T) b' → b' = b)
    ∧ (b = 0%nat ↔ evs = []).
Proof.
  destruct (build_ok cmp evs) as (T & t & Hi & H & [Hc [n Hn]] & _ & _ & Hl & _).
  exists T, n. split; [done|]. split; [by eapply getBlackHeight_Rep|].
  split; [rewrite (rep_root _ _ H); eapply black_path_exists; [apply H|done]|].
  split.
  - intros b' Hb'. rewrite (rep_root _ _ H) in Hb'.
    eapply black_path_repr; [apply H|done|done].
  - pose proof (Rep_length _ _ H) as Hlen. rewrite Hl in Hlen. split.
    + intros ->. destruct t as [|p c l d m r]; [by destruct evs|].
      simpl in Hc. subst c. inversion Hn.
    + intros ->. destruct t as [|p c l d m r]; [by inversion Hn|].
      simpl in Hlen. rewrite length_app in Hlen. simpl in Hlen. lia.
Qed.

Lemma rbt_size n t : rbt n t → (2 ^ n ≤ S (length (elems t)))%nat.
Proof.
  induction 1 as [|p l d m r n Hcl Hcr Hl IHl Hr IHr|p l d m r n Hl IHl Hr IHr];
    simpl; rewrite ?length_app; simpl; lia.
Qed.

Lemma down_path_bound h : ∀ t par n len,
  repr h par t → rbt n t → down_path h (ptr t) len →
  (len ≤ 2 * n + match color_of t with BLACK => 0 | RED => 1 end)%nat.
Proof.
  induction t as [|p c l IHl d m r IHr]; intros par n len; simpl.
  - intros _ _ Hd. inversion Hd. lia.
  - intros (Hp & Hl & Hr) Hrb Hd.
    inversion Hd as [|p' n' dir len' Hn' Hd' Heq1]; subst.
    rewrite Hp in Hn'. injection Hn' as <-.
    inversion Hrb as [|? ? ? ? ? n1 Hcl Hcr Hl1 Hr1|? ? ? ? ? n1 Hl1 Hr1]; subst.
    + destruct dir; simpl in Hd'.
      * pose proof (IHl _ _ _ Hl Hl1 Hd') as Hb. rewrite Hcl in Hb. lia.
      * pose proof (IHr _ _ _ Hr Hr1 Hd') as Hb. rewrite Hcr in Hb. lia.
    + destruct dir; simpl in Hd'.
      * pose proof (IHl _ _ _ Hl Hl1 Hd') as Hb. destruct (color_of l); lia.
      * pose proof (IHr _ _ _ Hr Hr1 Hd') as Hb. destruct (color_of r); lia.
Qed.

(** The tree stays balanced: with [b] the black height that
    [getBlackHeight()] returns, no path from the root down to a missing
    child has more than [2 b] nodes, and [2 ^ b] is at most the size plus
    one.  The depth is at most twice the logarithm of the size plus one. *)
Theorem tree_depth_logarithmic (cmp : Event → Event → Direction) (evs : list Event) :
  ∃ T b,
    insertAll (newTree cmp) evs = Ok T
    ∧ getBlackHeight T None = Ok b
    ∧ (2 ^ b ≤ S (getSize T))%nat
    ∧ ∀ len, down_path (heap T) (_root T) len → (len ≤ 2 * b)%nat.
Proof.
  destruct (build_ok cmp evs) as (T & t & Hi & H & [Hc [n Hn]] & _ & Hs & Hl & _).
  exists T, n. split; [done|]. split; [by eapply getBlackHeight_Rep|].
  split.
  - pose proof (rbt_size _ _ Hn) as Hsz.
    rewrite elems_length, (Rep_length _ _ H), Hl in Hsz. unfold getSize. by rewrite Hs.
  - intros len Hd. rewrite (rep_root _ _ H) in Hd.
    pose proof (down_path_bound _ _ _ _ _ (rep_heap _ _ H) Hn Hd) as Hb.
    rewrite Hc in Hb. lia.
Qed.

(** *** Successor and predecessor *)

Lemma tlist_plug {A} (f : ref → Event → A) k : ∀ X,
  tlist f (plug k X) = rev (kbefore f k) ++ tlist f X ++ kafter f k.
Proof.
  induction k as [|[fd fp fc fe fm fs] k IH]; intros X; simpl.
  - by rewrite app_nil_r.
  - rewrite IH. unfold fill, mk. simpl. destruct fd; simpl.
    + by rewrite <- !app_assoc.
    + rewrite rev_app_distr, rev_involutive. simpl. by rewrite <- !app_assoc.
Qed.

Lemma addrs_decomp p : ∀ t k0,
  p ∈ addrs t → ∃ k c l d m r, plug k0 t = plug k (Br p c l d m r).
Proof.
  induction t as [|p0 c l IHl d m r IHr]; intros k0 Hin; simpl in Hin.
  - by apply elem_of_nil in Hin.
  - apply elem_of_app in Hin as [Hin|Hin].
    { apply (IHl (mkFrame LEFT p0 c d m r :: k0) Hin). }
    apply elem_of_cons in Hin as [->|Hin].
    { by exists k0, c, l, d, m, r. }
    apply (IHr (mkFrame RIGHT p0 c d m l :: k0) Hin).
Qed.

Lemma next_is_head k r :
  match r with Leaf => knext k | _ => leftmost_ptr r end
  = head (addrs r ++ kafter (λ p _, p) k).
Proof.
  destruct r as [|pr cr lr dr mr rr].
  - simpl. pose proof (knext_spec k Leaf) as Hn. destruct (knext k) as [q|].
    + destruct Hn as (k' & c & l & d & m & r & _ & Hel). by rewrite <- (Hel _ (λ p _, p)).
    + by rewrite Hn.
  - set (R := Br pr cr lr dr mr rr).
    destruct (lm_ctx_spec R k ltac:(done)) as (_ & (p' & c' & d' & m' & r' & _ & Hlp & Hel)).
    rewrite Hlp. specialize (Hel _ (λ p _, p)). rewrite !tlist_addrs in Hel.
    by rewrite <- Hel.
Qed.

Lemma prev_is_head k l :
  match l with Leaf => kprev k | _ => rightmost_ptr l end
  = head (rev (addrs l) ++ kbefore (λ p _, p) k).
Proof.
  destruct l as [|pl cl ll dl ml rl].
  - simpl. pose proof (kprev_spec k Leaf) as Hn. destruct (kprev k) as [q|].
    + destruct Hn as (k' & c & l & d & m & r & _ & Hel). by rewrite <- (Hel _ (λ p _, p)).
    + by rewrite Hn.
  - set (L := Br pl cl ll dl ml rl).
    destruct (rm_ctx_spec L k ltac:(done)) as (_ & (p' & c' & l' & d' & m' & _ & Hlp & Hel)).
    rewrite Hlp. specialize (Hel _ (λ p _, p)). rewrite !tlist_addrs in Hel.
    by rewrite <- Hel.
Qed.

Lemma successor_index T t i p :
  Rep T t → addrs t !! i = Some p →
  successor T (Some p) = Ok (addrs t !! S i)
  ∧ predecessor T (Some p) = Ok (match i with O => None | S j => addrs t !! j end).
Proof.
  intros H Hi.
  destruct (addrs_decomp p t [] (list_elem_of_lookup_2 _ _ _ Hi))
    as (k & c & l & d & m & r & Hd). simpl in Hd.
  pose proof (Rep_NoDup _ _ H) as Hnd.
  rewrite Hd in H.
  rewrite (successor_ok _ _ _ _ _ _ _ _ H), (predecessor_ok _ _ _ _ _ _ _ _ H).
  rewrite next_is_head, prev_is_head.
  assert (Ha : addrs t = (rev (kbefore (λ p _, p) k) ++ addrs l)
                         ++ p :: (addrs r ++ kafter (λ p _, p) k)).
  { rewrite Hd, <- tlist_addrs, tlist_plug. simpl. rewrite !tlist_addrs.
    by rewrite <- !app_assoc. }
  set (L1 := rev (kbefore (λ p _, p) k) ++ addrs l) in *.
  set (L2 := addrs r ++ kafter (λ p _, p) k) in *.
  assert (Hi' : i = length L1).
  { eapply NoDup_lookup; [exact Hnd|exact Hi|].
    rewrite Ha. by rewrite list_lookup_middle. }
  subst i. rewrite Ha. split.
  - f_equal. rewrite lookup_app_r by lia.
    replace (S (length L1) - length L1)%nat with 1%nat by lia. simpl. by destruct L2.
  - f_equal.
    assert (Hrev : rev (addrs l) ++ kbefore (λ p _, p) k = rev L1).
    { unfold L1. by rewrite rev_app_distr, rev_involutive. }
    rewrite Hrev. destruct L1 as [|x L1 _] using rev_ind; [done|].
    rewrite rev_app_distr. simpl. rewrite length_app. simpl.
    replace (length L1 + 1)%nat with (S (length L1)) by lia.
    rewrite <- app_assoc. simpl. by rewrite list_lookup_middle.
Qed.

(** On a tree built from a non-empty list, [successor] and [predecessor]
    step through the nodes in the order [getOrdered()] lists them: one
    position forward, one back, [null] at the ends.  Each undoes the
    other. *)
Theorem successor_predecessor_step
    (cmp : Event → Event → Direction) (evs : list Event) :
  evs ≠ [] →
  ∃ T nodes,
    insertAll (newTree cmp) evs = Ok T
    ∧ getOrdered T None = Ok nodes
    ∧ length nodes = length evs
    ∧ (∀ i p, nodes !! i = Some p →
         successor T (Some p) = Ok (nodes !! S i)
         ∧ predecessor T (Some p)
           = Ok (match i with O => None | S j => nodes !! j end))
    ∧ (∀ p q, p ∈ nodes → successor T (Some p) = Ok (Some q) →
         predecessor T (Some q) = Ok (Some p))
    ∧ (∀ p q, p ∈ nodes → predecessor T (Some p) = Ok (Some q) →
         successor T (Some q) = Ok (Some p)).
Proof.
  intros Hne.
  destruct (build_ok cmp evs) as (T & t & Hi & H & _ & _ & _ & Hl & _).
  assert (Ht : t ≠ Leaf).
  { intros ->. pose proof (Rep_length _ _ H) as Hlen. rewrite Hl in Hlen.
    by destruct evs. }
  exists T, (addrs t). split; [done|]. split; [by apply getOrdered_ok|].
  split; [by rewrite (Rep_length _ _ H)|].
  split; [intros i p; by apply successor_index|].
  split.
  - intros p q Hp Hs. apply list_elem_of_lookup in Hp as [i Hp].
    destruct (successor_index T t i p H Hp) as [Hs' _].
    rewrite Hs in Hs'. injection Hs' as Hq. symmetry in Hq.
    destruct (successor_index T t (S i) q H Hq) as [_ Hp']. by rewrite Hp', Hp.
  - intros p q Hp Hs. apply list_elem_of_lookup in Hp as [i Hp].
    destruct (successor_index T t i p H Hp) as [_ Hs'].
    rewrite Hs in Hs'. injection Hs' as Hq. destruct i as [|j]; [done|].
    symmetry in Hq.
    destruct (successor_index T t j q H Hq) as [Hp' _]. by rewrite Hp', Hp.
Qed.

(** Four events, as an instance. *)
Lemma successor_predecessor_step_witness :
  ∃ T nodes,
    insertAll (newTree comparator) missed_events = Ok T
    ∧ getOrdered T None = Ok nodes
    ∧ length nodes = length missed_events
    ∧ (∀ i p, nodes !! i = Some p →
         successor T (Some p) = Ok (nodes !! S i)
         ∧ predecessor T (Some p)
           = Ok (match i with O => None | S j => nodes !! j end))
    ∧ (∀ p q, p ∈ nodes → successor T (Some p) = Ok (Some q) →
         predecessor T (Some q) = Ok (Some p))
    ∧ (∀ p q, p ∈ nodes → predecessor T (Some p) = Ok (Some q) →
         successor T (Some q) = Ok (Some p)).
Proof. apply (successor_predecessor_step comparator missed_events). discriminate. Defined.

(** *** One insertion *)

Lemma sinsert_split d l :
  StronglySorted le_start l →
  ∃ l1 l2, l = l1 ++ l2 ∧ sinsert d l = l1 ++ d :: l2
           ∧ Forall (λ e, start e ≤ start d) l1
           ∧ Forall (λ e, start d < start e) l2.
Proof.
  induction 1 as [|x l Hs IH Hx]; simpl.
  - by exists [], [].
  - case_decide as Hlt.
    + exists [], (x :: l). split_and!; try done. constructor; [done|].
      eapply Forall_impl; [exact Hx|]. unfold le_start. simpl. intros; lia.
    + destruct IH as (l1 & l2 & -> & -> & H1 & H2).
      exists (x :: l1), l2. split_and!; try done. constructor; [lia|done].
Qed.

Lemma insertAll_snoc evs d : ∀ T,
  insertAll T (evs ++ [d]) = let* T1 := insertAll T evs in
                             let* r := insert T1 d in Ok (fst r).
Proof.
  induction evs as [|e evs IH]; intros T; simpl.
  - by destruct (insert T d).
  - destruct (insert T e) as [r| |]; simpl; [apply IH|done..].
Qed.

(** Inserting an interval into a tree built from a non-empty list leaves
    the intervals that were there in their order and puts the new one
    behind all that start no later and before all that start later. *)
Theorem insert_places_interval (evs : list Event) (d : Event) :
  evs ≠ [] →
  ∃ T T' l1 l2,
    insertAll (newTree comparator) evs = Ok T
    ∧ getOrderedData T None = Ok (l1 ++ l2)
    ∧ insert T d = Ok (T', VUndefined)
    ∧ getOrderedData T' None = Ok (l1 ++ d :: l2)
    ∧ Forall (λ e, start e ≤ start d) l1
    ∧ Forall (λ e, start d < start e) l2.
Proof.
  intros Hne.
  destruct (setEvents_ok cal0 evs Hne) as (T & t & _ & Hi & H & HRB & Ht & Hel).
  destruct (build_ok comparator evs) as (T0 & t0 & Hi0 & _ & _ & Hc & _).
  rewrite Hi in Hi0. injection Hi0 as <-.
  destruct (insert_ok T t d H HRB) as (T' & t' & Hins & H' & _ & (p & m & Hel') & _).
  rewrite Hc in Hel'.
  rewrite elems_ins_tree in Hel' by (rewrite Hel; apply ssort_sorted).
  destruct (sinsert_split d (elems t)) as (l1 & l2 & Hl & Hsi & H1 & H2).
  { rewrite Hel. apply ssort_sorted. }
  exists T, T', l1, l2. split_and!; try done.
  - by rewrite (getOrderedData_ok T t None H Ht), Hl.
  - assert (Ht' : t' ≠ Leaf).
    { intros ->. rewrite Hsi in Hel'. by destruct l1. }
    by rewrite (getOrderedData_ok T' t' None H' Ht'), Hel', Hsi.
Qed.

(** Four events and a fifth that starts with one of them. *)
Lemma insert_places_interval_witness :
  ∃ T T' l1 l2,
    insertAll (newTree comparator) missed_events = Ok T
    ∧ getOrderedData T None = Ok (l1 ++ l2)
    ∧ insert T (mkEvent 5 25 40) = Ok (T', VUndefined)
    ∧ getOrderedData T' None = Ok (l1 ++ mkEvent 5 25 40 :: l2)
    ∧ Forall (λ e, start e ≤ start (mkEvent 5 25 40)) l1
    ∧ Forall (λ e, start (mkEvent 5 25 40) < start e) l2.
Proof. apply (insert_places_interval missed_events (mkEvent 5 25 40)). discriminate. Defined.

(** *** The order of insertion *)

(** Intervals with pairwise different start times come out of
    [getOrderedData()] in the same order, in whatever order they were
    inserted. *)
Theorem ordered_data_insertion_order_irrelevant (evs1 evs2 : list Event) :
  evs1 ≠ [] → evs1 ≡ₚ evs2 → NoDup (start <$> evs1) →
  ∃ T1 T2 out,
    insertAll (newTree comparator) evs1 = Ok T1
    ∧ insertAll (newTree comparator) evs2 = Ok T2
    ∧ getOrderedData T1 None = Ok out
    ∧ getOrderedData T2 None = Ok out.
Proof.
  intros Hne Hperm Hnd.
  assert (Hne2 : evs2 ≠ []).
  { intros ->. apply Permutation_nil_r in Hperm. done. }
  destruct (setEvents_ok cal0 evs1 Hne) as (T1 & t1 & _ & Hi1 & H1 & _ & Ht1 & Hel1).
  destruct (setEvents_ok cal0 evs2 Hne2) as (T2 & t2 & _ & Hi2 & H2 & _ & Ht2 & Hel2).
  exists T1, T2, (ssort evs1). split_and!; try done.
  - by rewrite (getOrderedData_ok T1 t1 None H1 Ht1), Hel1.
  - rewrite (getOrderedData_ok T2 t2 None H2 Ht2), Hel2. f_equal.
    apply (StronglySorted_unique_strong le_start);
      [|apply ssort_sorted|apply ssort_sorted|by rewrite !ssort_perm].
    intros x1 x2 Hx1 Hx2 Hle1 Hle2.
    apply (proj1 (elem_of_ssort _ _)) in Hx1. apply (proj1 (elem_of_ssort _ _)) in Hx2.
    rewrite <- Hperm in Hx1.
    unfold le_start in *. assert (Hs : start x1 = start x2) by lia.
    apply list_elem_of_lookup in Hx1 as [i Hx1].
    apply list_elem_of_lookup in Hx2 as [j Hx2].
    assert (i = j).
    { eapply NoDup_lookup; [exact Hnd| |];
        rewrite list_lookup_fmap; [by rewrite Hx1|by rewrite Hx2, Hs]. }
    subst j. congruence.
Qed.

(** Three events inserted in two orders. *)
Lemma ordered_data_insertion_order_irrelevant_witness :
  ∃ T1 T2 out,
    insertAll (newTree comparator) [mkEvent 1 50 60; mkEvent 2 20 30; mkEvent 3 70 80] = Ok T1
    ∧ insertAll (newTree comparator) [mkEvent 3 70 80; mkEvent 1 50 60; mkEvent 2 20 30] = Ok T2
    ∧ getOrderedData T1 None = Ok out
    ∧ getOrderedData T2 None = Ok out.
Proof.
  apply (ordered_data_insertion_order_irrelevant
           [mkEvent 1 50 60; mkEvent 2 20 30; mkEvent 3 70 80]
           [mkEvent 3 70 80; mkEvent 1 50 60; mkEvent 2 20 30]).
  - discriminate.
  - apply (Permutation_app_comm [mkEvent 1 50 60; mkEvent 2 20 30] [mkEvent 3 70 80]).
  - vm_compute. repeat constructor; set_solver.
Defined.

(** *** Collision test *)

(** [Event.isColliding] does not depend on the order of its arguments, and
    it answers [false] exactly when one interval ends before the other
    starts. *)
Theorem isColliding_symmetric (a b : Event) :
  isColliding a b = isColliding b a
  ∧ (isColliding a b = false ↔ end_ a < start b ∨ end_ b < start a).
Proof.
  unfold isColliding. split.
  - destruct (start a <=? end_ b) eqn:H1, (end_ a >=? start b) eqn:H2,
             (start b <=? end_ a) eqn:H3, (end_ b >=? start a) eqn:H4; simpl; try done; lia.
  - destruct (start a <=? end_ b) eqn:H1, (end_ a >=? start b) eqn:H2; simpl;
      split; try done; lia.
Qed.

(** *** Search on a tree with exact maxima *)

Lemma descendant_repr h : ∀ t par q,
  repr h par t → q ∈ addrs t →
  ∃ p, ptr t = Some p ∧ descendant h p q.
Proof.
  induction t as [|p c l IHl d m r IHr]; intros par q Hr Hq; simpl in *.
  - by apply elem_of_nil in Hq.
  - destruct Hr as (Hp & Hl & Hr). exists p. split; [done|].
    apply elem_of_app in Hq as [Hq|Hq].
    { destruct (IHl _ _ Hl Hq) as (pl & Hpl & Hd).
      eapply (desc_child _ _ _ LEFT); [exact Hp|simpl; exact Hpl|exact Hd]. }
    apply elem_of_cons in Hq as [->|Hq]; [constructor|].
    destruct (IHr _ _ Hr Hq) as (pr & Hpr & Hd).
    eapply (desc_child _ _ _ RIGHT); [exact Hp|simpl; exact Hpr|exact Hd].
Qed.

Lemma elem_of_elems_repr h : ∀ t par e,
  repr h par t → e ∈ elems t → ∃ q c, q ∈ addrs t ∧ h !! q = Some c ∧ data c = e.
Proof.
  intros t par e Hr He. pose proof (repr_addrs_elems _ _ _ Hr) as HF.
  apply list_elem_of_lookup in He as [i He].
  destruct (Forall2_lookup_r _ _ _ _ _ HF He) as (q & Hq & Hd).
  destruct (h !! q) as [c|] eqn:Hc; [|done]. simpl in Hd. injection Hd as Hd.
  exists q, c. split; [by eapply list_elem_of_lookup_2|done].
Qed.

Lemma max_ub_repr T : ∀ t par,
  augmented T → repr (heap T) par t → max_ub t.
Proof.
  intros t par Haug. revert par.
  induction t as [|p c l IHl d m r IHr]; intros par Hr; [done|].
  pose proof Hr as (Hp & Hl & Hrr). simpl. split; [|split; [by eapply IHl|by eapply IHr]].
  destruct (Haug p _ Hp) as (m0 & Hm & Hle & _). simpl in Hm. subst m.
  apply Forall_forall. intros e He.
  destruct (elem_of_elems_repr _ (Br p c l d (Some m0) r) par e Hr He) as (q & cn & Hq & Hc & <-).
  destruct (descendant_repr _ _ _ _ Hr Hq) as (p' & [= <-] & Hd).
  simpl. by eapply Hle.
Qed.

Lemma max_ub_lub t : max_ub t → lub t.
Proof.
  induction t as [|p c l IHl d m r IHr]; [done|].
  intros (_ & Hl & Hr). simpl. split; [|split; [by apply IHl|by apply IHr]].
  destruct l as [|pl cl ll dl ml rl]; [constructor|]. by destruct Hl as (Hub & _).
Qed.

Lemma search_tree_complete q : ∀ t,
  StronglySorted le_start (elems t) → lub t →
  search_tree q t = filter (λ e, isColliding e q = true) (elems t).
Proof.
  induction t as [|p c l IHl d m r IHr]; intros Hs Hm; [done|].
  simpl in Hs, Hm. destruct Hm as (Hub & Hml & Hmr).
  apply StronglySorted_app in Hs as (Hlr & Hsl & Hsr).
  apply StronglySorted_inv in Hsr as [Hsr Hdr].
  cbn [search_tree elems]. rewrite filter_app, filter_cons.
  assert (HL : match l with
               | Leaf => []
               | _ => if bool_decide (tmax l >= start q) then search_tree q l else []
               end = filter (λ e, isColliding e q = true) (elems l)).
  { destruct l as [|pl cl ll dl ml rl]; [done|].
    destruct (bool_decide (tmax (Br pl cl ll dl ml rl) >= start q)) eqn:Hc; [by apply IHl|].
    apply bool_decide_eq_false in Hc. symmetry. apply filter_none.
    eapply Forall_impl; [exact Hub|]. intros e He. cbv beta in He.
    apply not_true_iff_false. apply isColliding_symmetric. left. lia. }
  assert (HR : match r with
               | Leaf => []
               | _ => if bool_decide (start d <= end_ q) then search_tree q r else []
               end = filter (λ e, isColliding e q = true) (elems r)).
  { destruct r as [|pr cr lr dr mr rr]; [done|].
    destruct (bool_decide (start d <= end_ q)) eqn:Hc; [by apply IHr|].
    apply bool_decide_eq_false in Hc. symmetry.
    apply filter_none. eapply Forall_impl; [exact Hdr|].
    intros e He. unfold le_start in He. cbv beta.
    apply not_true_iff_false. apply isColliding_symmetric. right. lia. }
  rewrite HL, HR.
  destruct (isColliding d q); [by rewrite decide_True|by rewrite decide_False].
Qed.

Lemma bruteForce_elems T t q e :
  Rep T t → e ∈ bruteForce T q ↔ e ∈ elems t ∧ isColliding e q = true.
Proof.
  intros H. unfold bruteForce. rewrite list_elem_of_filter.
  rewrite list_elem_of_fmap. split.
  - intros (Hc & n & -> & Hn). split; [by eapply Rep_data_in|done].
  - intros (He & Hc). split; [done|].
    destruct (elem_of_elems_repr _ _ _ _ (rep_heap _ _ H) He) as (p & n & _ & Hn & <-).
    exists n. split; [done|]. by eapply list_elem_of_lookup_2.
Qed.

(** Were the cached maxima exact, the search would be complete: on a tree
    built from a non-empty list in which [augmented] holds,
    [searchInterval] returns the ordered data filtered by
    [Event.isColliding], which are the intervals a scan of all nodes
    finds. *)
Theorem searchInterval_complete_if_augmented (evs : list Event) (q : Event) (T : Tree) :
  evs ≠ [] → insertAll (newTree comparator) evs = Ok T → augmented T →
  ∃ out,
    searchInterval T q None = Ok out
    ∧ out = filter (λ e, isColliding e q = true) (ssort evs)
    ∧ ∀ e, e ∈ out ↔ e ∈ bruteForce T q.
Proof.
  intros Hne Hi Haug.
  destruct (setEvents_ok cal0 evs Hne) as (T0 & t & _ & Hi0 & H & _ & Ht & Hel).
  rewrite Hi in Hi0. injection Hi0 as <-.
  exists (search_tree q t). split; [by apply searchInterval_ok|].
  assert (Hst : search_tree q t = filter (λ e, isColliding e q = true) (ssort evs)).
  { rewrite <- Hel. apply search_tree_complete.
    - rewrite Hel. apply ssort_sorted.
    - apply max_ub_lub. eapply max_ub_repr; [done|apply H]. }
  split; [done|]. intros e. rewrite (bruteForce_elems T t q e H), Hst, Hel.
  rewrite list_elem_of_filter. tauto.
Qed.

Lemma elem_of_addrs_Rep T t p n : Rep T t → heap T !! p = Some n → p ∈ addrs t.
Proof.
  intros H Hp. rewrite (rep_addrs _ _ H). apply elem_of_seq.
  apply lookup_lt_Some in Hp. lia.
Qed.

Lemma descendant_addrs h p q :
  descendant h p q → ∀ t par, repr h par t → ptr t = Some p → q ∈ addrs t.
Proof.
  induction 1 as [p|p n dir q r Hn Hch Hd IH]; intros t par Hr Hp.
  - destruct t as [|p0 c l d m rr]; [done|]. injection Hp as ->. simpl. set_solver.
  - destruct t as [|p0 c l d m rr]; [done|]. injection Hp as ->.
    destruct Hr as (Hp0 & Hl & Hrr). rewrite Hp0 in Hn. injection Hn as <-.
    simpl. destruct dir; simpl in Hch.
    + apply elem_of_app. left. by eapply IH.
    + apply elem_of_app. right. apply elem_of_cons. right. by eapply IH.
Qed.

Lemma data_of_addr h t par q c :
  repr h par t → q ∈ addrs t → h !! q = Some c → data c ∈ elems t.
Proof.
  intros Hr Hq Hc. pose proof (repr_addrs_elems _ _ _ Hr) as HF.
  apply list_elem_of_lookup in Hq as [i Hi].
  destruct (Forall2_lookup_l _ _ _ _ _ HF Hi) as (d & Hd & Hdat).
  rewrite Hc in Hdat. simpl in Hdat. injection Hdat as ->.
  by eapply list_elem_of_lookup_2.
Qed.

Lemma exact_max_at h : ∀ t par,
  repr h par t → exact_max t →
  ∀ p n, p ∈ addrs t → h !! p = Some n →
    ∃ m, _max n = Some m
      ∧ (∀ q c, descendant h p q → h !! q = Some c → end_ (data c) ≤ m)
      ∧ (∃ q c, descendant h p q ∧ h !! q = Some c ∧ end_ (data c) = m).
Proof.
  induction t as [|p0 c l IHl d m r IHr]; intros par Hr Hm p n Hp Hn.
  { by apply elem_of_nil in Hp. }
  pose proof Hr as (Hp0 & Hl & Hrr). destruct Hm as ((mx & -> & Hub & Hex) & Hml & Hmr).
  simpl in Hp. apply elem_of_app in Hp as [Hp|Hp]; [by eapply IHl|].
  apply elem_of_cons in Hp as [->|Hp]; [|by eapply IHr].
  rewrite Hp0 in Hn. injection Hn as <-. exists mx. split; [done|]. split.
  - intros q cq Hd Hq.
    pose proof (descendant_addrs _ _ _ Hd _ _ Hr eq_refl) as Hqa.
    pose proof (data_of_addr _ _ _ _ _ Hr Hqa Hq) as He.
    rewrite Forall_forall in Hub. by apply Hub.
  - apply Exists_exists in Hex as (e & He & Hend).
    destruct (elem_of_elems_repr _ (Br p0 c l d (Some mx) r) par e Hr He)
      as (q & cq & Hq & Hc & <-).
    destruct (descendant_repr _ _ _ _ Hr Hq) as (p' & [= <-] & Hd).
    by exists q, cq.
Qed.

Lemma augmented_exact_max T t : Rep T t → exact_max t → augmented T.
Proof.
  intros H Hm p n Hp.
  eapply exact_max_at; [apply H|done| |done].
  by eapply elem_of_addrs_Rep.
Qed.

Lemma descending_tree_augmented : augmented descending_tree.
Proof.
  apply (augmented_exact_max _
    (Br 1 BLACK
       (Br 3 BLACK (Br 4 RED Leaf (mkEvent 5 10 20) (Some 20) Leaf)
           (mkEvent 4 20 30) (Some 40)
           (Br 2 RED Leaf (mkEvent 3 30 40) (Some 40) Leaf))
       (mkEvent 2 40 50) (Some 60)
       (Br 0 BLACK Leaf (mkEvent 1 50 60) (Some 60) Leaf))).
  - split.
    + simpl. repeat split.
    + reflexivity.
    + simpl. symmetry. apply (Permutation_rev [0; 1; 2; 3; 4]%nat).
  - simpl. repeat split;
      (eexists; split; [reflexivity|]; split;
       [repeat (constructor; [simpl; lia|]); constructor
       |repeat first [by apply Exists_cons_hd|apply Exists_cons_tl]]).
Qed.

(** The tree of [descending_events], searched for [45, 55]: the left
    subtree of the root caches 40 and is not searched. *)
Lemma searchInterval_complete_if_augmented_witness :
  ∃ out,
    searchInterval descending_tree (mkEvent 0 45 55) None = Ok out
    ∧ out = filter (λ e, isColliding e (mkEvent 0 45 55) = true) (ssort descending_events)
    ∧ ∀ e, e ∈ out ↔ e ∈ bruteForce descending_tree (mkEvent 0 45 55).
Proof.
  apply (searchInterval_complete_if_augmented
           descending_events (mkEvent 0 45 55) descending_tree).
  - discriminate.
  - vm_compute. reflexivity.
  - exact descending_tree_augmented.
Defined.

(** *** Rotation *)

Lemma plug_nonleaf k : ∀ t, t ≠ Leaf → plug k t ≠ Leaf.
Proof.
  induction k as [|f k IH]; intros t Ht; simpl; [done|].
  apply IH. unfold fill, mk. by destruct (f_dir f).
Qed.

(** A rotation at a node of a tree built by insertions throws
    [Error("Child is null")] when the node has no child on the side
    opposite to the direction, and changes nothing.  Else that child
    becomes the parent of the node, and the ordered data and the size are
    as before. *)
Theorem rotate_keeps_order
    (cmp : Event → Event → Direction) (evs : list Event) (T : Tree)
    (p : ref) (n : Node) (dir : Direction) :
  insertAll (newTree cmp) evs = Ok T → heap T !! p = Some n →
  match getChild n (opposite dir) with
  | None => _rotate T (Some p) dir = Throw (Error "Child is null")
  | Some q =>
    ∃ T' n' out,
      _rotate T (Some p) dir = Ok T'
      ∧ getOrderedData T None = Ok out
      ∧ getOrderedData T' None = Ok out
      ∧ getSize T' = getSize T
      ∧ heap T' !! p = Some n' ∧ _parent n' = Some q
  end.
Proof.
  intros Hi Hp.
  destruct (build_ok cmp evs) as (T0 & t & Hi0 & H & _).
  rewrite Hi in Hi0. injection Hi0 as <-.
  destruct (addrs_decomp p t [] (elem_of_addrs_Rep _ _ _ _ H Hp))
    as (k & c & l & d & m & r & Hd). simpl in Hd.
  assert (Ht : t ≠ Leaf) by (rewrite Hd; by apply plug_nonleaf).
  pose proof (getOrderedData_ok T t None H Ht) as Hord.
  rewrite Hd in H.
  pose proof (Rep_lookup _ _ _ _ _ _ _ _ H) as Hn. rewrite Hp in Hn. injection Hn as ->.
  assert (Hthrow : ∀ dir, getChild (mkNode d (ptr l) (ptr r) (kptr k) m c) (opposite dir) = None →
            _rotate T (Some p) dir = Throw (Error "Child is null")).
  { intros dir0 Hnone. unfold _rotate. rewrite (getNode_Some _ _ _ Hp). cbn [bind].
    destruct dir0; simpl in Hnone |- *; by rewrite Hnone. }
  assert (Hrot : ∀ dir X', rot dir (Br p c l d m r) = Some X' →
            ∃ T', _rotate T (Some p) dir = Ok T' ∧ Rep T' (plug k X')
                  ∧ getOrderedData T' None = Ok (elems t) ∧ getSize T' = getSize T).
  { intros dir0 X' HX.
    destruct (rotate_ok T k dir0 _ X' H HX) as (T' & Hr & H' & _ & Hs).
    exists T'. split; [done|]. split; [done|]. split; [|done].
    assert (Hel : elems (plug k X') = elems t).
    { rewrite Hd. apply elems_plug_ext. by eapply rot_elems. }
    rewrite <- Hel. apply getOrderedData_ok; [done|].
    apply plug_nonleaf. destruct dir0, l, r; simpl in HX; try done; by injection HX as <-. }
  destruct dir; cbn [opposite getChild _left _right].
  - destruct r as [|py cy b dy my g]; [by apply (Hthrow LEFT)|]. cbn [ptr].
    destruct (Hrot LEFT _ eq_refl) as (T' & Hr & H' & Ho & Hs).
    eexists T', _, (elems t). split_and!; try done.
    + exact (Rep_lookup T' (mkFrame LEFT py cy dy _ g :: k) _ _ _ _ _ _ H').
    + done.
  - destruct l as [|py cy g dy my b]; [by apply (Hthrow RIGHT)|]. cbn [ptr].
    destruct (Hrot RIGHT _ eq_refl) as (T' & Hr & H' & Ho & Hs).
    eexists T', _, (elems t). split_and!; try done.
    + exact (Rep_lookup T' (mkFrame RIGHT py cy dy _ g :: k) _ _ _ _ _ _ H').
    + done.
Qed.

(** Left rotation at the root of the tree of two events, the second to the
    right of the first. *)
Lemma rotate_keeps_order_witness :
  ∃ T' n' out,
    _rotate (mkTree [mkNode (mkEvent 1 50 60) None (Some 1%nat) None (Some 60) BLACK;
                     mkNode (mkEvent 2 70 80) None None (Some 0%nat) (Some 80) RED]
                    (Some 0%nat) comparator 2) (Some 0%nat) LEFT = Ok T'
    ∧ getOrderedData
        (mkTree [mkNode (mkEvent 1 50 60) None (Some 1%nat) None (Some 60) BLACK;
                 mkNode (mkEvent 2 70 80) None None (Some 0%nat) (Some 80) RED]
                (Some 0%nat) comparator 2) None = Ok out
    ∧ getOrderedData T' None = Ok out
    ∧ getSize T' = 2%nat
    ∧ heap T' !! 0%nat = Some n' ∧ _parent n' = Some 1%nat.
Proof.
  apply (rotate_keeps_order comparator stale_events
           (mkTree [mkNode (mkEvent 1 50 60) None (Some 1%nat) None (Some 60) BLACK;
                    mkNode (mkEvent 2 70 80) None None (Some 0%nat) (Some 80) RED]
                   (Some 0%nat) comparator 2) 0%nat
           (mkNode (mkEvent 1 50 60) None (Some 1%nat) None (Some 60) BLACK) LEFT).
  - vm_compute. reflexivity.
  - reflexivity.
Defined.

(** ** Further properties of the layout *)

(** *** Bins *)

(** [_addToBin] is first fit: the event goes to the end of the first bin
    whose [max] its start has reached, which then ends where the event
    ends; when there is none, to a new bin at the end.  The other bins,
    and the events that were in the chosen one, stay where they are. *)
Theorem addToBin_first_fit (event : Event) (bins : list Bin) :
  ∃ i,
    (∀ j b, (j < i)%nat → bins !! j = Some b → start event < bin_max b)
    ∧ match bins !! i with
      | Some b =>
        bin_max b ≤ start event
        ∧ _addToBin event bins
          = <[i := mkBin (end_ event) (bin_events b ++ [event])]> bins
      | None =>
        i = length bins
        ∧ _addToBin event bins = bins ++ [mkBin (end_ event) [event]]
      end.
Proof.
  induction bins as [|bin bins (i & Hlt & Hi)]; simpl.
  - exists 0%nat. split; [intros; lia|done].
  - case_bool_decide as Hge.
    + exists 0%nat. split; [intros; lia|]. simpl. split; [lia|done].
    + exists (S i). split.
      * intros [|j] b Hj; simpl; [intros [= <-]; lia|]. apply Hlt. lia.
      * simpl. destruct (bins !! i) as [b|].
        -- destruct Hi as [Hb ->]. done.
        -- destruct Hi as [-> ->]. done.
Qed.

Lemma bin_evs_addToBin e bins x :
  x ∈ bin_evs (_addToBin e bins) ↔ x = e ∨ x ∈ bin_evs bins.
Proof.
  unfold bin_evs. induction bins as [|bin bins IH]; simpl.
  - set_solver.
  - case_bool_decide; simpl; rewrite !elem_of_app; [set_solver|].
    rewrite IH. tauto.
Qed.

Lemma renderEvents_events env w bins e :
  e ∈ bin_evs bins ↔ ∃ r, r ∈ _renderEvents env w bins ∧ r_event r = e.
Proof.
  unfold bin_evs. rewrite elem_of_concat. split.
  - intros (l & Hl & He). apply list_elem_of_fmap in Hl as (bin & -> & Hbin).
    apply list_elem_of_lookup in Hbin as [i Hi].
    eexists. split; [apply elem_of_renderEvents; by exists i, bin, e|done].
  - intros (r & Hr & <-). apply elem_of_renderEvents in Hr as (i & bin & e' & Hi & He & ->).
    exists (bin_events bin). split; [|done].
    apply list_elem_of_fmap. exists bin. split; [done|]. by eapply list_elem_of_lookup_2.
Qed.

(** *** A layout call, step by step *)

Lemma layOutDay_run env c events :
  events ≠ [] →
  ∃ T t c2 html b,
    insertAll (newTree comparator) events = Ok T
    ∧ Rep T t ∧ t ≠ Leaf ∧ elems t = ssort events
    ∧ _render (S (length (ssort events))) env
        (mkCalendar (Some (ssort events)) ∅ (Some T) (options_width c) [])
        (ssort events) None = (c2, Ok (html, b))
    ∧ _tree c2 = Some T ∧ _events c2 = Some (ssort events)
    ∧ options_width c2 = options_width c
    ∧ layOutDay env c events = (set_innerHTML c2 html, Ok (ssort events)).
Proof.
  intros Hne.
  destruct (setEvents_ok c events Hne) as (T & t & Hs & Hi & H & HRB & Ht & Hel).
  set (c1 := mkCalendar (Some (ssort events)) ∅ (Some T) (options_width c) []).
  destruct (render_total env T t H Ht (S (length (ssort events))) c1 (ssort events) None)
    as (c2 & html & b & Hr & Ht2 & Hs2 & He2 & Hw2).
  - done.
  - rewrite <- Hel. apply Forall_forall. auto.
  - pose proof (unrendered_length t c1). rewrite <- Hel, elems_length.
    rewrite <- elems_length. lia.
  - exists T, t, c2, html, b. split_and!; try done.
    unfold layOutDay. rewrite Hs. unfold render. cbn [_events set_events].
    change (clear (set_events (set_tree c T) (ssort events))) with c1.
    by rewrite Hr.
Qed.

(** *** Rendering again *)

(** After a layout call, [render()] emits the same elements again and
    leaves the calendar as it is. *)
Theorem render_after_layOutDay (env : Env) (c : Calendar) (events : list Event) :
  events ≠ [] →
  ∃ c', layOutDay env c events = (c', Ok (ssort events))
        ∧ render env c' = (c', Ok tt).
Proof.
  intros Hne.
  destruct (layOutDay_run env c events Hne)
    as (T & t & c2 & html & b & Hi & H & Ht & Hel & Hr & Ht2 & He2 & Hw2 & Hl).
  exists (set_innerHTML c2 html). split; [done|].
  unfold render. cbn [_events set_innerHTML]. rewrite He2.
  unfold clear. cbn [_events _tree options_width set_innerHTML].
  rewrite He2, Ht2, Hw2, Hr. done.
Qed.

(** The two touching events, as an instance. *)
Lemma render_after_layOutDay_witness :
  ∃ c', layOutDay env0 cal0 touching_events = (c', Ok (ssort touching_events))
        ∧ render env0 c' = (c', Ok tt).
Proof. apply (render_after_layOutDay env0 cal0 touching_events). discriminate. Defined.

(** *** Laying out no events *)

(** [layOutDay([])] on a calendar that was laid out throws a [TypeError]
    and leaves it with an empty tree and the previous events; a
    [render()] after that throws a [TypeError] as well. *)
Theorem layOutDay_empty_breaks_render (env : Env) (c : Calendar) (events : list Event) :
  events ≠ [] →
  ∃ c1 c2 c3,
    layOutDay env c events = (c1, Ok (ssort events))
    ∧ layOutDay env c1 [] = (c2, Throw TypeError)
    ∧ _events c2 = Some (ssort events)
    ∧ _tree c2 = Some (newTree comparator)
    ∧ render env c2 = (c3, Throw TypeError).
Proof.
  intros Hne.
  destruct (layOutDay_total env c events Hne) as (c1 & Hl & He & _).
  destruct (ssort events) as [|e l] eqn:Hs.
  { apply (f_equal length) in Hs. rewrite ssort_length in Hs. by destruct events. }
  exists c1, (set_tree c1 (newTree comparator)). eexists.
  split; [done|]. split; [reflexivity|]. split; [done|]. split; [done|].
  unfold render. cbn [_events set_tree]. rewrite He. reflexivity.
Qed.

(** The two touching events, as an instance. *)
Lemma layOutDay_empty_breaks_render_witness :
  ∃ c1 c2 c3,
    layOutDay env0 cal0 touching_events = (c1, Ok (ssort touching_events))
    ∧ layOutDay env0 c1 [] = (c2, Throw TypeError)
    ∧ _events c2 = Some (ssort touching_events)
    ∧ _tree c2 = Some (newTree comparator)
    ∧ render env0 c2 = (c3, Throw TypeError).
Proof. apply (layOutDay_empty_breaks_render env0 cal0 touching_events). discriminate. Defined.

(** *** Which events are emitted *)

Section Cover.
Context (env : Env) (T : Tree) (t : tree).
Hypothesis HRep : Rep T t.
Hypothesis Hne : t ≠ Leaf.

Lemma render_loop_cover rec :
  (∀ c evs b c' html b',
     _tree c = Some T → Forall (λ e, e ∈ elems t) evs →
     (∀ e, e ∈ bin_evs b → e ∈ elems t) →
     rec c evs (Some b) = (c', Ok (html, b')) →
     cover_post (elems t) c c' evs (Some b) html b') →
  ∀ events html0 bref c c' html' bref',
    _tree c = Some T → Forall (λ e, e ∈ elems t) events →
    (∀ b, bref = Some b → ∀ e, e ∈ bin_evs b → e ∈ elems t) →
    (∀ r, r ∈ html0 → r_event r ∈ elems t) →
    _render_loop rec env events html0 bref c = (c', Ok (html', bref')) →
    cover_post (elems t) c c' events bref html' bref'
    ∧ (∀ r, r ∈ html0 → r ∈ html').
Proof.
  intros Hrec. induction events as [|e events IH];
    intros html0 bref c c' html' bref' Hc Hev Hb Hh; simpl.
  - intros [= <- <- <-]. split; [|done]. split_and!; try done.
    + intros e He. by apply elem_of_nil in He.
    + intros x Hx. by left.
    + intros b b2 -> [= <-]. done.
  - apply Forall_cons in Hev as [He Hev].
    destruct (isRendered c e) eqn:Hren; simpl.
    { intros Hl. destruct (IH _ _ _ _ _ _ Hc Hev Hb Hh Hl)
        as ((H1 & H2 & H3 & H4 & H5 & H6 & H7) & H8).
      split; [|done]. split_and!; try done.
      intros x [->|Hx]%elem_of_cons; [|by apply H2].
      unfold isRendered in Hren. apply bool_decide_eq_true in Hren. by apply H1. }
    set (c1 := _setIsRendered c e).
    set (bins1 := _addToBin e (default [] bref)).
    unfold getCollisions. change (_tree c1) with (_tree c). rewrite Hc.
    rewrite (searchInterval_ok T t e HRep Hne).
    assert (Hb1 : ∀ x, x ∈ bin_evs bins1 → x ∈ elems t).
    { intros x [->|Hx]%bin_evs_addToBin; [done|].
      destruct bref as [b|]; simpl in Hx; [by eapply Hb|by apply elem_of_nil in Hx]. }
    destruct (rec c1 (search_tree e t) (Some bins1)) as [c2 [[h2 b2]| |]] eqn:Hr; [|done..].
    assert (Hcoll : Forall (λ x, x ∈ elems t) (search_tree e t)).
    { apply Forall_forall. intros x Hx.
      eapply elem_of_sublist; [exact Hx|apply search_tree_sublist]. }
    destruct (Hrec c1 _ _ _ _ _ Hc Hcoll Hb1 Hr) as (R1 & R2 & R3 & R4 & R5 & R6 & R7).
    set (bins3 := default bins1 b2).
    assert (Hb13 : ∀ x, x ∈ bin_evs bins1 → x ∈ bin_evs bins3).
    { intros x Hx. unfold bins3. destruct b2 as [b2'|]; simpl; [by eapply R4|done]. }
    assert (Hb3 : ∀ x, x ∈ bin_evs bins3 → x ∈ elems t).
    { intros x Hx. unfold bins3 in Hx. destruct b2 as [b2'|]; simpl in Hx;
        [by eapply R6|by apply Hb1]. }
    intros Hl. apply IH in Hl.
    + destruct Hl as ((H1 & H2 & H3 & H4 & H5 & H6 & H7) & H8).
      assert (He3 : ∃ r, r ∈ html' ∧ id (r_event r) = id e).
      { assert (e ∈ bin_evs bins3) as Hin.
        { apply Hb13. apply bin_evs_addToBin. by left. }
        apply (renderEvents_events env (options_width c2)) in Hin as (r & Hr' & <-).
        exists r. split; [|done]. apply H8. apply elem_of_app. by right. }
      split.
      * split_and!; try done.
        -- etrans; [|exact H1]. etrans; [|exact R1]. simpl. set_solver.
        -- intros x [->|Hx]%elem_of_cons; [|by apply H2].
           apply H1, R1. simpl. set_solver.
        -- intros x Hx. destruct (H3 x Hx) as [Hx2|Hx2]; [|by right].
           destruct (R3 x Hx2) as [Hx1|(r & Hr' & Hid)].
           ++ simpl in Hx1. apply elem_of_union in Hx1 as [Hx1|Hx1]; [|by left].
              apply elem_of_singleton in Hx1 as ->. by right.
           ++ right. exists r. split; [|done]. apply H8.
              apply elem_of_app. left. apply elem_of_app. by right.
        -- intros b bf -> ->. intros x Hx.
           eapply (H4 bins3 bf eq_refl eq_refl). apply Hb13.
           apply bin_evs_addToBin. by right.
        -- by rewrite H7, R7.
      * intros r Hr'. apply H8. apply elem_of_app. left. apply elem_of_app. by left.
    + by rewrite R7.
    + done.
    + intros b Hbb. destruct bref; [|done]. by injection Hbb as <-.
    + intros r [[Hr'|Hr']%elem_of_app|Hr']%elem_of_app; [by apply Hh|by apply R5|].
      apply Hb3. apply (renderEvents_events env (options_width c2)). by exists r.
Qed.

Lemma render_cover fuel : ∀ c evs bref c' html b',
  _tree c = Some T → Forall (λ e, e ∈ elems t) evs →
  (∀ b, bref = Some b → ∀ e, e ∈ bin_evs b → e ∈ elems t) →
  _render fuel env c evs bref = (c', Ok (html, b')) →
  cover_post (elems t) c c' evs bref html b'.
Proof.
  induction fuel as [|fuel IH]; intros c evs bref c' html b' Hc Hev Hb; [done|].
  simpl. intros Hl. eapply render_loop_cover in Hl as [Hl _]; try done.
  - intros c0 evs0 b0 c0' html0 b0' Hc0 Hev0 Hb0. apply IH; try done.
    by intros b [= <-].
  - intros r Hr. by apply elem_of_nil in Hr.
Qed.
End Cover.

Lemma NoDup_id_inj (events : list Event) x y :
  NoDup (id <$> events) → x ∈ events → y ∈ events → id x = id y → x = y.
Proof.
  intros Hnd [i Hi]%list_elem_of_lookup [j Hj]%list_elem_of_lookup Heq.
  assert (i = j).
  { eapply NoDup_lookup; [exact Hnd| |]; rewrite list_lookup_fmap;
      [by rewrite Hi|by rewrite Hj, Heq]. }
  subst j. congruence.
Qed.

(** A layout call emits elements of the events it is given only, and one
    at least for every id among them.  When the ids are distinct, that is
    an element for every given event.  (Of two events with one id only one
    is marked as not rendered when [_render] comes to it.) *)
Theorem layOutDay_emits_every_event (env : Env) (c : Calendar) (events : list Event) :
  events ≠ [] →
  ∃ c',
    layOutDay env c events = (c', Ok (ssort events))
    ∧ (∀ e, e ∈ events → ∃ r, r ∈ innerHTML c' ∧ id (r_event r) = id e)
    ∧ (∀ r, r ∈ innerHTML c' → r_event r ∈ events)
    ∧ (NoDup (id <$> events) →
         ∀ e, e ∈ events → ∃ r, r ∈ innerHTML c' ∧ r_event r = e).
Proof.
  intros Hne.
  destruct (layOutDay_run env c events Hne)
    as (T & t & c2 & html & b & Hi & H & Ht & Hel & Hr & Ht2 & He2 & Hw2 & Hl).
  exists (set_innerHTML c2 html). split; [done|].
  eapply (render_cover env T t H Ht) in Hr as (R1 & R2 & R3 & R4 & R5 & R6 & R7).
  - cbn [innerHTML set_innerHTML].
    assert (Hid : ∀ e, e ∈ events → ∃ r, r ∈ html ∧ id (r_event r) = id e).
    { intros e He.
      assert (Hin : id e ∈ _renderedEvents c2) by (apply R2; by apply elem_of_ssort).
      destruct (R3 _ Hin) as [Hx|Hx]; [by apply elem_of_empty in Hx|done]. }
    assert (Hev : ∀ r, r ∈ html → r_event r ∈ events).
    { intros r Hr. apply R5 in Hr. rewrite Hel in Hr.
      by apply (proj1 (elem_of_ssort _ _)) in Hr. }
    split; [done|]. split; [done|].
    intros Hnd e He. destruct (Hid e He) as (r & Hr & Hre).
    exists r. split; [done|]. eapply NoDup_id_inj; eauto.
  - done.
  - rewrite Hel. apply Forall_forall. auto.
  - done.
Qed.

(** The six events of [split_events], as an instance. *)
Lemma layOutDay_emits_every_event_witness :
  NoDup (id <$> split_events)
  ∧ ∃ c',
    layOutDay env0 cal0 split_events = (c', Ok (ssort split_events))
    ∧ (∀ e, e ∈ split_events → ∃ r, r ∈ innerHTML c' ∧ id (r_event r) = id e)
    ∧ (∀ r, r ∈ innerHTML c' → r_event r ∈ split_events)
    ∧ ∀ e, e ∈ split_events → ∃ r, r ∈ innerHTML c' ∧ r_event r = e.
Proof.
  assert (Hnd : NoDup (id <$> split_events)).
  { vm_compute. repeat (constructor; [set_solver|]). constructor. }
  split; [exact Hnd|].
  destruct (layOutDay_emits_every_event env0 cal0 split_events) as (c' & H1 & H2 & H3 & H4).
  - discriminate.
  - exists c'. split; [exact H1|]. split; [exact H2|]. split; [exact H3|]. exact (H4 Hnd).
Defined.

(** *** Events that do not collide *)

Lemma render_loop_skip rec env evs : ∀ html bref c,
  (∀ e, e ∈ evs → id e ∈ _renderedEvents c) →
  _render_loop rec env evs html bref c = (c, Ok (html, bref)).
Proof.
  induction evs as [|e evs IH]; intros html bref c Hall; simpl; [done|].
  unfold isRendered. rewrite bool_decide_eq_true_2 by (apply Hall; by left).
  simpl. apply IH. intros x Hx. apply Hall. by right.
Qed.

Lemma render_skip env fuel c evs bref :
  (∀ e, e ∈ evs → id e ∈ _renderedEvents c) →
  _render (S fuel) env c evs bref = (c, Ok ([], bref)).
Proof. intros Hall. simpl. by apply render_loop_skip. Qed.

Lemma render_loop_disjoint env T t fuel :
  Rep T t → t ≠ Leaf →
  ∀ events html c,
    _tree c = Some T →
    NoDup (id <$> events) →
    (∀ e, e ∈ events → id e ∉ _renderedEvents c) →
    (∀ e x, e ∈ events → x ∈ search_tree e t → x = e) →
    ∃ c',
      _render_loop (_render (S fuel) env) env events html None c
      = (c', Ok (html ++ map (λ e, render_event env e
                                (Ndiv (Number_of_Z (options_width c)) (Number_of_Z 1)) 0) events,
                 None))
      ∧ _tree c' = Some T ∧ options_width c' = options_width c
      ∧ _events c' = _events c.
Proof.
  intros H Ht. induction events as [|e events IH]; intros html c Hc Hnd Hnr Hs.
  - exists c. simpl. by rewrite app_nil_r.
  - cbn [_render_loop]. unfold isRendered.
    rewrite bool_decide_eq_false_2 by (apply Hnr; by left). cbn [negb].
    set (c1 := _setIsRendered c e).
    unfold getCollisions. change (_tree c1) with (_tree c). rewrite Hc.
    rewrite (searchInterval_ok T t e H Ht).
    rewrite render_skip.
    2:{ intros x Hx. rewrite (Hs e x) by (done || by left). simpl. set_solver. }
    cbn [default _addToBin].
    apply NoDup_cons in Hnd as [Hid Hnd].
    destruct (IH ((html ++ []) ++ _renderEvents env (options_width c1)
                                    [mkBin (end_ e) [e]]) c1) as (c' & Hl & Ht' & Hw' & He').
    + done.
    + done.
    + intros x Hx. simpl. intros [Hin|Hin]%elem_of_union; [|by eapply Hnr; [right|]].
      apply elem_of_singleton in Hin. apply Hid. rewrite <- Hin.
      apply list_elem_of_fmap. by exists x.
    + intros x y Hx. apply Hs. by right.
    + exists c'. cbn [Datatypes.id]. rewrite Hl. split; [|done]. f_equal. f_equal. f_equal.
      rewrite app_nil_r, <- app_assoc. done.
Qed.

(** When no two of the events collide (and their ids differ), a layout
    call emits them one by one in the order of their start, each once, in
    column 0 of one column: as wide as the calendar. *)
Theorem layOutDay_disjoint_full_width (env : Env) (c : Calendar) (events : list Event) :
  events ≠ [] → NoDup (id <$> events) →
  (∀ a b, a ∈ events → b ∈ events → a ≠ b → isColliding a b = false) →
  ∃ c',
    layOutDay env c events = (c', Ok (ssort events))
    ∧ innerHTML c'
      = map (λ e, render_event env e (Ndiv (Number_of_Z (options_width c)) (Number_of_Z 1)) 0)
            (ssort events).
Proof.
  intros Hne Hnd Hdis.
  destruct (setEvents_ok c events Hne) as (T & t & Hs & Hi & H & HRB & Ht & Hel).
  unfold layOutDay. rewrite Hs. unfold render. cbn [_events set_events].
  set (c1 := clear (set_events (set_tree c T) (ssort events))).
  destruct (ssort events) as [|e0 l0] eqn:Hso.
  { apply (f_equal length) in Hso. rewrite ssort_length in Hso. by destruct events. }
  rewrite <- Hso in *.
  assert (Hlen : length (ssort events) = S (length l0)) by (by rewrite Hso).
  rewrite Hlen.
  change (_render (S (S (length l0))) env c1 (ssort events) None)
    with (_render_loop (_render (S (length l0)) env) env (ssort events) [] None c1).
  destruct (render_loop_disjoint env T t (length l0) H Ht (ssort events) [] c1)
    as (c' & Hl & _).
  - done.
  - rewrite ssort_perm. done.
  - intros e _. simpl. set_solver.
  - intros e x He Hx.
    destruct (decide (x = e)) as [|Hxe]; [done|]. exfalso.
    pose proof (search_tree_colliding e t) as Hcol. rewrite Forall_forall in Hcol.
    specialize (Hcol x Hx).
    assert (x ∈ events).
    { apply elem_of_ssort. rewrite <- Hel.
      eapply elem_of_sublist; [exact Hx|apply search_tree_sublist]. }
    rewrite (Hdis x e) in Hcol; [done|done| |done]. by apply elem_of_ssort.
  - rewrite Hl. eexists. split; [reflexivity|done].
Qed.

(** Three events that are apart. *)
Lemma layOutDay_disjoint_full_width_witness :
  ∃ c',
    layOutDay env0 cal0 [mkEvent 1 50 60; mkEvent 2 0 10; mkEvent 3 20 30]
    = (c', Ok (ssort [mkEvent 1 50 60; mkEvent 2 0 10; mkEvent 3 20 30]))
    ∧ innerHTML c'
      = map (λ e, render_event env0 e (Ndiv (Number_of_Z (options_width cal0)) (Number_of_Z 1)) 0)
            (ssort [mkEvent 1 50 60; mkEvent 2 0 10; mkEvent 3 20 30]).
Proof.
  apply (layOutDay_disjoint_full_width env0 cal0
           [mkEvent 1 50 60; mkEvent 2 0 10; mkEvent 3 20 30]).
  - discriminate.
  - vm_compute. repeat constructor; set_solver.
  - intros a b Ha Hb Hab.
    repeat (apply elem_of_cons in Ha as [->|Ha]);
      repeat (apply elem_of_cons in Hb as [->|Hb]);
      try done; try (by apply elem_of_nil in Ha); by apply elem_of_nil in Hb.
Defined.

(** ** Insertion in the order of the start times *)

Lemma top_ub_paint c t : top_ub (paint c t) ↔ top_ub t.
Proof. by destruct t. Qed.

Lemma lub_paint c t : lub (paint c t) ↔ lub t.
Proof. by destruct t. Qed.

Lemma lub_plug k : ∀ z, spine k → lub z → lub (plug k z).
Proof.
  induction k as [|f k IH]; intros z Hk Hz; [done|].
  apply Forall_cons in Hk as [(Hd & Ht & Hl) Hk]. simpl. apply IH; [done|].
  unfold fill, mk. rewrite Hd. simpl. done.
Qed.

Lemma path_spine d : ∀ t k,
  Forall (λ e, start e ≤ start d) (elems t) → lub t → spine k →
  spine (path comparator d t k).
Proof.
  induction t as [|p c l IHl e m r IHr]; intros k Hle Hl Hk; [done|].
  simpl in Hle, Hl. destruct Hl as (Htl & Hll & Hlr).
  apply Forall_app in Hle as [_ Hle]. apply Forall_cons in Hle as [He Hle].
  cbn [path]. unfold comparator at 1. rewrite decide_False by lia.
  apply IHr; [done|done|]. by constructor.
Qed.

Lemma cv_tail_spine T f g k z :
  Rep T (plug (f :: g :: k) z) → z ≠ Leaf → f_dir f = RIGHT → f_dir g = RIGHT →
  ∃ T',
    cv_tail T (ptr z) (opposite (f_dir g)) = Ok (T', ptr z)
    ∧ Rep T' (plug (mkFrame RIGHT (f_p f) BLACK (f_d f)
                      (Some (Z.max (end_ (f_d f)) (Z.max (toNumber (f_m g)) (tmax z))))
                      (Br (f_p g) RED (f_sib g) (f_d g)
                          (Some (getMax_tree (f_d g) (f_sib g) (f_sib f))) (f_sib f)) :: k) z)
    ∧ _comparator T' = _comparator T ∧ _size T' = _size T.
Proof.
  intros H Hz Hdf Hdg. unfold cv_tail.
  rewrite (getParent_Rep _ _ _ H Hz). cbn [bind kptr].
  destruct (setColor_frame T f (g :: k) z BLACK H) as (h1 & Hs1 & H1).
  rewrite Hs1. cbn [bind].
  change h1 with (heap (setHeap T h1)) at 1 2.
  rewrite (getGrandfather_Rep _ _ _ _ H1 Hz). cbn [bind kptr].
  change (plug (f_paint BLACK f :: g :: k) z)
    with (plug (g :: k) (fill (f_paint BLACK f) z)) in H1.
  destruct (setColor_frame _ g k _ RED H1) as (h2 & Hs2 & H2).
  rewrite Hs2. cbn [bind].
  change (setHeap (setHeap T h1) h2) with (setHeap T h2) in H2.
  change (plug (f_paint RED g :: k) (fill (f_paint BLACK f) z))
    with (plug (f_paint BLACK f :: f_paint RED g :: k) z) in H2.
  change h2 with (heap (setHeap T h2)) at 1.
  rewrite (getGrandfather_Rep _ _ _ _ H2 Hz). cbn [bind kptr].
  rewrite rotate_dir.
  assert (Hrot : rot (opposite (f_dir g)) (fill (f_paint RED g) (fill (f_paint BLACK f) z))
    = Some (fill (mkFrame RIGHT (f_p f) BLACK (f_d f)
                    (Some (Z.max (end_ (f_d f)) (Z.max (toNumber (f_m g)) (tmax z))))
                    (Br (f_p g) RED (f_sib g) (f_d g)
                        (Some (getMax_tree (f_d g) (f_sib g) (f_sib f))) (f_sib f))) z)).
  { destruct f as [fd fp fc fe fm fs], g as [gd gp gc ge gm gs]. simpl in *. by subst. }
  change (plug (f_paint BLACK f :: f_paint RED g :: k) z)
    with (plug k (fill (f_paint RED g) (fill (f_paint BLACK f) z))) in H2.
  destruct (rotate_ok _ _ _ _ _ H2 Hrot) as (T' & Hr & HR' & Hc & Hsz).
  rewrite ptr_fill in Hr. cbn [f_paint f_p f_dir] in Hr. cbn [f_paint f_p f_dir].
  rewrite Hr. cbn [bind].
  exists T'. split; [done|]. split; [exact HR'|]. by rewrite Hc, Hsz.
Qed.

Lemma checkViolation_spine T f g k z n :
  Rep T (plug (f :: g :: k) z) →
  redtop n z →
  f_c f = RED → color_of (f_sib f) = BLACK → rbt n (f_sib f) →
  f_c g = BLACK → rbt n (f_sib g) → kok false (S n) k →
  spine (f :: g :: k) → lub z →
  ∃ T' k' z' n',
    _checkViolation T (ptr z) (opposite (f_dir g)) = Ok (T', ptr z')
    ∧ Rep T' (plug k' z') ∧ redtop n' z' ∧ kok false n' k'
    ∧ (length k' < length (f :: g :: k))%nat
    ∧ elems (plug k' z') = elems (plug (f :: g :: k) z)
    ∧ _comparator T' = _comparator T ∧ _size T' = _size T
    ∧ spine k' ∧ lub z'.
Proof.
  intros H Hz Hfc Hfsc Hfs Hgc Hgs Hk Hsp Hlz.
  apply Forall_cons in Hsp as [(Hdf & Htf & Hlf) Hsp].
  apply Forall_cons in Hsp as [(Hdg & Htg & Hlg) Hsp].
  pose proof (redtop_nonleaf _ _ Hz) as Hzl.
  unfold _checkViolation.
  rewrite (getGrandfather_Rep _ _ _ _ H Hzl). cbn [bind kptr].
  change (plug (f :: g :: k) z) with (plug (g :: k) (fill f z)) in H.
  rewrite (getNode_frame _ _ _ _ H). cbn [bind].
  rewrite getChild_frame_node.
  rewrite decide_False by (by destruct (f_dir g)).
  rewrite (isRed_sib _ _ _ _ H). cbn [bind].
  change (plug (g :: k) (fill f z)) with (plug (f :: g :: k) z) in H.
  destruct (color_of (f_sib g)) eqn:Hu; simpl bool_decide; cbv iota.
  - (* red uncle *)
    rewrite (getParent_Rep _ _ _ H Hzl). cbn [bind kptr].
    destruct (setColor_frame T f (g :: k) z BLACK H) as (h1 & Hs1 & H1).
    rewrite Hs1. cbn [bind].
    change (plug (f_paint BLACK f :: g :: k) z)
      with (plug (g :: k) (fill (f_paint BLACK f) z)) in H1.
    assert (Hul : f_sib g ≠ Leaf) by (by destruct (f_sib g)).
    destruct (setColor_sib _ g k _ BLACK H1 Hul) as (h2 & Hs2 & H2).
    cbn [setHeap heap] in Hs2. rewrite Hs2. cbn [bind].
    change (setHeap (setHeap T h1) h2) with (setHeap T h2) in H2.
    set (g1 := f_setsib (paint BLACK (f_sib g)) g) in *.
    change (plug (g1 :: k) (fill (f_paint BLACK f) z))
      with (plug (f_paint BLACK f :: g1 :: k) z) in H2.
    change h2 with (heap (setHeap T h2)) at 1 2.
    rewrite (getGrandfather_Rep _ _ _ _ H2 Hzl). cbn [bind kptr].
    change (plug (f_paint BLACK f :: g1 :: k) z)
      with (plug (g1 :: k) (fill (f_paint BLACK f) z)) in H2.
    destruct (setColor_frame _ g1 k _ RED H2) as (h3 & Hs3 & H3).
    cbn [g1 f_setsib f_p] in Hs3. cbn [g1 f_setsib f_p].
    rewrite Hs3. cbn [bind].
    change (setHeap (setHeap T h2) h3) with (setHeap T h3) in H3.
    change (plug (f_paint RED g1 :: k) (fill (f_paint BLACK f) z))
      with (plug (f_paint BLACK f :: f_paint RED g1 :: k) z) in H3.
    change h3 with (heap (setHeap T h3)) at 1.
    rewrite (getGrandfather_Rep _ _ _ _ H3 Hzl). cbn [bind kptr].
    change (plug (f_paint BLACK f :: f_paint RED g1 :: k) z)
      with (plug k (fill (f_paint RED g1) (fill (f_paint BLACK f) z))) in H3.
    exists (setHeap T h3), k, (fill (f_paint RED g1) (fill (f_paint BLACK f) z)), (S n).
    rewrite ptr_fill. split; [done|]. split; [done|].
    split_and!; try done.
    + destruct Hz as (p & l & d & m & r & -> & ? & ? & ? & ?).
      destruct f as [fd fp fc fe fm fs], g as [gd gp gc ge gm gs].
      simpl in *. subst. inversion Hgs; subst; [done| |done].
      simpl; repeat eexists; by repeat constructor.
    + simpl. lia.
    + change (plug (f :: g :: k) z) with (plug k (fill g (fill f z))).
      apply elems_plug_ext.
      destruct f as [fd fp fc fe fm fs], g as [gd gp gc ge gm gs].
      unfold fill, mk, g1, f_paint, f_setsib; simpl.
      destruct fd, gd; simpl; by rewrite elems_paint.
    + destruct f as [fd fp fc fe fm fs], g as [gd gp gc ge gm gs].
      unfold g1. simpl in *. subst. simpl.
      rewrite top_ub_paint, lub_paint. done.
  - (* black uncle: the node is the outer grandchild *)
    rewrite (getParent_Rep _ _ _ H Hzl). cbn [bind kptr].
    rewrite (getNode_frame _ _ _ _ H). cbn [bind].
    rewrite getChild_frame_node.
    destruct (decide (opposite (f_dir g) = f_dir f)) as [Hin|Hout].
    { rewrite Hdf, Hdg in Hin. done. }
    cbv iota.
    rewrite decide_False by (by apply (ptr_not_sib T f (g :: k))).
    destruct (cv_tail_spine _ f g k z H Hzl Hdf Hdg) as (T2 & Ht & H2 & Hc2 & Hsz2).
    unfold cv_tail in Ht. cbn [bind]. rewrite Ht.
    eexists T2, _, z, n.
    split; [done|]. split; [exact H2|].
    split_and!; try done.
    + apply kok_black; simpl; [done| |done]. by constructor.
    + simpl. lia.
    + change (plug (f :: g :: k) z) with (plug k (fill g (fill f z))).
      change (plug (?F :: k) z) with (plug k (fill F z)).
      apply elems_plug_ext.
      destruct f as [fd fp fc fe fm fs], g as [gd gp gc ge gm gs].
      unfold fill, mk; simpl in *. subst. simpl. norm_app.
    + constructor; [|done]. simpl. split; [done|]. split; [|done].
      unfold top_ub, getMax_tree. simpl.
      apply Forall_app. split; [|constructor].
      * eapply Forall_impl; [exact Htg|]. simpl. intros; lia.
      * lia.
      * eapply Forall_impl; [exact Htf|]. simpl. intros; lia.
Qed.

Lemma fixup_spine fuel : ∀ T k z n,
  Rep T (plug k z) → redtop n z → kok false n k → (length k < fuel)%nat →
  spine k → lub z →
  ∃ T' t', fixup fuel T (ptr z) = Ok T' ∧ Rep T' t' ∧ t' ≠ Leaf
           ∧ (∃ m, rbt m (paint BLACK t'))
           ∧ elems t' = elems (plug k z)
           ∧ _comparator T' = _comparator T ∧ _size T' = _size T
           ∧ lub t'.
Proof.
  induction fuel as [|fuel IH]; intros T k z n H Hz Hk Hfuel Hsp Hlz; [lia|].
  pose proof (redtop_nonleaf _ _ Hz) as Hzl.
  cbn [fixup].
  destruct k as [|f k1].
  - rewrite decide_True by (by rewrite (rep_root _ _ H)).
    exists T, z. split_and!; try done.
    apply redtop_rbt in Hz. by eapply rbt_paint_black.
  - rewrite decide_False by (by eapply ptr_not_root).
    rewrite (getParent_Rep _ _ _ H Hzl). cbn [bind kptr].
    rewrite (getNode_frame _ _ _ _ H). cbn [bind].
    unfold isRed. rewrite color_frame_node.
    inversion Hk as [|b n0 f0 k0 Hfc Hfs Hk1|n0 f0 k0 Hfc Hfsc Hfs Hk1]; subst.
    + rewrite bool_decide_eq_false_2 by (rewrite Hfc; done).
      exists T, (plug (f :: k1) z).
      assert (HRB : RB (plug (f :: k1) z)).
      { apply (kok_plug true n); [by apply kok_black|by apply redtop_rbt|done]. }
      destruct HRB as [Hc Hn].
      split_and!; try done.
      * intros Heq. destruct (ptr_plug_kaddrs f k1 z) as (q & Hq & _).
        by rewrite Heq in Hq.
      * by rewrite paint_black_id.
      * by apply lub_plug.
    + rewrite bool_decide_eq_true_2 by done.
      apply kok_true_inv in Hk1 as (g & k2 & -> & Hgc & Hgs & Hk2).
      rewrite (getGrandfather_Rep _ _ _ _ H Hzl). cbn [bind kptr].
      change (plug (f :: g :: k2) z) with (plug (g :: k2) (fill f z)) in H.
      rewrite (getNode_frame _ _ _ _ H). cbn [bind]. rewrite ptr_fill.
      rewrite getChild_frame_node.
      assert (Hdir : (if decide (Some (f_p f) =
                        (if decide (LEFT = f_dir g) then Some (f_p f) else ptr (f_sib g)))
                      then RIGHT else LEFT) = opposite (f_dir g)).
      { destruct (f_dir g) eqn:Hg; simpl.
        - by rewrite decide_True.
        - rewrite decide_False; [done|].
          rewrite <- (ptr_fill f z). apply (ptr_not_sib T g k2); [done|].
          unfold fill, mk. by destruct (f_dir f). }
      rewrite Hdir.
      change (plug (g :: k2) (fill f z)) with (plug (f :: g :: k2) z) in H.
      destruct (checkViolation_spine T f g k2 z n H Hz Hfc Hfsc Hfs Hgc Hgs Hk2 Hsp Hlz)
        as (T1 & k' & z' & n' & Hcv & H1 & Hz' & Hk' & Hlen & Hel & Hc1 & Hs1 & Hsp' & Hlz').
      rewrite Hcv. cbn [bind fst snd].
      destruct (IH T1 k' z' n' H1 Hz' Hk') as (T' & t' & Hf & H' & Hne & Hrb & Hel' & Hc' & Hs' & Hl');
        [simpl in *; lia|done|done|].
      exists T', t'. split_and!; try done; congruence.
Qed.

Lemma sinsert_last d l :
  Forall (λ e, start e ≤ start d) l → sinsert d l = l ++ [d].
Proof.
  induction 1 as [|x l Hx _ IH]; simpl; [done|].
  rewrite decide_False by lia. by rewrite IH.
Qed.

Lemma insert_spine T t d :
  Rep T t → RB t → _comparator T = comparator → lub t →
  StronglySorted le_start (elems t) → Forall (λ e, start e ≤ start d) (elems t) →
  ∃ T' t', insert T d = Ok (T', VUndefined) ∧ Rep T' t' ∧ RB t'
    ∧ elems t' = elems t ++ [d]
    ∧ _comparator T' = comparator ∧ lub t'.
Proof.
  intros H HRB Hcmp Hl Hso Hle. unfold insert, insert_fuel.
  destruct (insertNode_ok T t d (fuel_of T) H) as (T1 & Hin & H1 & Hc1 & Hs1 & Hl1).
  { unfold fuel_of. lia. }
  rewrite Hin. cbn [bind].
  set (K := path (_comparator T) d t []) in *.
  set (n := length (heap T)) in *.
  unfold _getMax.
  rewrite (getNode_Some _ _ _ (Rep_lookup _ _ _ _ _ _ _ _ H1)).
  cbn [bind getChild _left _right ptr data]. unfold maxOrZero at 1 2. cbn [bind].
  destruct (setMax_node T1 K n RED Leaf d None Leaf (end_ d `max` (0 `max` 0)) H1)
    as (Hsm & H2).
  rewrite Hsm. cbn [bind].
  assert (Hkok : kok false 0 K).
  { assert (HRBK : RB (plug K Leaf)) by (unfold K; by rewrite path_plug).
    apply rb_plug_inv in HRBK as (n0 & Hn0 & HK). inversion Hn0; subst.
    exact HK. }
  assert (HlenK : (length K < fuel_of T)%nat).
  { assert (HRK : Rep T (plug K Leaf)) by (unfold K; by rewrite path_plug).
    pose proof (Rep_fuel_height _ _ _ HRK). unfold fuel_of. simpl in *. lia. }
  assert (HspK : spine K).
  { unfold K. rewrite Hcmp. apply path_spine; [done|done|constructor]. }
  edestruct (fixup_spine (fuel_of T) _ K _ 0%nat H2)
    as (T3 & t3 & Hfx & H3 & Hne & (m & Hrb) & Hel & Hc3 & Hs3 & Hl3);
    [by repeat eexists; constructor|done|done|done| |].
  { simpl. split; [constructor|done]. }
  cbn [ptr] in Hfx. rewrite Hfx. cbn [bind].
  rewrite (rep_root _ _ H3).
  change t3 with (plug [] t3) in H3.
  destruct (setColor_tree T3 [] t3 BLACK H3 Hne) as (h4 & Hsc & H4).
  rewrite Hsc. cbn [bind].
  exists (setHeap T3 h4), (paint BLACK t3). split; [done|]. split; [exact H4|].
  split_and!.
  - split; [by apply color_paint|by exists m].
  - rewrite elems_paint, Hel. unfold K. rewrite path_ins. cbn [plug]. rewrite Hcmp.
    etrans; [exact (elems_ins_tree d n _ t Hso)|]. by apply sinsert_last.
  - cbn. rewrite Hc3. cbn. by rewrite Hc1.
  - by apply lub_paint.
Qed.

Lemma insertAll_sorted evs : ∀ T t,
  Rep T t → RB t → _comparator T = comparator → lub t →
  StronglySorted le_start (elems t ++ evs) →
  ∃ T2 t2, insertAll T evs = Ok T2 ∧ Rep T2 t2 ∧ RB t2 ∧ lub t2
           ∧ elems t2 = elems t ++ evs.
Proof.
  induction evs as [|e evs IH]; intros T t H HRB Hc Hl Hs; simpl.
  - exists T, t. by rewrite app_nil_r.
  - pose proof Hs as Hs'. apply StronglySorted_app in Hs' as (Hlr & Hst & _).
    destruct (insert_spine T t e H HRB Hc Hl Hst) as (T1 & t1 & Hi & H1 & HRB1 & Hel1 & Hc1 & Hl1).
    { apply Forall_forall. intros x Hx. apply Hlr; [done|by left]. }
    rewrite Hi. cbn [bind fst].
    destruct (IH T1 t1 H1 HRB1 Hc1 Hl1) as (T2 & t2 & Hi2 & H2 & HRB2 & Hl2 & Hel2).
    { rewrite Hel1, <- app_assoc. done. }
    exists T2, t2. split_and!; try done. by rewrite Hel2, Hel1, <- app_assoc.
Qed.

(** When the intervals are inserted in the order of their start times,
    the search is exact: [searchInterval] returns the inserted intervals
    that [Event.isColliding] accepts, in their order, and these are what a
    scan of all nodes finds. *)
Theorem searchInterval_exact_after_sorted_inserts (evs : list Event) (q : Event) :
  evs ≠ [] → StronglySorted le_start evs →
  ∃ T out,
    insertAll (newTree comparator) evs = Ok T
    ∧ searchInterval T q None = Ok out
    ∧ out = filter (λ e, isColliding e q = true) evs
    ∧ ∀ e, e ∈ out ↔ e ∈ bruteForce T q.
Proof.
  intros Hne Hs.
  destruct (insertAll_sorted evs (newTree comparator) Leaf (Rep_empty _) RB_Leaf eq_refl I Hs)
    as (T & t & Hi & H & _ & Hl & Hel).
  simpl in Hel.
  assert (Ht : t ≠ Leaf) by (intros ->; by destruct evs).
  exists T, (search_tree q t). split; [done|]. split; [by apply searchInterval_ok|].
  assert (Hst : search_tree q t = filter (λ e, isColliding e q = true) evs).
  { rewrite <- Hel. apply search_tree_complete; [by rewrite Hel|done]. }
  split; [done|]. intros e. rewrite (bruteForce_elems T t q e H), Hst, Hel.
  rewrite list_elem_of_filter. tauto.
Qed.

(** The tree of the unit tests: ten events, each starting 10 after the
    one before, searched for [10, 30]. *)
Lemma searchInterval_exact_after_sorted_inserts_witness :
  ∃ T out,
    insertAll (newTree comparator)
      (map (λ i, mkEvent i (10 * i) (100 + 10 * i)) (seqZ 1 10)) = Ok T
    ∧ searchInterval T (mkEvent 0 10 30) None = Ok out
    ∧ out = filter (λ e, isColliding e (mkEvent 0 10 30) = true)
              (map (λ i, mkEvent i (10 * i) (100 + 10 * i)) (seqZ 1 10))
    ∧ ∀ e, e ∈ out ↔ e ∈ bruteForce T (mkEvent 0 10 30).
Proof.
  apply (searchInterval_exact_after_sorted_inserts
           (map (λ i, mkEvent i (10 * i) (100 + 10 * i)) (seqZ 1 10)) (mkEvent 0 10 30)).
  - discriminate.
  - set (l := map (λ i, mkEvent i (10 * i) (100 + 10 * i)) (seqZ 1 10)).
    vm_compute in l. subst l.
    repeat (apply SSorted_cons;
            [|repeat (constructor; [unfold le_start; simpl; lia|]); constructor]).
    apply SSorted_nil.
Defined.

(** ** Time labels, options, timeline *)

(** *** [Time.format] *)

(** For the hours of a day, [Time.format] gives an hour from 1 to 12 that
    is the hour modulo 12, with [PM] from 12 on and [AM] before; different
    hours of the day get different labels. *)
Theorem Time_format_day (h : Z) :
  0 ≤ h < 24 →
  1 ≤ hours (Time_format h) ≤ 12
  ∧ hours (Time_format h) mod 12 = h mod 12
  ∧ (suffix (Time_format h) = "PM"%string ↔ 12 ≤ h)
  ∧ (suffix (Time_format h) = "AM"%string ↔ h < 12)
  ∧ ∀ h', 0 ≤ h' < 24 → Time_format h' = Time_format h → h' = h.
Proof.
  intros Hh.
  assert (Hf : ∀ x, 0 ≤ x < 24 →
    Time_format x = mkTimeLabel (if bool_decide (x = 0 ∨ x = 12) then 12
                                 else if bool_decide (x >= 12) then x - 12 else x)
                                (if bool_decide (x >= 12) then "PM" else "AM")).
  { intros x Hx. unfold Time_format.
    destruct (bool_decide (x >= 12)) eqn:H12.
    - apply bool_decide_eq_true in H12. repeat case_bool_decide; try done; lia.
    - apply bool_decide_eq_false in H12. repeat case_bool_decide; try done; lia. }
  rewrite (Hf h Hh). cbn [hours suffix]. split; [|split; [|split; [|split]]].
  - repeat case_bool_decide; lia.
  - destruct (decide (h = 0)) as [->|H0]; [by vm_compute|].
    destruct (decide (h = 12)) as [->|H12]; [by vm_compute|].
    rewrite bool_decide_eq_false_2 by lia.
    case_bool_decide; [|done].
    rewrite <- (Z_mod_plus_full (h - 12) 1 12). f_equal. lia.
  - case_bool_decide; split; try done; lia.
  - case_bool_decide; split; try done; lia.
  - intros h' Hh' Heq. rewrite (Hf h' Hh') in Heq.
    injection Heq as Hho Hsu.
    repeat case_bool_decide; try done; lia.
Qed.

(** The values of the unit tests for 23. *)
Lemma Time_format_day_witness :
  1 ≤ hours (Time_format 23) ≤ 12
  ∧ hours (Time_format 23) mod 12 = 23 mod 12
  ∧ (suffix (Time_format 23) = "PM"%string ↔ 12 ≤ 23)
  ∧ (suffix (Time_format 23) = "AM"%string ↔ 23 < 12)
  ∧ ∀ h', 0 ≤ h' < 24 → Time_format h' = Time_format 23 → h' = 23.
Proof. apply (Time_format_day 23). lia. Defined.

(** *** [Calendar.mergeOptions] *)

Lemma mergeOptions_union (options : Options) :
  mergeOptions (Some options) = options ∪ getDefaultOptions.
Proof.
  unfold mergeOptions.
  apply (map_fold_weak_ind (λ r m, r = m ∪ getDefaultOptions)).
  - by rewrite (left_id_L ∅ (∪)).
  - intros i x m r _ ->. by rewrite insert_union_l.
Qed.

(** The merged options hold every property of the custom options with its
    value, and the default for every other key; without custom options
    they are the defaults.  Merging the result again changes nothing. *)
Theorem mergeOptions_overrides_defaults (options : Options) :
  (∀ key, mergeOptions (Some options) !! key
          = match options !! key with
            | Some v => Some v
            | None => getDefaultOptions !! key
            end)
  ∧ mergeOptions None = getDefaultOptions
  ∧ mergeOptions (Some (mergeOptions (Some options))) = mergeOptions (Some options)
  ∧ ∀ key, is_Some (getDefaultOptions !! key) →
           is_Some (mergeOptions (Some options) !! key).
Proof.
  split_and!.
  - intros key. rewrite mergeOptions_union, lookup_union.
    by destruct (options !! key), (getDefaultOptions !! key).
  - done.
  - rewrite !mergeOptions_union. apply map_eq. intros key.
    rewrite !lookup_union.
    by destruct (options !! key), (getDefaultOptions !! key).
  - intros key [v Hv]. rewrite mergeOptions_union, lookup_union, Hv.
    by destruct (options !! key).
Qed.

(** *** [_drawTimeline] *)

Lemma timeline_rows_lt q to : ∀ l,
  Forall (λ i, i < to) l →
  map (λ i, HourRow q (Time_format i)
            :: (if bool_decide (i < to) then [HalfRow q (hours (Time_format i))] else [])) l
  = map (λ i, [HourRow q (Time_format i); HalfRow q (hours (Time_format i))]) l.
Proof.
  induction 1 as [|i l Hi _ IH]; [done|]. simpl. rewrite IH.
  by rewrite bool_decide_eq_true_2.
Qed.

Lemma length_concat_pairs {A B} (f : A → B) (g : A → B) (l : list A) :
  length (concat (map (λ i, [f i; g i]) l)) = (2 * length l)%nat.
Proof. induction l as [|x l IH]; simpl; [done|]. rewrite IH. lia. Qed.

(** The timeline has no row when [to < from].  Else it has an hour row
    and a half-hour row for every hour from [from] up to [to], without the
    last half hour: [2 (to - from) + 1] rows, labelled by [Time.format],
    all of the height [Math.floor(height / (2 (to - from)))], which is
    infinite when [from = to]. *)
Theorem drawTimeline_rows (height from to : Z) :
  (to < from → _drawTimeline height from to = [])
  ∧ (from ≤ to →
       _drawTimeline height from to
       = concat (map (λ i, [HourRow (floor_div height ((to - from) * 2)) (Time_format i);
                            HalfRow (floor_div height ((to - from) * 2))
                                    (hours (Time_format i))])
                     (seqZ from (to - from)))
         ++ [HourRow (floor_div height ((to - from) * 2)) (Time_format to)]
       ∧ Z.of_nat (length (_drawTimeline height from to)) = 2 * (to - from) + 1
       ∧ Forall (λ r, row_height r = floor_div height ((to - from) * 2))
                (_drawTimeline height from to))
  ∧ (from < to → floor_div height ((to - from) * 2) = Num (height / ((to - from) * 2)))
  ∧ (from = to → 0 < height → floor_div height ((to - from) * 2) = PosInfinity).
Proof.
  split_and!.
  - intros Hlt. unfold _drawTimeline. by rewrite seqZ_nil by lia.
  - intros Hle.
    assert (Heq : _drawTimeline height from to
       = concat (map (λ i, [HourRow (floor_div height ((to - from) * 2)) (Time_format i);
                            HalfRow (floor_div height ((to - from) * 2))
                                    (hours (Time_format i))])
                     (seqZ from (to - from)))
         ++ [HourRow (floor_div height ((to - from) * 2)) (Time_format to)]).
    { unfold _drawTimeline. rewrite seqZ_app by lia.
      rewrite map_app, concat_app. f_equal.
      - f_equal. apply timeline_rows_lt. apply Forall_forall. intros i Hi.
        apply list_elem_of_lookup in Hi as [j Hj]. apply lookup_seqZ in Hj. lia.
      - replace (from + (to - from)) with to by lia.
        change (seqZ to 1) with [to]. simpl.
        by rewrite bool_decide_eq_false_2 by lia. }
    split; [done|]. rewrite Heq. split.
    + rewrite length_app, length_concat_pairs, length_seqZ. simpl. lia.
    + apply Forall_app. split; [|by repeat constructor].
      apply Forall_concat, Forall_fmap, Forall_forall. intros i _. by repeat constructor.
  - intros Hlt. unfold floor_div. by rewrite bool_decide_eq_false_2 by lia.
  - intros -> Hh. unfold floor_div.
    rewrite bool_decide_eq_true_2 by lia. rewrite bool_decide_eq_false_2 by lia.
    by rewrite bool_decide_eq_true_2 by lia.
Qed.

(** The default options: 25 rows of height 30, 750 in all for a calendar
    of height 720. *)
Lemma drawTimeline_rows_witness :
  Z.of_nat (length (_drawTimeline 720 9 21)) = 2 * (21 - 9) + 1
  ∧ Forall (λ r, row_height r = Num 30) (_drawTimeline 720 9 21).
Proof.
  destruct (proj1 (proj2 (drawTimeline_rows 720 9 21))) as (_ & Hl & Hh); [lia|].
  split; [exact Hl|exact Hh].
Defined.

(** ** Columns when the search is exact *)

Lemma placed_bin_evs bins e lvl : placed bins e lvl → e ∈ bin_evs bins.
Proof.
  intros (bin & Hb & He). unfold bin_evs. apply elem_of_concat.
  exists (bin_events bin). split; [|done]. apply list_elem_of_fmap.
  exists bin. split; [done|]. by eapply list_elem_of_lookup_2.
Qed.

Lemma placed_addToBin e bins x : ∀ lvl,
  placed bins x lvl → placed (_addToBin e bins) x lvl.
Proof.
  induction bins as [|bin bins IH]; intros lvl (b & Hb & Hx); [done|].
  simpl. case_bool_decide.
  - destruct lvl as [|lvl]; simpl in Hb.
    + injection Hb as <-. eexists. split; [reflexivity|].
      simpl. apply elem_of_app. by left.
    + by exists b.
  - destruct lvl as [|lvl]; simpl in Hb.
    + by exists b.
    + destruct (IH lvl) as (b' & Hb' & Hx'); [by exists b|]. by exists b'.
Qed.

Lemma placed_renderEvents env w bins r :
  r ∈ _renderEvents env w bins → placed bins (r_event r) (r_level r).
Proof.
  intros (lvl & bin & e & Hb & He & ->)%elem_of_renderEvents. by exists bin.
Qed.

Lemma placed_apart bins a b lvl :
  Forall bin_ok bins → placed bins a lvl → placed bins b lvl → a ≠ b → apart a b.
Proof.
  intros Hok (bin & Hb & Ha) (bin' & Hb' & Hb2) Hne.
  rewrite Hb in Hb'. injection Hb' as <-.
  rewrite Forall_forall in Hok. destruct (Hok bin) as [Hs _].
  { by eapply list_elem_of_lookup_2. }
  apply (StronglySorted_pair before _ a b Hs Ha Hb2 Hne).
Qed.

Lemma not_colliding_apart a b : isColliding a b = false → apart a b.
Proof.
  unfold isColliding, apart. intros H.
  destruct (start a <=? end_ b) eqn:H1, (end_ a >=? start b) eqn:H2; simpl in H;
    try done; lia.
Qed.

Section Exact.
Context (env : Env) (T : Tree) (t : tree).
Hypothesis HRep : Rep T t.
Hypothesis Hne : t ≠ Leaf.
Hypothesis Hexact : ∀ q, search_tree q t = filter (λ e, isColliding e q = true) (elems t).
Hypothesis Hids : NoDup (id <$> elems t).
Hypothesis Hwf : Forall wf_event (elems t).

Lemma same_id x y : x ∈ elems t → y ∈ elems t → id x = id y → x = y.
Proof.
  intros [i Hi]%list_elem_of_lookup [j Hj]%list_elem_of_lookup Heq.
  assert (i = j).
  { eapply NoDup_lookup; [exact Hids| |]; rewrite list_lookup_fmap;
      [by rewrite Hi|by rewrite Hj, Heq]. }
  subst j. congruence.
Qed.

Lemma closed_after_call (R R1 R2 R' : gset Z) e :
  e ∈ elems t → R1 = {[ id e ]} ∪ R → R1 ⊆ R2 → R2 ⊆ R' →
  (∀ y, y ∈ search_tree e t → id y ∈ R2) →
  closed_under (elems t) R2 (R2 ∖ R1) →
  closed_under (elems t) R' (R' ∖ R2) →
  closed_under (elems t) R' (R' ∖ R).
Proof.
  intros He -> H12 H2' Hcoll Hc2 Hc' x y Hx Hidx Hy Hcol.
  destruct (decide (id x ∈ R2)) as [Hx2|Hx2]; [|apply (Hc' x y); set_solver].
  apply H2'. destruct (decide (id x = id e)) as [Hxe|Hxe].
  - apply (same_id x e Hx He) in Hxe as ->. apply Hcoll. rewrite Hexact.
    apply list_elem_of_filter. done.
  - apply (Hc2 x y); set_solver.
Qed.

Lemma render_loop_inner rec :
  (∀ c evs b c' html b',
     _tree c = Some T → Forall (λ e, e ∈ elems t) evs →
     (∀ e, e ∈ bin_evs b → e ∈ elems t) → Forall bin_ok b →
     rec c evs (Some b) = (c', Ok (html, b')) →
     inner_post (elems t) c c' evs b html b') →
  ∀ events html0 b c c' html' bref',
    _tree c = Some T → Forall (λ e, e ∈ elems t) events →
    (∀ e, e ∈ bin_evs b → e ∈ elems t) → Forall bin_ok b →
    (∀ r, r ∈ html0 → placed b (r_event r) (r_level r)) →
    _render_loop rec env events html0 (Some b) c = (c', Ok (html', bref')) →
    inner_post (elems t) c c' events b html' bref'.
Proof.
  intros Hrec. induction events as [|e events IH];
    intros html0 b c c' html' bref' Hc Hev Hb Hok Hh; simpl.
  - intros [= <- <- <-]. split_and!; try done.
    + intros e He. by apply elem_of_nil in He.
    + intros x y _ Hx. set_solver.
    + exists b. split_and!; try done. intros e He. by left.
  - apply Forall_cons in Hev as [He Hev].
    destruct (isRendered c e) eqn:Hren; simpl.
    { intros Hl. destruct (IH _ _ _ _ _ _ Hc Hev Hb Hok Hh Hl)
        as (H1 & H2 & H3 & H4 & H5).
      split_and!; try done.
      intros x [->|Hx]%elem_of_cons; [|by apply H2].
      unfold isRendered in Hren. apply bool_decide_eq_true in Hren. by apply H1. }
    unfold isRendered in Hren. apply bool_decide_eq_false in Hren.
    set (c1 := _setIsRendered c e).
    set (bins1 := _addToBin e b).
    unfold getCollisions. change (_tree c1) with (_tree c). rewrite Hc.
    rewrite (searchInterval_ok T t e HRep Hne).
    assert (Hb1 : ∀ x, x ∈ bin_evs bins1 → x ∈ elems t).
    { intros x [->|Hx]%bin_evs_addToBin; [done|by apply Hb]. }
    assert (Hok1 : Forall bin_ok bins1).
    { apply addToBin_ok; [|done]. rewrite Forall_forall in Hwf. by apply Hwf. }
    destruct (rec c1 (search_tree e t) (Some bins1)) as [c2 [[h2 b2o]| |]] eqn:Hr; [|done..].
    assert (Hcoll : Forall (λ x, x ∈ elems t) (search_tree e t)).
    { apply Forall_forall. intros x Hx.
      eapply elem_of_sublist; [exact Hx|apply search_tree_sublist]. }
    destruct (Hrec c1 _ _ _ _ _ Hc Hcoll Hb1 Hok1 Hr)
      as (R1 & R2 & R3 & R4 & b2 & -> & R5 & R6 & R7 & R8 & R9).
    cbn [default from_option Datatypes.id].
    intros Hl. apply IH in Hl.
    + destruct Hl as (H1 & H2 & H3 & H4 & b3 & -> & H5 & H6 & H7 & H8 & H9).
      split_and!.
      * etrans; [|exact H1]. etrans; [|exact R1]. simpl. set_solver.
      * intros x [->|Hx]%elem_of_cons; [|by apply H2].
        apply H1, R1. simpl. set_solver.
      * eapply (closed_after_call _ (_renderedEvents c1) (_renderedEvents c2) _ e);
          done.
      * by rewrite H4, R4.
      * exists b3. split_and!; try done.
        -- intros x lvl Hp. apply H5, R5. by apply placed_addToBin.
        -- intros x Hx. destruct (H7 x Hx) as [Hx2|[Hx2 Hx3]].
           ++ destruct (R7 x Hx2) as [Hx1|[Hx1 Hx1']].
              ** apply bin_evs_addToBin in Hx1 as [->|Hx1]; [|by left].
                 right. split; [|done]. apply H1, R1. simpl. set_solver.
              ** right. split; [by apply H1|]. simpl in Hx1'. set_solver.
           ++ right. split; [done|]. intros Hin. apply Hx3, R1. simpl. set_solver.
    + by rewrite R4.
    + done.
    + done.
    + done.
    + intros r [[Hr'|Hr']%elem_of_app|Hr']%elem_of_app.
      * apply R5. apply placed_addToBin. by apply Hh.
      * by apply R6.
      * by eapply placed_renderEvents.
Qed.

Lemma render_inner fuel : ∀ c evs b c' html b',
  _tree c = Some T → Forall (λ e, e ∈ elems t) evs →
  (∀ e, e ∈ bin_evs b → e ∈ elems t) → Forall bin_ok b →
  _render fuel env c evs (Some b) = (c', Ok (html, b')) →
  inner_post (elems t) c c' evs b html b'.
Proof.
  induction fuel as [|fuel IH]; intros c evs b c' html b' Hc Hev Hb Hok; [done|].
  simpl. intros Hl. eapply render_loop_inner in Hl; try done.
  intros r Hr. by apply elem_of_nil in Hr.
Qed.

Lemma render_loop_top fuel :
  ∀ events html0 c c' html' bref',
    _tree c = Some T → Forall (λ e, e ∈ elems t) events →
    top_inv (elems t) (_renderedEvents c) html0 →
    _render_loop (_render fuel env) env events html0 None c = (c', Ok (html', bref')) →
    top_inv (elems t) (_renderedEvents c') html'.
Proof.
  induction events as [|e events IH]; intros html0 c c' html' bref' Hc Hev Hinv; simpl.
  - by intros [= <- <- <-].
  - apply Forall_cons in Hev as [He Hev].
    destruct (isRendered c e) eqn:Hren; simpl; [by apply IH|].
    unfold isRendered in Hren. apply bool_decide_eq_false in Hren.
    set (c1 := _setIsRendered c e).
    unfold getCollisions. change (_tree c1) with (_tree c). rewrite Hc.
    rewrite (searchInterval_ok T t e HRep Hne).
    set (bins1 := [mkBin (end_ e) [e]]).
    assert (Hb1 : ∀ x, x ∈ bin_evs bins1 → x ∈ elems t).
    { intros x Hx. unfold bins1, bin_evs in Hx. simpl in Hx.
      apply elem_of_cons in Hx as [->|Hx]; [done|by apply elem_of_nil in Hx]. }
    assert (Hok1 : Forall bin_ok bins1).
    { apply (addToBin_ok e []); [|constructor]. rewrite Forall_forall in Hwf. by apply Hwf. }
    destruct (_render fuel env c1 (search_tree e t) (Some bins1))
      as [c2 [[h2 b2o]| |]] eqn:Hr; [|done..].
    assert (Hcoll : Forall (λ x, x ∈ elems t) (search_tree e t)).
    { apply Forall_forall. intros x Hx.
      eapply elem_of_sublist; [exact Hx|apply search_tree_sublist]. }
    destruct (render_inner fuel c1 _ _ _ _ _ Hc Hcoll Hb1 Hok1 Hr)
      as (R1 & R2 & R3 & R4 & b2 & -> & R5 & R6 & R7 & R8 & R9).
    cbn [default from_option Datatypes.id].
    apply IH; [by rewrite R4|done|].
    destruct Hinv as (HG & Hold & Hcl).
    assert (Hnew : ∀ r, r ∈ h2 ++ _renderEvents env (options_width c2) b2 →
              placed b2 (r_event r) (r_level r)
              ∧ r_event r ∈ elems t
              ∧ id (r_event r) ∈ _renderedEvents c2
              ∧ id (r_event r) ∉ _renderedEvents c).
    { intros r Hr'.
      assert (Hp : placed b2 (r_event r) (r_level r)).
      { apply elem_of_app in Hr' as [Hr'|Hr']; [by apply R6|by eapply placed_renderEvents]. }
      pose proof (placed_bin_evs _ _ _ Hp) as Hin.
      split; [done|]. split; [by apply R8|].
      destruct (R7 _ Hin) as [Hx1|[Hx1 Hx1']].
      - unfold bins1, bin_evs in Hx1. simpl in Hx1.
        apply elem_of_cons in Hx1 as [->|Hx1]; [|by apply elem_of_nil in Hx1].
        split; [|done]. apply R1. simpl. set_solver.
      - split; [done|]. simpl in Hx1'. set_solver. }
    assert (Hcross : ∀ r1 r2, r1 ∈ html0 →
              r2 ∈ h2 ++ _renderEvents env (options_width c2) b2 →
              apart (r_event r1) (r_event r2)).
    { intros r1 r2 Hr1 Hr2. destruct (Hold r1 Hr1) as [Hx Hidx].
      destruct (Hnew r2 Hr2) as (_ & Hy & _ & Hidy).
      destruct (isColliding (r_event r2) (r_event r1)) eqn:Hcol.
      - exfalso. apply Hidy. by eapply (Hcl (r_event r1) (r_event r2)).
      - apply not_colliding_apart in Hcol. unfold apart in *. lia. }
    split_and!.
    + intros r1 r2 Hr1 Hr2 Hlev Hne'.
      rewrite <- app_assoc in Hr1, Hr2.
      apply elem_of_app in Hr1 as [Hr1|Hr1]; apply elem_of_app in Hr2 as [Hr2|Hr2].
      * by apply HG.
      * by apply Hcross.
      * specialize (Hcross r2 r1 Hr2 Hr1). unfold apart in *. lia.
      * destruct (Hnew r1 Hr1) as (Hp1 & _). destruct (Hnew r2 Hr2) as (Hp2 & _).
        rewrite Hlev in Hp1. by eapply placed_apart.
    + intros r Hr'. rewrite <- app_assoc in Hr'. apply elem_of_app in Hr' as [Hr'|Hr'].
      * destruct (Hold r Hr') as [? ?]. split; [done|]. apply R1. simpl. set_solver.
      * destruct (Hnew r Hr') as (_ & ? & ? & _). done.
    + intros x y Hx Hidx Hy Hcol.
      destruct (decide (id x ∈ _renderedEvents c)) as [Hxr|Hxr].
      { apply R1. simpl. apply elem_of_union. right. by eapply (Hcl x y). }
      destruct (decide (id x = id e)) as [Hxe|Hxe].
      * apply (same_id x e Hx He) in Hxe as ->. apply R2. rewrite Hexact.
        by apply list_elem_of_filter.
      * apply (R3 x y); try done. simpl. set_solver.
Qed.
End Exact.

(** When the events are handed over in the order of their start (ids
    distinct, each starting before it ends), a layout call returns them as
    given, and any two elements of the whole output that show different
    events in the same column show events of which one ends no later than
    the other starts. *)
Theorem layOutDay_sorted_no_overlap (env : Env) (c : Calendar) (events : list Event) :
  events ≠ [] → StronglySorted le_start events → NoDup (id <$> events) →
  Forall wf_event events →
  ∃ c',
    layOutDay env c events = (c', Ok events)
    ∧ ∀ r1 r2, r1 ∈ innerHTML c' → r2 ∈ innerHTML c' →
        r_level r1 = r_level r2 → r_event r1 ≠ r_event r2 →
        end_ (r_event r1) ≤ start (r_event r2) ∨ end_ (r_event r2) ≤ start (r_event r1).
Proof.
  intros Hne Hs Hnd Hwf.
  destruct (layOutDay_run env c events Hne)
    as (T & t0 & c2 & html & b & Hi & H0 & Ht0 & Hel0 & Hr & _ & _ & _ & Hlay).
  destruct (insertAll_sorted events (newTree comparator) Leaf (Rep_empty _) RB_Leaf eq_refl I Hs)
    as (T' & t & Hi' & H & _ & Hl & Hel).
  simpl in Hel. rewrite Hi in Hi'. injection Hi' as <-.
  assert (Ht : t ≠ Leaf) by (intros ->; by destruct events).
  assert (Hso : ssort events = events).
  { pose proof (getOrderedData_ok T t0 None H0 Ht0) as E0.
    pose proof (getOrderedData_ok T t None H Ht) as E. congruence. }
  rewrite Hso in *.
  exists (set_innerHTML c2 html). split; [done|].
  change (_render (S (length events)) env ?c0 events None)
    with (_render_loop (_render (length events) env) env events [] None c0) in Hr.
  eapply (render_loop_top env T t H Ht) in Hr.
  - destruct Hr as (HG & _). exact HG.
  - intros q. apply search_tree_complete; [by rewrite Hel|done].
  - by rewrite Hel.
  - by rewrite Hel.
  - done.
  - rewrite Hel. apply Forall_forall. auto.
  - split_and!.
    + intros r1 r2 Hr1. by apply elem_of_nil in Hr1.
    + intros r Hr1. by apply elem_of_nil in Hr1.
    + intros x y _ Hx. simpl in Hx. set_solver.
Qed.

(** The six events of [split_events], put in the order of their start. *)
Lemma layOutDay_sorted_no_overlap_witness :
  ∃ c',
    layOutDay env0 cal0
      [mkEvent 5 3 9; mkEvent 3 5 7; mkEvent 6 8 16; mkEvent 4 11 18;
       mkEvent 1 12 19; mkEvent 2 12 13]
    = (c', Ok [mkEvent 5 3 9; mkEvent 3 5 7; mkEvent 6 8 16; mkEvent 4 11 18;
               mkEvent 1 12 19; mkEvent 2 12 13])
    ∧ ∀ r1 r2, r1 ∈ innerHTML c' → r2 ∈ innerHTML c' →
        r_level r1 = r_level r2 → r_event r1 ≠ r_event r2 →
        end_ (r_event r1) ≤ start (r_event r2) ∨ end_ (r_event r2) ≤ start (r_event r1).
Proof.
  apply (layOutDay_sorted_no_overlap env0 cal0).
  - discriminate.
  - repeat (apply SSorted_cons;
            [|repeat (constructor; [unfold le_start; simpl; lia|]); constructor]).
    apply SSorted_nil.
  - vm_compute. repeat (constructor; [set_solver|]). constructor.
  - repeat (constructor; [unfold wf_event; simpl; lia|]). constructor.
Defined.

